(** * Ponder: the wordlist generation pipeline

    A shallow embedding of the Go sources of Ponder (package [generate],
    package [models], the quality predicates and the external sort of
    package [utils], and the line test of the handlers of package [api])
    together with the properties of the pipeline that its specification
    states.

    Go strings are byte sequences: they are modelled as [list ascii].
    Runes are [Z].  The pieces of the Go standard library that the code
    calls are modelled first, one Rocq module per Go package; the
    repository's own functions follow, under the names they have in the
    source.

    Files are their contents.  Opening, reading and writing a file
    succeed; the one error that is modelled is the one that the content
    of a file can cause, a line too long for a [bufio.Scanner].  Where
    Go leaves an order open (the iteration over a map, elements that
    [sort.Slice] does not separate) the model takes one order, and the
    properties proved do not depend on it. *)

From Stdlib Require Import ZArith List Ascii String Lia Bool.
From Stdlib Require Import Numbers.DecimalString Numbers.DecimalPos Numbers.DecimalZ.
From stdpp Require Import base gmap list strings sorting.
Import ListNotations.

Local Open Scope Z_scope.

(** ** Bytes *)

Definition byteval (c : ascii) : Z := Z.of_N (N_of_ascii c).
Definition byte_of (z : Z) : ascii := ascii_of_N (Z.to_N z).

(** A Go string literal. *)
Definition lit (s : string) : list ascii := list_ascii_of_string s.

Definition NUL : ascii := "000"%char.
Definition TAB : ascii := "009"%char.
Definition LF : ascii := "010"%char.
Definition VT : ascii := "011"%char.
Definition FF : ascii := "012"%char.
Definition CR : ascii := "013"%char.
Definition SP : ascii := " "%char.

Definition len (s : list ascii) : Z := Z.of_nat (length s).

(** What the code takes from tables that are not part of it: the Unicode
    letter classification beyond ASCII ([unicode.IsLetter]) and the title
    caser of golang.org/x/text ([cases.Title(language.Und, cases.NoLower)]). *)
Class GoTables := {
  unicode_Letter_table : Z -> bool;
  cases_Title_NoLower : list ascii -> list ascii
}.

(** ** Package unicode/utf8 *)
Module utf8.

Definition RuneError : Z := 65533.
Definition RuneSelf : Z := 128.

Definition in_range (lo hi b : Z) : bool := (lo <=? b) && (b <=? hi).

(** The entry of the table [first] for a leading byte: [None] for an
    invalid leading byte, otherwise the size of the sequence and the
    range accepted for its second byte. *)
Definition first (s0 : Z) : option (nat * (Z * Z)) :=
  if in_range 194 223 s0 then Some (2%nat, (128, 191))
  else if s0 =? 224 then Some (3%nat, (160, 191))
  else if in_range 225 236 s0 then Some (3%nat, (128, 191))
  else if s0 =? 237 then Some (3%nat, (128, 159))
  else if in_range 238 239 s0 then Some (3%nat, (128, 191))
  else if s0 =? 240 then Some (4%nat, (144, 191))
  else if in_range 241 243 s0 then Some (4%nat, (128, 191))
  else if s0 =? 244 then Some (4%nat, (128, 143))
  else None.

Definition at_ (s : list ascii) (i : nat) : Z := byteval (nth i s NUL).

(** [utf8.DecodeRuneInString]: the first rune of [s] and its width. *)
Definition DecodeRuneInString (s : list ascii) : Z * nat :=
  match s with
  | [] => (RuneError, 0%nat)
  | c0 :: _ =>
      let s0 := byteval c0 in
      if s0 <? RuneSelf then (s0, 1%nat)
      else match first s0 with
      | None => (RuneError, 1%nat)
      | Some (sz, (lo, hi)) =>
          if (length (firstn 4 s) <? sz)%nat then (RuneError, 1%nat)
          else
            let s1 := at_ s 1 in
            if negb (in_range lo hi s1) then (RuneError, 1%nat)
            else if (sz <=? 2)%nat then
              (Z.lor (Z.shiftl (Z.land s0 31) 6) (Z.land s1 63), 2%nat)
            else
              let s2 := at_ s 2 in
              if negb (in_range 128 191 s2) then (RuneError, 1%nat)
              else if (sz <=? 3)%nat then
                (Z.lor (Z.lor (Z.shiftl (Z.land s0 15) 12)
                              (Z.shiftl (Z.land s1 63) 6))
                       (Z.land s2 63), 3%nat)
              else
                let s3 := at_ s 3 in
                if negb (in_range 128 191 s3) then (RuneError, 1%nat)
                else
                  (Z.lor (Z.lor (Z.lor (Z.shiftl (Z.land s0 7) 18)
                                       (Z.shiftl (Z.land s1 63) 12))
                                (Z.shiftl (Z.land s2 63) 6))
                         (Z.land s3 63), 4%nat)
      end
  end.

(** [for _, r := range s]: the runes of [s] with the bytes of each. *)
Fixpoint decode_fuel (fuel : nat) (s : list ascii) : list (Z * list ascii) :=
  match fuel, s with
  | S fuel', _ :: _ =>
      let '(r, w) := DecodeRuneInString s in
      (r, firstn w s) :: decode_fuel fuel' (skipn w s)
  | _, _ => []
  end.

Definition decode (s : list ascii) : list (Z * list ascii) :=
  decode_fuel (length s) s.

Definition runes (s : list ascii) : list Z := map fst (decode s).

Definition RuneStart (b : Z) : bool := negb (Z.land b 192 =? 128).

(** The start, counted from the end, of the candidate sequence that
    [DecodeLastRuneInString] looks at: the loop walks back from the
    byte before the last one, over at most [UTFMax] bytes. *)
Fixpoint back_start (k : nat) (tries : nat) (rs : list ascii) : nat :=
  match tries, rs with
  | S tries', c :: rs' =>
      if RuneStart (byteval c) then k else back_start (S k) tries' rs'
  | O, _ :: _ => k
  | _, [] => (k - 1)%nat
  end.

(** [utf8.DecodeLastRuneInString]. *)
Definition DecodeLastRuneInString (s : list ascii) : Z * nat :=
  match rev s with
  | [] => (RuneError, 0%nat)
  | c :: before =>
      let r := byteval c in
      if r <? RuneSelf then (r, 1%nat)
      else
        let k := back_start 2 3 before in
        let '(r', size) := DecodeRuneInString (skipn (length s - k) s) in
        if (size =? k)%nat then (r', size) else (RuneError, 1%nat)
  end.

End utf8.

(** ** Package unicode *)
Module unicode.

Definition MaxASCII : Z := 127.

Definition ascii_letter (r : Z) : bool :=
  utf8.in_range 65 90 r || utf8.in_range 97 122 r.

Definition IsLetter {T : GoTables} (r : Z) : bool :=
  if (0 <=? r) && (r <=? MaxASCII) then ascii_letter r
  else unicode_Letter_table r.

(** [unicode.IsSpace]: the Latin-1 switch and the White_Space table. *)
Definition IsSpace (r : Z) : bool :=
  if (0 <=? r) && (r <=? 255) then
    (r =? 9) || (r =? 10) || (r =? 11) || (r =? 12) || (r =? 13)
    || (r =? 32) || (r =? 133) || (r =? 160)
  else
    (r =? 5760) || utf8.in_range 8192 8202 r || utf8.in_range 8232 8233 r
    || (r =? 8239) || (r =? 8287) || (r =? 12288).

End unicode.

(** ** Package strings *)
Module strings.

(** [strings.Split(s, sep)] for a separator of one byte. *)
Fixpoint Split (s : list ascii) (sep : ascii) : list (list ascii) :=
  match s with
  | [] => [[]]
  | c :: t =>
      if Ascii.eqb c sep then [] :: Split t sep
      else match Split t sep with
           | h :: r => (c :: h) :: r
           | [] => [[c]]
           end
  end.

Fixpoint Join (elems : list (list ascii)) (sep : list ascii) : list ascii :=
  match elems with
  | [] => []
  | [x] => x
  | x :: t => x ++ sep ++ Join t sep
  end.

Definition Contains (s : list ascii) (c : ascii) : bool :=
  existsb (Ascii.eqb c) s.

(** [strings.ReplaceAll(s, old, "")] for an [old] of one byte. *)
Definition ReplaceAll (s : list ascii) (old : ascii) : list ascii :=
  List.filter (fun c => negb (Ascii.eqb c old)) s.

(** [strings.ContainsRune(s, r)] for an ASCII string [s]. *)
Definition ContainsRune (s : list ascii) (r : Z) : bool :=
  existsb (fun c => byteval c =? r) s.

(** [strings.ToLower] on its ASCII path; the code calls it on strings
    that hold printable ASCII only, other bytes are left as they are. *)
Definition lower_byte (c : ascii) : ascii :=
  if utf8.in_range 65 90 (byteval c) then byte_of (byteval c + 32) else c.

Definition ToLower (s : list ascii) : list ascii := map lower_byte s.

Definition asciiSpace (b : Z) : bool :=
  (b =? 9) || (b =? 10) || (b =? 11) || (b =? 12) || (b =? 13) || (b =? 32).

(** [strings.FieldsFunc(s, unicode.IsSpace)], which [strings.Fields]
    equals on every input: the maximal runs of runes that are not
    white space.  [cur] holds the bytes of the open field, reversed. *)
Fixpoint fields_go (cur : list ascii) (segs : list (Z * list ascii))
  : list (list ascii) :=
  match segs with
  | [] => match cur with [] => [] | _ => [rev cur] end
  | (r, bs) :: t =>
      if unicode.IsSpace r then
        match cur with
        | [] => fields_go [] t
        | _ => rev cur :: fields_go [] t
        end
      else fields_go (rev_append bs cur) t
  end.

Definition Fields (s : list ascii) : list (list ascii) :=
  fields_go [] (utf8.decode s).

(** [strings.TrimLeftFunc] and [strings.TrimRightFunc]. *)
Fixpoint trimLeft_go (f : Z -> bool) (segs : list (Z * list ascii))
  : list ascii :=
  match segs with
  | [] => []
  | (r, bs) :: t =>
      if f r then trimLeft_go f t else bs ++ concat (map snd t)
  end.

Definition TrimLeftFunc (s : list ascii) (f : Z -> bool) : list ascii :=
  trimLeft_go f (utf8.decode s).

(** [lastIndexFunc(s, f, false)]: the index of the last rune, decoded
    from the end, on which [f] is false. *)
Fixpoint lastIndexFunc_go (fuel : nat) (f : Z -> bool) (pre : list ascii)
  : option nat :=
  match fuel, pre with
  | S fuel', _ :: _ =>
      let '(r, size) := utf8.DecodeLastRuneInString pre in
      let i := (length pre - size)%nat in
      if f r then lastIndexFunc_go fuel' f (firstn i pre) else Some i
  | _, _ => None
  end.

Definition TrimRightFunc (s : list ascii) (f : Z -> bool) : list ascii :=
  match lastIndexFunc_go (length s) f s with
  | None => []
  | Some i =>
      if utf8.RuneSelf <=? utf8.at_ s i
      then firstn (i + snd (utf8.DecodeRuneInString (skipn i s))) s
      else firstn (S i) s
  end.

Definition TrimFunc (s : list ascii) (f : Z -> bool) : list ascii :=
  TrimRightFunc (TrimLeftFunc s f) f.

(** [strings.TrimSpace]: the ASCII fast path from both ends, falling
    back on [TrimFunc] at the first byte that is not ASCII. *)
Fixpoint trimSpace_left (s : list ascii) : list ascii + list ascii :=
  match s with
  | [] => inl []
  | c :: t =>
      if utf8.RuneSelf <=? byteval c then inr s
      else if asciiSpace (byteval c) then trimSpace_left t
      else inl s
  end.

Definition TrimSpace (s : list ascii) : list ascii :=
  match trimSpace_left s with
  | inr rest => TrimFunc rest unicode.IsSpace
  | inl rest =>
      match trimSpace_left (rev rest) with
      | inr r => TrimRightFunc (rev r) unicode.IsSpace
      | inl r => rev r
      end
  end.

(** [strings.TrimLeft(s, cutset)] for a cutset of one ASCII byte. *)
Fixpoint TrimLeft (s : list ascii) (cut : ascii) : list ascii :=
  match s with
  | c :: t => if Ascii.eqb c cut then TrimLeft t cut else s
  | [] => []
  end.

Fixpoint HasPrefix (s p : list ascii) : bool :=
  match p, s with
  | [], _ => true
  | a :: p', b :: s' => Ascii.eqb a b && HasPrefix s' p'
  | _ :: _, [] => false
  end.

Definition HasSuffix (s suffix : list ascii) : bool :=
  HasPrefix (rev s) (rev suffix).

Definition TrimSuffix (s suffix : list ascii) : list ascii :=
  if HasSuffix s suffix then firstn (length s - length suffix) s else s.

(** [strings.Index(s, substr)]: the index of the first occurrence of
    [substr] in [s], or -1. *)
Fixpoint Index_from (i : Z) (s substr : list ascii) : Z :=
  match s with
  | [] => if HasPrefix [] substr then i else -1
  | _ :: t => if HasPrefix s substr then i else Index_from (i + 1) t substr
  end.

Definition Index (s substr : list ascii) : Z := Index_from 0 s substr.

(** [strings.Contains(s, substr)] for any [substr]. *)
Definition ContainsSubstring (s substr : list ascii) : bool :=
  Index s substr >=? 0.

(** [strings.SplitN(s, sep, 2)] for a separator that is not empty. *)
Definition SplitN2 (s sep : list ascii) : list (list ascii) :=
  let m := Index s sep in
  if m <? 0 then [s]
  else [firstn (Z.to_nat m) s; skipn (Z.to_nat (m + len sep)) s].

End strings.

(** ** Package fmt *)
Module fmt.

(** The verb [%d]. *)
Definition d (n : Z) : list ascii :=
  list_ascii_of_string (NilZero.string_of_int (Z.to_int n)).

End fmt.

(** ** Package bufio *)
Module bufio.

Definition MaxScanTokenSize : Z := 64 * 1024.

Definition dropCR (data : list ascii) : list ascii :=
  match rev data with
  | c :: r => if Ascii.eqb c CR then rev r else data
  | [] => data
  end.

(** The raw lines that [ScanLines] cuts: the pieces between newlines,
    without a final empty piece. *)
Definition rawLines (data : list ascii) : list (list ascii) :=
  let pieces := strings.Split data LF in
  match rev pieces with
  | [] :: r => rev r
  | _ => pieces
  end.

Definition fits (l : list ascii) : bool := len l <? MaxScanTokenSize.

(** A [bufio.Scanner] with the split function [ScanLines] run to its
    end.  A line that does not fit the buffer with its newline stops
    the scanner: [Scan] returns false and [Err] is [ErrTooLong]. *)
Fixpoint scan (raw : list (list ascii)) : list (list ascii) :=
  match raw with
  | [] => []
  | l :: t => if fits l then dropCR l :: scan t else []
  end.

Definition Scanner_Text (data : list ascii) : list (list ascii) :=
  scan (rawLines data).

(** [scanner.Err() != nil] after the loop. *)
Definition Scanner_Err (data : list ascii) : bool :=
  negb (forallb fits (rawLines data)).

End bufio.

(** ** Package sort *)
Module sort.

(** Byte-wise lexicographic order, the [<=] of Go strings. *)
Fixpoint string_le (a b : list ascii) : bool :=
  match a, b with
  | [], _ => true
  | _ :: _, [] => false
  | x :: a', y :: b' =>
      if byteval x <? byteval y then true
      else if byteval y <? byteval x then false
      else string_le a' b'
  end.

Definition le (a b : list ascii) : Prop := string_le a b = true.

#[global] Instance le_dec : RelDecision le.
Proof. intros a b. unfold le. apply _. Defined.

(** [sort.Strings]. *)
Definition Strings (l : list (list ascii)) : list (list ascii) :=
  merge_sort le l.

(** [sort.Slice(x, less)]: the order of elements that [less] does not
    separate is not fixed by Go; this model keeps their order. *)
Definition not_after {A} (less : A -> A -> bool) (a b : A) : Prop :=
  less b a = false.

#[global] Instance not_after_dec {A} (less : A -> A -> bool) :
  RelDecision (not_after less).
Proof. intros a b. unfold not_after. apply _. Defined.

Definition Slice {A} (less : A -> A -> bool) (l : list A) : list A :=
  merge_sort (not_after less) l.

End sort.

(** ** Package regexp

    The fragment of RE2 syntax that the quality pattern uses, matched
    with derivatives over the runes of the input.  [^] and [$] are the
    start and the end of the text (no flags are set), [.] is any rune
    but a newline. *)
Module regexp.

Inductive re : Type :=
| Void                      (* matches nothing *)
| Eps                       (* the empty string *)
| Chr (r : Z)               (* one literal rune *)
| Dot                       (* . *)
| AnyRune                   (* any rune, for the unanchored search *)
| Class (rs : list (Z * Z)) (* [...] as a list of ranges *)
| Cat (a b : re)
| Alt (a b : re)
| Star (a : re)
| Bol                       (* ^ *)
| Eol.                      (* $ *)

Definition Plus (a : re) : re := Cat a (Star a).
Definition Opt (a : re) : re := Alt a Eps.

(** [a{n}] and [a{lo,hi}]. *)
Fixpoint Times (n : nat) (a : re) : re :=
  match n with O => Eps | S n' => Cat a (Times n' a) end.

Fixpoint UpTo (n : nat) (a : re) : re :=
  match n with O => Eps | S n' => Opt (Cat a (UpTo n' a)) end.

Definition Repeat (lo hi : nat) (a : re) : re :=
  Cat (Times lo a) (UpTo (hi - lo) a).

(** A literal string of the pattern. *)
Fixpoint Str (s : list ascii) : re :=
  match s with
  | [] => Eps
  | [c] => Chr (byteval c)
  | c :: t => Cat (Chr (byteval c)) (Str t)
  end.

Fixpoint Alts (l : list re) : re :=
  match l with
  | [] => Void
  | [a] => a
  | a :: t => Alt a (Alts t)
  end.

(** Does [a] match the empty string here?  [bot]: at the beginning of
    the text; [eot]: at its end. *)
Fixpoint nullable (bot eot : bool) (a : re) : bool :=
  match a with
  | Void | Chr _ | Dot | AnyRune | Class _ => false
  | Eps | Star _ => true
  | Cat a b => nullable bot eot a && nullable bot eot b
  | Alt a b => nullable bot eot a || nullable bot eot b
  | Bol => bot
  | Eol => eot
  end.

Definition cat (a b : re) : re :=
  match a, b with
  | Void, _ | _, Void => Void
  | Eps, _ => b
  | _, _ => Cat a b
  end.

Definition alt (a b : re) : re :=
  match a, b with
  | Void, _ => b
  | _, Void => a
  | _, _ => Alt a b
  end.

Definition in_class (rs : list (Z * Z)) (c : Z) : bool :=
  existsb (fun '(lo, hi) => (lo <=? c) && (c <=? hi)) rs.

(** What is left of [a] after the rune [c], read at the beginning of
    the text when [bot]. *)
Fixpoint deriv (bot : bool) (c : Z) (a : re) : re :=
  match a with
  | Void | Eps | Bol | Eol => Void
  | Chr r => if r =? c then Eps else Void
  | Dot => if c =? 10 then Void else Eps
  | AnyRune => Eps
  | Class rs => if in_class rs c then Eps else Void
  | Cat a b =>
      alt (cat (deriv bot c a) b)
          (if nullable bot false a then deriv bot c b else Void)
  | Alt a b => alt (deriv bot c a) (deriv bot c b)
  | Star a => cat (deriv bot c a) (Star a)
  end.

Fixpoint matches (bot : bool) (a : re) (text : list Z) : bool :=
  match text with
  | [] => nullable bot true a
  | c :: t => matches false (deriv bot c a) t
  end.

(** [re.MatchString(s)]: some substring of [s] matches. *)
Definition MatchString (a : re) (s : list ascii) : bool :=
  matches true (Cat (Star AnyRune) (Cat a (Star AnyRune))) (utf8.runes s).

End regexp.

(** ** Package encoding/hex *)
Module hex.

Definition fromHexChar (c : ascii) : option Z :=
  let b := byteval c in
  if utf8.in_range 48 57 b then Some (b - 48)
  else if utf8.in_range 97 102 b then Some (b - 97 + 10)
  else if utf8.in_range 65 70 b then Some (b - 65 + 10)
  else None.

(** [hex.DecodeString]: [None] for [ErrLength] and [InvalidByteError]. *)
Fixpoint DecodeString (s : list ascii) : option (list ascii) :=
  match s with
  | [] => Some []
  | [_] => None
  | p :: q :: t =>
      match fromHexChar p, fromHexChar q with
      | Some a, Some b =>
          match DecodeString t with
          | Some dst => Some (byte_of (Z.lor (Z.shiftl a 4) b) :: dst)
          | None => None
          end
      | _, _ => None
      end
  end.

(** [hex.EncodeToString]; the code does not call it, the round trip
    of [ConvertHexToPlaintext] is stated with it. *)
Definition hexdigit (v : Z) : ascii :=
  nth (Z.to_nat v) (lit "0123456789abcdef") "0"%char.

Definition EncodeToString (src : list ascii) : list ascii :=
  concat (map (fun c => [hexdigit (Z.shiftr (byteval c) 4);
                         hexdigit (Z.land (byteval c) 15)]) src).

End hex.

(** [x[i:j]] on a slice or a string. *)
Definition slice {A} (x : list A) (i j : nat) : list A :=
  firstn (j - i) (skipn i x).

(** * Package utils: the quality predicates *)

Section Predicates.
Context {T : GoTables}.

(** [IsAllDigitsOrSpecialChars]: the loop sets [hasLetter] at the first
    letter and breaks. *)
Fixpoint hasLetter_loop (rs : list Z) : bool :=
  match rs with
  | [] => false
  | char :: rest => if unicode.IsLetter char then true else hasLetter_loop rest
  end.

Definition IsAllDigitsOrSpecialChars (s : list ascii) : bool :=
  negb (hasLetter_loop (utf8.runes s)).

(** [ContainsOnlyASCII]: returns false at the first rune above
    [unicode.MaxASCII]. *)
Fixpoint onlyASCII_loop (rs : list Z) : bool :=
  match rs with
  | [] => true
  | char :: rest =>
      if char >? unicode.MaxASCII then false else onlyASCII_loop rest
  end.

Definition ContainsOnlyASCII (s : list ascii) : bool :=
  onlyASCII_loop (utf8.runes s).

Definition vowels : list ascii := lit "aeiouAEIOU".

(** [isWordLike]: the state of the loop is [(digitOrSpecialCount,
    hasVowel)]. *)
Definition isWordLike_step (st : Z * bool) (char : Z) : Z * bool :=
  let '(digitOrSpecialCount, hasVowel) := st in
  if strings.ContainsRune vowels char then (digitOrSpecialCount, true)
  else if negb (unicode.IsLetter char) then (digitOrSpecialCount + 1, hasVowel)
  else (digitOrSpecialCount, hasVowel).

Definition isWordLike (s : list ascii) : bool :=
  let '(digitOrSpecialCount, hasVowel) :=
    fold_left isWordLike_step (utf8.runes s) (0, false) in
  hasVowel && (digitOrSpecialCount <=? 1).

(** [LikelyContainsWords]: the loop [for i := 0; i < len(s)-4; i++],
    run over its [len(s)-4] indices. *)
Definition LikelyContainsWords_loop_from (s : list ascii) (indices : list nat)
    (vowelCount : Z) : Z :=
  fold_left
    (fun vowelCount i =>
       if isWordLike (slice s i (i + 5)) then vowelCount + 1 else vowelCount)
    indices vowelCount.

Definition LikelyContainsWords_loop (s : list ascii) (indices : list nat) : Z :=
  LikelyContainsWords_loop_from s indices 0.

Definition LikelyContainsWords (s : list ascii) : bool :=
  if len s <? 5 then false
  else
    let vowelCount := LikelyContainsWords_loop s (seq 0 (length s - 4)) in
    vowelCount >? 0.

End Predicates.

(** [IsQualityCandidateCheck]: the pattern, alternative by alternative.
    The source writes it in a raw string literal, where a backslash is
    a character of the pattern: each [\\] of the pattern is an escaped
    backslash, a literal backslash of the text, and the [/], [@] or [.]
    that follows it stands for itself ([.] for any rune). *)
Definition backslash : regexp.re := regexp.Chr 92.

Definition domain_names : list string :=
  ["xiaonei"; "zomato"; "fbobh"; "fccdbbcdaa"; "yahoo"; "linkedin";
   "gmail"; "yandex"; "hotmail"]%string.

Definition domains : regexp.re :=
  regexp.Alts (map (fun w => regexp.Str (lit w)) domain_names).

Definition alnum : list (Z * Z) := [(65, 90); (97, 122); (48, 57)].

(** [http:\\/\\/] and [https:\\/\\/] *)
Definition re_url (scheme : string) : regexp.re :=
  regexp.Cat (regexp.Str (lit scheme))
    (regexp.Cat backslash (regexp.Cat (regexp.Chr 47)
      (regexp.Cat backslash (regexp.Chr 47)))).

(** [\\@.*\\.net] *)
Definition re_at_net : regexp.re :=
  regexp.Cat backslash (regexp.Cat (regexp.Chr 64)
    (regexp.Cat (regexp.Star regexp.Dot)
      (regexp.Cat backslash (regexp.Cat regexp.Dot
        (regexp.Str (lit "net")))))).

(** [[A-Za-z0-9._%+-]+@[A-Za-z0-9.-]+\\.[A-Za-z]{2,6}] *)
Definition re_email : regexp.re :=
  regexp.Cat
    (regexp.Plus (regexp.Class
       (alnum ++ [(46, 46); (95, 95); (37, 37); (43, 43); (45, 45)])))
    (regexp.Cat (regexp.Chr 64)
      (regexp.Cat
        (regexp.Plus (regexp.Class (alnum ++ [(46, 46); (45, 45)])))
        (regexp.Cat backslash (regexp.Cat regexp.Dot
          (regexp.Repeat 2 6 (regexp.Class [(65, 90); (97, 122)])))))).

(** [^[0-9]+$] *)
Definition re_digits : regexp.re :=
  regexp.Cat regexp.Bol
    (regexp.Cat (regexp.Plus (regexp.Class [(48, 57)])) regexp.Eol).

(** [^.{0,5}$] *)
Definition re_short : regexp.re :=
  regexp.Cat regexp.Bol
    (regexp.Cat (regexp.Repeat 0 5 regexp.Dot) regexp.Eol).

(** The alternatives of [qualityRegex], in the order of the source. *)
Definition alternatives : list regexp.re :=
  [ domains; re_url "http:"; re_url "https:"; re_at_net;
    regexp.Str (lit "<tr>"); regexp.Str (lit "<div>");
    regexp.Str (lit "<a href"); regexp.Str (lit "<p>");
    regexp.Str (lit "<img src");
    re_email; re_digits; re_short ].

Definition qualityRegex : regexp.re := regexp.Alts alternatives.

Definition IsQualityCandidateCheck (s : list ascii) : bool :=
  negb (regexp.MatchString qualityRegex s).

(** * Package models: n-grams and the length bound *)

(** [GenerateNGrams]: the two nested loops, [i] over the window sizes
    and [j] over the start of the window. *)
Definition nGram_of (words : list (list ascii)) (i j : nat) : list ascii :=
  let nGram := strings.Join (slice words j (j + i)) [SP] in
  let nGram := strings.TrimSpace nGram in
  let nGram := strings.TrimLeft nGram SP in
  let nGram := strings.ReplaceAll nGram "."%char in
  let nGram := strings.ReplaceAll nGram ","%char in
  let nGram := strings.ReplaceAll nGram ";"%char in
  nGram.

Definition GenerateNGrams (text : list ascii) (wordRangeStart wordRangeEnd : nat)
  : list (list ascii) :=
  let words := strings.Fields text in
  fold_left
    (fun nGrams i =>
       fold_left (fun nGrams j => nGrams ++ [nGram_of words i j])
                 (seq 0 (length words + 1 - i)) nGrams)
    (seq wordRangeStart (wordRangeEnd + 1 - wordRangeStart)) [].

Definition GenerateNGramSliceBytes (input : list ascii)
    (wordRangeStart wordRangeEnd : nat) : list ascii :=
  let lines := strings.Split input LF in
  let newList :=
    fold_left
      (fun newList line =>
         newList ++ GenerateNGrams line wordRangeStart wordRangeEnd)
      lines [] in
  strings.Join newList [LF].

(** [EnforceLengthRange] *)
Definition EnforceLengthRange (input : list ascii) (minLength maxLength : Z)
  : list ascii :=
  let lines := strings.Split input LF in
  let filtered :=
    fold_left
      (fun filtered line =>
         if (len line >=? minLength) && (len line <=? maxLength)
         then filtered ++ [line] else filtered)
      lines [] in
  strings.Join filtered [LF].

(** What a Go function returns, when it returns. *)
Inductive result (A : Type) : Type :=
| Ok (a : A)
| Err
| Panic.
Arguments Ok {A} a.
Arguments Err {A}.
Arguments Panic {A}.

(** [s[i:j]] with its bounds check. *)
Definition substr (s : list ascii) (i j : Z) : option (list ascii) :=
  if (0 <=? i) && (i <=? j) && (j <=? len s)
  then Some (slice s (Z.to_nat i) (Z.to_nat j))
  else None.

(** [ConvertHexToPlaintext].  The pattern is [\$HEX\[(.*?)\]]: a match
    starts at a [$HEX[] whose line has a []] further on, and its group
    is what lies before the first such []]; [.] does not match a
    newline.  [FindAllStringSubmatch(hash, -1)] gives the matches from
    left to right, each search starting where the match before ended. *)
Definition hexOpen : list ascii := lit "$HEX[".

Fixpoint hexGroup (s : list ascii) : option (list ascii * list ascii) :=
  match s with
  | [] => None
  | c :: t =>
      if Ascii.eqb c "]"%char then Some ([], t)
      else if Ascii.eqb c LF then None
      else match hexGroup t with
           | Some (group, rest) => Some (c :: group, rest)
           | None => None
           end
  end.

(** Each match as [(match[0], match[1])]. *)
Fixpoint FindAllStringSubmatch (fuel : nat) (s : list ascii)
  : list (list ascii * list ascii) :=
  match fuel, s with
  | S fuel', _ :: t =>
      if strings.HasPrefix s hexOpen then
        match hexGroup (skipn 5 s) with
        | Some (group, rest) =>
            (hexOpen ++ group ++ lit "]", group)
            :: FindAllStringSubmatch fuel' rest
        | None => FindAllStringSubmatch fuel' t
        end
      else FindAllStringSubmatch fuel' t
  | _, _ => []
  end.

(** The body of the loop over the matches; the state is
    [(result, lastIndex)]. *)
Definition convert_step (hash : list ascii)
    (st : result (list ascii * Z)) (m : list ascii * list ascii)
  : result (list ascii * Z) :=
  match st with
  | Ok (res, lastIndex) =>
      match substr hash lastIndex (len hash) with
      | None => Panic
      | Some tail =>
          let start := strings.Index tail (fst m) + lastIndex in
          let end_ := start + len (fst m) in
          match substr hash lastIndex start with
          | None => Panic
          | Some before =>
              match hex.DecodeString (snd m) with
              | None => Err
              | Some decodedPlaintext =>
                  Ok (res ++ before ++ decodedPlaintext, end_)
              end
          end
      end
  | Err => Err
  | Panic => Panic
  end.

(** After the loop: [result.WriteString(hash[lastIndex:])]. *)
Definition convert_finish (hash : list ascii) (st : result (list ascii * Z))
  : result (list ascii) :=
  match st with
  | Ok (res, lastIndex) =>
      match substr hash lastIndex (len hash) with
      | Some tail => Ok (res ++ tail)
      | None => Panic
      end
  | Err => Err
  | Panic => Panic
  end.

Definition ConvertHexToPlaintext (hash : list ascii) : result (list ascii) :=
  match FindAllStringSubmatch (length hash) hash with
  | [] => Ok hash
  | matches =>
      convert_finish hash (fold_left (convert_step hash) matches (Ok ([], 0)))
  end.

(** * Package generate: the transform stage *)

Section Generate.
Context {T : GoTables}.

(** [RemoveControlChars]: keeps the runes 32 to 126. *)
Definition RemoveControlChars (s : list ascii) : list ascii :=
  fold_left
    (fun b r => if (r >=? 32) && (r <=? 126) then b ++ [byte_of r] else b)
    (utf8.runes s) [].

(** [PrepareStringForTransformations] *)
Definition prepare_line (line : list ascii) : list ascii :=
  let clean := strings.ReplaceAll line NUL in
  let clean := strings.ReplaceAll clean LF in
  let clean := strings.ReplaceAll clean TAB in
  let clean := strings.ReplaceAll clean CR in
  let clean := strings.ReplaceAll clean FF in
  let clean := strings.ReplaceAll clean VT in
  let clean := RemoveControlChars clean in
  let clean := strings.ToLower clean in
  if strings.Contains clean SP
  then strings.ReplaceAll (cases_Title_NoLower clean) SP
  else strings.ReplaceAll clean SP.

Definition PrepareStringForTransformations (data : list ascii)
  : list (list ascii) :=
  fold_left (fun results line => results ++ [prepare_line line])
            (bufio.Scanner_Text data) [].

(** [filterLines]: each [continue] leaves the builder as it is. *)
Definition filterLines_step (result line : list ascii) : list ascii :=
  if IsAllDigitsOrSpecialChars line then result
  else if negb (ContainsOnlyASCII line) then result
  else if negb (LikelyContainsWords line) then result
  else result ++ line ++ [LF].

Definition filterLines (data : list ascii) : list ascii :=
  fold_left filterLines_step (bufio.Scanner_Text data) [].

Definition isDigit (r : Z) : bool := (r >=? 48) && (r <=? 57).

(** [removeTrailingDigits] *)
Definition removeTrailingDigits (data : list ascii) : list ascii :=
  fold_left
    (fun result line => result ++ strings.TrimRightFunc line isDigit ++ [LF])
    (bufio.Scanner_Text data) [].

(** [removeLeadingDigits] *)
Definition removeLeadingDigits (data : list ascii) : list ascii :=
  fold_left
    (fun result line => result ++ strings.TrimLeftFunc line isDigit ++ [LF])
    (bufio.Scanner_Text data) [].

(** The body of the read loop of [CreateWizardWordlist]: what is
    written to the target for one read [buffer[:n]]. *)
Definition transformChunk (chunk : list ascii) : list ascii :=
  let processedChunk := GenerateNGramSliceBytes chunk 1 5 in
  let preparedLines := PrepareStringForTransformations processedChunk in
  let processedChunk := strings.Join preparedLines [LF] in
  let processedChunk := filterLines processedChunk in
  let processedChunk := removeTrailingDigits processedChunk in
  let processedChunk := removeLeadingDigits processedChunk in
  let processedChunk := EnforceLengthRange processedChunk 4 32 in
  let nGramChunk := filterLines processedChunk in
  nGramChunk.

(** ** Files

    A file opened for writing: its content and the offset of the next
    write.  [os.OpenFile(path, O_CREATE|O_WRONLY, 0644)] keeps the
    content the file has and starts at offset 0; [os.Create] truncates. *)
Record wfile := { content : list ascii; offset : nat }.

Definition OpenFile_CREATE_WRONLY (old : list ascii) : wfile :=
  {| content := old; offset := 0 |}.

Definition Write (f : wfile) (data : list ascii) : wfile :=
  {| content := firstn (offset f) (content f) ++ data
                ++ skipn (offset f + length data) (content f);
     offset := offset f + length data |}.

(** [sourceFile.Read(buffer)] on a regular file: the next bytes, as
    many as the buffer holds, and what is left to read. *)
Definition Read (bufsize : nat) (rest : list ascii)
  : list ascii * list ascii :=
  (firstn bufsize rest, skipn bufsize rest).

Definition bufferSize : Z := 256 * 1024.

(** The read loop of [CreateWizardWordlist]; it ends at the first read
    of no byte. *)
Fixpoint readLoop (fuel : nat) (bufsize : nat) (sourceFile : list ascii)
    (targetFile : wfile) : wfile :=
  match fuel with
  | O => targetFile
  | S fuel' =>
      let '(chunk, rest) := Read bufsize sourceFile in
      match chunk with
      | [] => targetFile
      | _ => readLoop fuel' bufsize rest
               (Write targetFile (transformChunk chunk))
      end
  end.

End Generate.

(** * Package utils: the external sort *)

(** A directory: its files, by name. *)
Definition dir := list (list ascii * list ascii).

(** [sortAndWriteChunk]: the file [tempDir/chunk_N.txt]. *)
Definition writeLines (lines : list (list ascii)) : list ascii :=
  fold_left (fun w line => w ++ line ++ [LF]) lines [].

Definition chunkName (chunkCounter : Z) : list ascii :=
  lit "chunk_" ++ fmt.d chunkCounter ++ lit ".txt".

(** [os.Create(path)] followed by the writes and the close: the file
    of that name now has this content, whether it existed or not. *)
Fixpoint CreateFile (d : dir) (name data : list ascii) : dir :=
  match d with
  | [] => [(name, data)]
  | (n, c) :: rest =>
      if decide (n = name) then (n, data) :: rest
      else (n, c) :: CreateFile rest name data
  end.

Definition sortAndWriteChunk (lines : list (list ascii)) (tempDir : dir)
    (chunkCounter : Z) : dir :=
  CreateFile tempDir (chunkName chunkCounter) (writeLines (sort.Strings lines)).

Definition chunkLineCount : Z := 25000000.

(** [processFileChunksToTempFiles]: the state of the scan loop is
    [(lines, chunkCounter, tempDir)]. *)
Definition scatter_step (limit : Z)
    (st : list (list ascii) * Z * dir) (text : list ascii)
  : list (list ascii) * Z * dir :=
  let '(lines, chunkCounter, tempDir) := st in
  let lines := lines ++ [text] in
  if Z.of_nat (length lines) >=? limit
  then ([], chunkCounter + 1, sortAndWriteChunk lines tempDir chunkCounter)
  else (lines, chunkCounter, tempDir).

(** The directory after the call and whether it returned an error. *)
Definition processFileChunksToTempFiles_with (limit : Z) (file : list ascii)
  : dir * bool :=
  let '(lines, chunkCounter, tempDir) :=
    fold_left (scatter_step limit) (bufio.Scanner_Text file) ([], 0, []) in
  let tempDir :=
    if Z.of_nat (length lines) >? 0
    then sortAndWriteChunk lines tempDir chunkCounter else tempDir in
  (tempDir, bufio.Scanner_Err file).

Definition processFileChunksToTempFiles :=
  processFileChunksToTempFiles_with chunkLineCount.

(** [flushEntriesToFile]: the pairs of the table in the order of the
    iteration, sorted by [count] downwards, one line each. *)
Definition freqPair : Type := list ascii * Z.

Definition flush_line (pair : freqPair) : list ascii :=
  strings.TrimSpace (strings.TrimSuffix (fst pair) (SP :: fmt.d (snd pair))).

(** The [less] of the call of [sort.Slice]:
    [freqPairs[i].count > freqPairs[j].count]. *)
Definition less_count (a b : freqPair) : bool := snd a >? snd b.

Definition sortedPairs (entries : gmap (list ascii) Z) : list freqPair :=
  let freqPairs :=
    fold_left (fun freqPairs p => freqPairs ++ [p]) (map_to_list entries) [] in
  sort.Slice less_count freqPairs.

Definition flushEntriesToFile (entries : gmap (list ascii) Z)
    (writer : list ascii) : list ascii :=
  fold_left (fun w pair => w ++ flush_line pair ++ [LF])
            (sortedPairs entries) writer.

Definition flushThreshold : Z := 50000000.

(** [os.ReadDir]: the entries sorted by file name. *)
Definition name_le (a b : list ascii * list ascii) : Prop :=
  sort.le (fst a) (fst b).

#[global] Instance name_le_dec : RelDecision name_le.
Proof. intros a b. unfold name_le. apply _. Defined.

Definition ReadDir (d : dir) : dir := merge_sort name_le d.

(** [mergeSortedChunks]: the state of the loops is [(entries, writer)]. *)
Definition increment (entries : gmap (list ascii) Z) (line : list ascii)
  : gmap (list ascii) Z :=
  <[line := default 0 (entries !! line) + 1]> entries.

Definition merge_step (threshold : Z)
    (st : gmap (list ascii) Z * list ascii) (line : list ascii)
  : gmap (list ascii) Z * list ascii :=
  let '(entries, writer) := st in
  let entries := increment entries line in
  if Z.of_nat (size entries) >? threshold
  then (∅, flushEntriesToFile entries writer)
  else (entries, writer).

(** One chunk file after the other; [None] when a scanner ends in error. *)
Fixpoint merge_files (threshold : Z) (files : list (list ascii))
    (st : gmap (list ascii) Z * list ascii)
  : option (gmap (list ascii) Z * list ascii) :=
  match files with
  | [] => Some st
  | file :: rest =>
      let st := fold_left (merge_step threshold) (bufio.Scanner_Text file) st in
      if bufio.Scanner_Err file then None
      else merge_files threshold rest st
  end.

(** The content of the target after the call, [None] on error. *)
Definition mergeSortedChunks_with (threshold : Z) (tempDir : dir)
  : option (list ascii) :=
  let files := map snd (ReadDir tempDir) in
  match merge_files threshold files (∅, []) with
  | None => None
  | Some (entries, writer) =>
      Some (if Z.of_nat (size entries) >? 0
            then flushEntriesToFile entries writer else writer)
  end.

Definition mergeSortedChunks := mergeSortedChunks_with flushThreshold.

(** [SortByAproxFrequency]; the directory of the chunks is new at each
    call, [os.RemoveAll] having run at the end of the call before. *)
Definition SortByAproxFrequency (target : list ascii) : option (list ascii) :=
  let '(tempDir, err) := processFileChunksToTempFiles target in
  if err then None else mergeSortedChunks tempDir.

(** [CreateWizardWordlist]: the content of the target file after a run
    on a source file and a target file with the given contents, [None]
    when the run returns an error. *)
Definition CreateWizardWordlist {T : GoTables} (source target : list ascii)
  : option (list ascii) :=
  let targetFile := OpenFile_CREATE_WRONLY target in
  let targetFile :=
    readLoop (S (length source)) (Z.to_nat bufferSize) source targetFile in
  SortByAproxFrequency (content targetFile).

(** * Package utils: the first lines of a file *)

Section GetFirstNLines.

(** [strings.Map(unicode.ToLower, s)], what [strings.ToLower] returns
    for a string that is not ASCII; it comes from the Unicode tables. *)
Variable Map_unicode_ToLower : list ascii -> list ascii.

Definition ToLower_any (s : list ascii) : list ascii :=
  if forallb (fun c => byteval c <? utf8.RuneSelf) s
  then strings.ToLower s
  else Map_unicode_ToLower s.

(** The test of the scan loop on a line. *)
Definition line_selected (substrLower line : list ascii) : bool :=
  match substrLower with
  | [] => true
  | _ => strings.ContainsSubstring (ToLower_any line) substrLower
  end.

(** The scan loop: the lines kept and whether the loop ended with
    [break]. *)
Fixpoint GetFirstNLines_loop (n : Z) (substrLower : list ascii)
    (scanned lines : list (list ascii)) : list (list ascii) * bool :=
  match scanned with
  | [] => (lines, false)
  | line :: rest =>
      let lines :=
        if line_selected substrLower line then lines ++ [line] else lines in
      if Z.of_nat (length lines) >=? n then (lines, true)
      else GetFirstNLines_loop n substrLower rest lines
  end.

(** [runtime.makeslice] on a 64-bit platform: [make] of a slice of
    capacity [cap] whose elements take [size] bytes panics when [cap]
    is negative and when [size * cap] overflows or exceeds [maxAlloc],
    2^48 bytes.  Memory is taken to suffice: an allocation that
    [makeslice] accepts succeeds. *)
Definition maxAlloc : Z := 2 ^ 48.

Definition makeslice_panics (size cap : Z) : bool :=
  (cap <? 0) || (maxAlloc <? size * cap).

(** The size of a string header, the element of a [[]string]. *)
Definition sizeof_string : Z := 16.

(** [GetFirstNLines(path, n, substring...)] on a file that exists;
    [make([]string, 0, n)] comes before the first line is scanned. *)
Definition GetFirstNLines (file : list ascii) (n : Z)
    (substring : list (list ascii)) : result (list (list ascii)) :=
  if makeslice_panics sizeof_string n then Panic
  else
    let substrLower :=
      match substring with s :: _ => ToLower_any s | [] => [] end in
    let '(lines, broke) :=
      GetFirstNLines_loop n substrLower (bufio.Scanner_Text file) [] in
    if negb broke && bufio.Scanner_Err file then Err else Ok lines.

End GetFirstNLines.

(** * Package utils: the log *)

(** [models.LogEntry] *)
Record LogEntry := {
  Time : list ascii;
  Event : list ascii;
  Message : list ascii
}.

(** [fmt.Sprintf("%s - %s: %s\n", entry.Time, entry.Event, entry.Message)] *)
Definition logLine (entry : LogEntry) : list ascii :=
  Time entry ++ lit " - " ++ Event entry ++ lit ": " ++ Message entry ++ [LF].

(** The body of the scan loop of [ReadLogEntries]. *)
Definition ReadLogEntries_step (entries : list LogEntry) (line : list ascii)
  : list LogEntry :=
  match strings.SplitN2 line (lit " - ") with
  | [parts0; parts1] =>
      match strings.SplitN2 parts1 (lit ": ") with
      | [timeAndEvent0; timeAndEvent1] =>
          entries ++ [{| Time := parts0; Event := timeAndEvent0;
                         Message := timeAndEvent1 |}]
      | _ => entries
      end
  | _ => entries
  end.

(** [ReadLogEntries] on the content of the log file, [None] for the
    error of the scanner. *)
Definition ReadLogEntries (logFile : list ascii) : option (list LogEntry) :=
  let entries := fold_left ReadLogEntries_step (bufio.Scanner_Text logFile) [] in
  if bufio.Scanner_Err logFile then None else Some entries.

(** [truncateLogFile]: the content of the log file after the call. *)
Definition truncateLogFile (logFile : list ascii) : option (list ascii) :=
  match ReadLogEntries logFile with
  | None => None
  | Some entries =>
      let entries := if (0 <? Z.of_nat (length entries)) then skipn 1 entries
                     else entries in
      Some (fold_left (fun w entry => w ++ logLine entry) entries [])
  end.

(** [WriteLogEntry]: the content of the log file after the call, [None]
    for an error; the file is opened with [O_APPEND]. *)
Definition WriteLogEntry_with (maxSize : Z) (entry : LogEntry)
    (logFile : list ascii) : option (list ascii) :=
  let truncated :=
    if len logFile >? maxSize then truncateLogFile logFile else Some logFile in
  match truncated with
  | None => None
  | Some logFile => Some (logFile ++ logLine entry)
  end.

Definition WriteLogEntry := WriteLogEntry_with (5 * 1024 * 1024).

(** * The rules of the specification, in its words *)

Section SpecRules.
Context {T : GoTables}.

(** A vowel: a/e/i/o/u, in either case. *)
Definition isVowel (r : Z) : bool :=
  existsb (fun v => v =? r) [97; 101; 105; 111; 117; 65; 69; 73; 79; 85].

(** A window qualifies if it contains at least one vowel and at most
    one character that is neither a vowel nor an alphabetic letter. *)
Definition window_qualifies (w : list ascii) : bool :=
  let chars := utf8.runes w in
  existsb isVowel chars
  && (Z.of_nat (length (List.filter
        (fun c => negb (isVowel c) && negb (unicode.IsLetter c)) chars)) <=? 1).

(** The composite acceptance rule:
    [!has_no_letters(s) && is_ascii_only(s) && looks_like_a_word(s)
     && passes_denylist(s)]. *)
Definition acceptable (s : list ascii) : bool :=
  negb (IsAllDigitsOrSpecialChars s) && ContainsOnlyASCII s
  && LikelyContainsWords s && IsQualityCandidateCheck s.

(** The rule without the denylist. *)
Definition wordlike (s : list ascii) : bool :=
  negb (IsAllDigitsOrSpecialChars s) && ContainsOnlyASCII s
  && LikelyContainsWords s.

(** The test of [api.UploadHandler] and [appendFileToWordlist] that
    skips a line ([continue]). *)
Definition upload_skips (line : list ascii) : bool :=
  IsAllDigitsOrSpecialChars line
  || Bool.eqb (ContainsOnlyASCII line) false
  || Bool.eqb (LikelyContainsWords line) false
  || Bool.eqb (IsQualityCandidateCheck line) false.

End SpecRules.

(** * Package api: the lines of an upload *)

Section Upload.
Context {T : GoTables}.

(** The body of the loop over the lines of one read, in
    [api.UploadHandler] and in [appendFileToWordlist]; the state is
    [transformedLines]. *)
Definition transform_line (transformedLines : result (list (list ascii)))
    (line : list ascii) : result (list (list ascii)) :=
  match transformedLines with
  | Ok transformedLines =>
      match ConvertHexToPlaintext line with
      | Ok convertedLine =>
          if upload_skips convertedLine then Ok transformedLines
          else Ok (transformedLines
                   ++ [strings.TrimSpace (strings.ToLower convertedLine)])
      | Err =>
          if upload_skips line then Ok transformedLines
          else Ok (transformedLines ++ [strings.TrimSpace (strings.ToLower line)])
      | Panic => Panic
      end
  | Err => Err
  | Panic => Panic
  end.

(** What is written to the target for one read [buffer[:n]]. *)
Definition updatedContent (content : list ascii) : result (list ascii) :=
  let lines := strings.Split content LF in
  match fold_left transform_line lines (Ok []) with
  | Ok transformedLines => Ok (strings.Join transformedLines [LF])
  | Err => Err
  | Panic => Panic
  end.

End Upload.

(** ** The upload and the import of a file *)

Section UploadLoop.
Context {T : GoTables}.

(** [buffer := make([]byte, 4*1024*1024)] *)
Definition uploadBufferSize : Z := 4 * 1024 * 1024.

(** The read loop of [UploadHandler] and of [appendFileToWordlist]:
    the content of the target, opened with [O_APPEND], after the write
    of each read; it ends at the first read of no byte. *)
Fixpoint upload_loop (fuel : nat) (bufsize : nat) (file targetFile : list ascii)
  : result (list ascii) :=
  match fuel with
  | O => Ok targetFile
  | S fuel' =>
      let '(chunk, rest) := Read bufsize file in
      match chunk with
      | [] => Ok targetFile
      | _ =>
          match updatedContent chunk with
          | Ok updated => upload_loop fuel' bufsize rest (targetFile ++ updated)
          | Err => Err
          | Panic => Panic
          end
      end
  end.

(** [UploadHandler]: the content of the source wordlist after the
    upload of [file]; a newline is written first when the wordlist is
    not empty. *)
Definition UploadHandler (sourceWordlist file : list ascii)
  : result (list ascii) :=
  let targetFile :=
    if len sourceWordlist >? 0 then sourceWordlist ++ [LF] else sourceWordlist in
  upload_loop (S (length file)) (Z.to_nat uploadBufferSize) file targetFile.

(** [appendFileToWordlist(filePath, targetFilePath)]: the content of
    the target after the call. *)
Definition appendFileToWordlist (file targetFile : list ascii)
  : result (list ascii) :=
  upload_loop (S (length file)) (Z.to_nat uploadBufferSize) file targetFile.

(** The lines that a read without [$] stores. *)
Definition stored_lines (content : list ascii) : list (list ascii) :=
  map (fun line => strings.TrimSpace (strings.ToLower line))
      (List.filter acceptable (strings.Split content LF)).

End UploadLoop.

(** The tables of an ASCII-only world, with a title caser that puts the
    first byte of each space-separated word in upper case. *)
Definition upper_byte (c : ascii) : ascii :=
  if utf8.in_range 97 122 (byteval c) then byte_of (byteval c - 32) else c.

Fixpoint title_go (start : bool) (s : list ascii) : list ascii :=
  match s with
  | [] => []
  | c :: t =>
      if Ascii.eqb c SP then c :: title_go true t
      else (if start then upper_byte c else c) :: title_go false t
  end.

Definition asciiTables : GoTables :=
  {| unicode_Letter_table := fun _ => false;
     cases_Title_NoLower := title_go true |}.

(** A line of a file: the text and its newline. *)
Definition ln (s : string) : list ascii := lit s ++ [LF].

(** The filter step as the specification states it (C1): it keeps
    exactly the lines that pass the composite rule of four predicates. *)
Definition filter_applies_composite_rule (T : GoTables) (data : list ascii)
  : Prop :=
  filterLines data
  = writeLines (List.filter acceptable (bufio.Scanner_Text data)).

Definition LF_free (l : list ascii) : Prop := ~ In LF l.

Definition in_length_range (lo hi : Z) (l : list ascii) : bool :=
  (lo <=? len l) && (len l <=? hi).

(** The lines of a chunk file. *)
Definition chunk_lines (f : list ascii * list ascii) : list (list ascii) :=
  bufio.rawLines (snd f).

(** A key without white space: ASCII bytes, none of them a space. *)
Definition no_space (key : list ascii) : Prop :=
  Forall (fun c => byteval c < 128 /\ strings.asciiSpace (byteval c) = false) key.

(** The order of a flush: counts going down. *)
Definition count_desc (p q : freqPair) : Prop := snd q <= snd p.

(** A flush as the specification states it (C3): it writes the keys of
    the table, each once and unchanged, by descending count. *)
Definition flush_writes_keys_unchanged (entries : gmap (list ascii) Z) : Prop :=
  exists pairs : list freqPair,
    pairs ≡ₚ map_to_list entries /\
    StronglySorted count_desc pairs /\
    flushEntriesToFile entries [] = writeLines (map fst pairs).

(** The lines that the aggregate stage consumes, in the order in which
    it reads the chunk files, and the lines of its output. *)
Definition lines_consumed (tempDir : dir) : list (list ascii) :=
  concat (map bufio.Scanner_Text (map snd (ReadDir tempDir))).

Definition lines_written (out : list ascii) : list (list ascii) :=
  bufio.rawLines out.


(** The invariant of the loops of [mergeSortedChunks] after the lines
    [seen]: the writer holds whole lines, the keys of the table are
    lines seen, and lines written and keys held are no more than the
    lines seen, as many when no line was seen twice. *)
Definition merge_inv (seen : list (list ascii))
    (st : gmap (list ascii) Z * list ascii) : Prop :=
  exists W : list (list ascii),
    snd st = writeLines W /\
    Forall LF_free W /\
    Forall LF_free seen /\
    (forall k, is_Some (fst st !! k) -> In k seen) /\
    (length W + size (fst st) <= length seen)%nat /\
    (List.NoDup seen -> (length W + size (fst st))%nat = length seen).

(** The successive reads of a file through a buffer of [bufsize]
    bytes: the file cut into blocks of that size, the last one
    shorter when the size does not divide the length. *)
Fixpoint reads_fuel (fuel : nat) (bufsize : nat) (file : list ascii)
  : list (list ascii) :=
  match fuel with
  | O => []
  | S fuel' =>
      match firstn bufsize file with
      | [] => []
      | block => block :: reads_fuel fuel' bufsize (skipn bufsize file)
      end
  end.

Definition reads (bufsize : nat) (file : list ascii) : list (list ascii) :=
  reads_fuel (S (length file)) bufsize file.

(** A source file in which the line "hunterpassword" starts six bytes
    before the end of the first read. *)
Definition straddling_source : list ascii :=
  repeat LF (Z.to_nat (bufferSize - 6)) ++ lit "hunter" ++ ln "password".

(** Printable ASCII (32 to 126) and graphic ASCII (33 to 126). *)
Definition printable (s : list ascii) : Prop :=
  Forall (fun c => 32 <= byteval c <= 126) s.

Definition graphic (s : list ascii) : Prop :=
  Forall (fun c => 33 <= byteval c <= 126) s.

(** What the properties of whole runs ask of the title caser: on
    printable ASCII it gives printable ASCII. *)
Definition Title_keeps_printable (T : GoTables) : Prop :=
  forall s, printable s -> printable (cases_Title_NoLower s).

(** A byte of a file of graphic lines. *)
Definition line_byte (c : ascii) : Prop := 33 <= byteval c <= 126 \/ c = LF.

(** The chunk as [CreateWizardWordlist] hands it to [EnforceLengthRange]. *)
Definition trimmedChunk {T : GoTables} (chunk : list ascii) : list ascii :=
  let processedChunk := GenerateNGramSliceBytes chunk 1 5 in
  let preparedLines := PrepareStringForTransformations processedChunk in
  let processedChunk := strings.Join preparedLines [LF] in
  let processedChunk := filterLines processedChunk in
  let processedChunk := removeTrailingDigits processedChunk in
  removeLeadingDigits processedChunk.

(** What it means for the runes [seg], found at offset [i] of a text
    of [n] runes, to match a pattern. *)
Inductive re_match (n : nat) : regexp.re -> nat -> list Z -> Prop :=
| M_Eps i : re_match n regexp.Eps i []
| M_Chr c i : re_match n (regexp.Chr c) i [c]
| M_Dot c i : c <> 10 -> re_match n regexp.Dot i [c]
| M_Any c i : re_match n regexp.AnyRune i [c]
| M_Class rs c i :
    regexp.in_class rs c = true -> re_match n (regexp.Class rs) i [c]
| M_Cat a b i s1 s2 :
    re_match n a i s1 -> re_match n b (i + length s1) s2 ->
    re_match n (regexp.Cat a b) i (s1 ++ s2)
| M_AltL a b i s : re_match n a i s -> re_match n (regexp.Alt a b) i s
| M_AltR a b i s : re_match n b i s -> re_match n (regexp.Alt a b) i s
| M_Star0 a i : re_match n (regexp.Star a) i []
| M_StarS a i s1 s2 :
    s1 <> [] -> re_match n a i s1 ->
    re_match n (regexp.Star a) (i + length s1) s2 ->
    re_match n (regexp.Star a) i (s1 ++ s2)
| M_Bol : re_match n regexp.Bol 0 []
| M_Eol : re_match n regexp.Eol n [].

(** An ASCII string: its runes are its bytes. *)
Definition is_ascii (s : list ascii) : Prop :=
  Forall (fun c => byteval c < 128) s.

(** The number of times a line occurs in a window, and the table that
    counting the lines of a window from an empty table gives. *)
Definition occurrences (key : list ascii) (window : list (list ascii)) : Z :=
  Z.of_nat (length (List.filter (fun l => bool_decide (l = key)) window)).

Definition table_of (window : list (list ascii)) : gmap (list ascii) Z :=
  fold_left increment window ∅.

(** ** Notions for the rest of the code *)

(** An ASCII digit, and a line cut of the digits at its start or at
    its end. *)
Definition digit_byte (c : ascii) : bool := isDigit (byteval c).

Fixpoint cut_leading_digits (s : list ascii) : list ascii :=
  match s with
  | c :: t => if digit_byte c then cut_leading_digits t else s
  | [] => []
  end.

Definition cut_trailing_digits (s : list ascii) : list ascii :=
  rev (cut_leading_digits (rev s)).

Definition starts_with_digit (l : list ascii) : bool :=
  match l with c :: _ => digit_byte c | [] => false end.

Definition ends_with_digit (l : list ascii) : bool := starts_with_digit (rev l).

(** What a flush of the table of a window writes. *)
Definition flush_of (window : list (list ascii)) : list ascii :=
  flushEntriesToFile (table_of window) [].

(** A window that fills the table beyond the threshold. *)
Definition overflows (threshold : Z) (window : list (list ascii)) : Prop :=
  Z.of_nat (size (table_of window)) > threshold.

(** The lines that the read loop writes for a source: those of each
    block, one block after the other. *)
Definition transformed_lines {T : GoTables} (source : list ascii)
  : list (list ascii) :=
  concat (map (fun block => bufio.rawLines (transformChunk block))
              (reads (Z.to_nat bufferSize) source)).

(** The three replacements of [GenerateNGrams]. *)
Definition without_punctuation (s : list ascii) : list ascii :=
  strings.ReplaceAll (strings.ReplaceAll (strings.ReplaceAll s "."%char) ","%char)
                     ";"%char.

(** A word of an ASCII text: not empty, no white space in it. *)
Definition ascii_word (w : list ascii) : Prop :=
  w <> [] /\ no_space w.

(** A string that is empty or begins and ends with an ASCII byte that
    is not white space. *)
Definition solid_ends (s : list ascii) : Prop :=
  s = [] \/
  exists c t d u, s = c :: t /\ rev s = d :: u /\
    byteval c < 128 /\ strings.asciiSpace (byteval c) = false /\
    byteval d < 128 /\ strings.asciiSpace (byteval d) = false.

(** A match of the pattern of [ConvertHexToPlaintext] starts at [s]. *)
Definition match_at (s : list ascii) : bool :=
  strings.HasPrefix s hexOpen
  && match hexGroup (skipn 5 s) with Some _ => true | None => false end.

(** The text with each group replaced by the bytes that it spells,
    [None] when a group is not a hexadecimal text. *)
Fixpoint hex_replaced (fuel : nat) (s : list ascii) : option (list ascii) :=
  match fuel, s with
  | S fuel', c :: t =>
      let skip := option_map (cons c) (hex_replaced fuel' t) in
      if strings.HasPrefix s hexOpen then
        match hexGroup (skipn 5 s) with
        | Some (group, rest) =>
            match hex.DecodeString group with
            | Some bytes => option_map (app bytes) (hex_replaced fuel' rest)
            | None => None
            end
        | None => skip
        end
      else skip
  | _, _ => Some []
  end.

(** A line as an upload stores it: ASCII, no upper-case letter, no
    white space at either end. *)
Definition no_upper (s : list ascii) : Prop :=
  Forall (fun c => ~ (65 <= byteval c <= 90)) s.

Definition stored_line (t : list ascii) : Prop :=
  is_ascii t /\ no_upper t /\ solid_ends t.

(** The line of an entry of the log, without its newline, and the
    text of a log. *)
Definition entryText (e : LogEntry) : list ascii :=
  Time e ++ lit " - " ++ Event e ++ lit ": " ++ Message e.

Definition logText (entries : list LogEntry) : list ascii :=
  concat (map logLine entries).

(** An entry that a line of the log holds without ambiguity: no space
    in the time, no colon in the event, no newline, no carriage return
    in the message, a line that fits the scanner. *)
Definition plain_entry (e : LogEntry) : Prop :=
  ~ In SP (Time e) /\ ~ In ":"%char (Event e) /\
  LF_free (Time e) /\ LF_free (Event e) /\ LF_free (Message e) /\
  ~ In CR (Message e) /\
  len (logLine e) <= bufio.MaxScanTokenSize.

(** An entry that is read back from its line. *)
Definition stable_entry (e : LogEntry) : Prop :=
  LF_free (entryText e) /\ bufio.fits (entryText e) = true /\
  bufio.dropCR (entryText e) = entryText e /\
  ReadLogEntries_step [] (entryText e) = [e].

Definition sample_entry (time event message : string) : LogEntry :=
  {| Time := lit time; Event := lit event; Message := lit message |}.

(** * Properties *)

(** ** Lists built by appending in a loop *)

Lemma fold_left_app_concat {A B} (f : A -> list B) (l : list A) (init : list B) :
  fold_left (fun acc x => acc ++ f x) l init = init ++ concat (map f l).
Proof.
  revert init. induction l as [|x l IH]; intros init; simpl.
  - now rewrite app_nil_r.
  - rewrite IH. now rewrite <- app_assoc.
Qed.

Lemma fold_left_pointwise {A B} (f g : A -> B -> A) (l : list B) (a : A) :
  (forall a b, f a b = g a b) -> fold_left f l a = fold_left g l a.
Proof.
  intros E. revert a. induction l as [|x l IH]; intros a; simpl; [reflexivity|].
  now rewrite E, IH.
Qed.

Lemma fold_left_snoc {A} (l : list A) (init : list A) :
  fold_left (fun acc x => acc ++ [x]) l init = init ++ l.
Proof.
  rewrite (fold_left_app_concat (fun x => [x])). f_equal.
  induction l as [|x l IH]; simpl; congruence.
Qed.

Lemma writeLines_concat (L : list (list ascii)) :
  writeLines L = concat (map (fun l => l ++ [LF]) L).
Proof. unfold writeLines. now rewrite (fold_left_app_concat (fun l => l ++ [LF])). Qed.

Lemma writeLines_cons l L : writeLines (l :: L) = l ++ LF :: writeLines L.
Proof. rewrite !writeLines_concat. simpl. now rewrite <- app_assoc. Qed.

Lemma writeLines_app L1 L2 : writeLines (L1 ++ L2) = writeLines L1 ++ writeLines L2.
Proof. rewrite !writeLines_concat. now rewrite map_app, concat_app. Qed.

(** ** The word-likeness heuristic *)

Section WordLike.
Context {T : GoTables}.

Lemma ContainsRune_vowels r : strings.ContainsRune vowels r = isVowel r.
Proof. reflexivity. Qed.

Lemma isWordLike_loop rs n b :
  fold_left isWordLike_step rs (n, b)
  = (n + Z.of_nat (length (List.filter
           (fun c => negb (isVowel c) && negb (unicode.IsLetter c)) rs)),
     b || existsb isVowel rs).
Proof.
  revert n b. induction rs as [|r rs IH]; intros n b.
  - simpl. now rewrite Z.add_0_r, orb_false_r.
  - cbn [fold_left]. unfold isWordLike_step at 2.
    rewrite ContainsRune_vowels. cbn [List.filter existsb].
    destruct (isVowel r); cbn [negb andb].
    + rewrite IH. now rewrite !orb_true_r.
    + destruct (unicode.IsLetter r); cbn [negb]; rewrite IH.
      * now rewrite orb_false_l.
      * cbn [length]. rewrite orb_false_l. f_equal. lia.
Qed.

Lemma isWordLike_qualifies w : isWordLike w = window_qualifies w.
Proof.
  unfold isWordLike, window_qualifies. rewrite isWordLike_loop.
  now rewrite Z.add_0_l, orb_false_l.
Qed.

Lemma LikelyContainsWords_count s idx n :
  LikelyContainsWords_loop_from s idx n
  = n + Z.of_nat (length (List.filter
          (fun i => isWordLike (slice s i (i + 5))) idx)).
Proof.
  revert n. induction idx as [|i idx IH]; intros n; simpl.
  - lia.
  - destruct (isWordLike (slice s i (i + 5))); rewrite IH; simpl length; lia.
Qed.

End WordLike.

Section WordLikeTheorem.
Context {T : GoTables}.

Lemma LikelyContainsWords_eq s :
  LikelyContainsWords s
  = (5 <=? len s)
    && existsb (fun i => window_qualifies (slice s i (i + 5)))
               (seq 0 (length s - 4)).
Proof.
  unfold LikelyContainsWords, LikelyContainsWords_loop.
  destruct (len s <? 5) eqn:Hlen.
  - apply Z.ltb_lt in Hlen.
    destruct (5 <=? len s) eqn:H5; [apply Z.leb_le in H5; lia | reflexivity].
  - apply Z.ltb_ge in Hlen. apply Z.leb_le in Hlen as ->. cbn [andb].
    rewrite LikelyContainsWords_count, Z.add_0_l.
    induction (seq 0 (length s - 4)) as [|i idx IH]; [reflexivity|].
    cbn [List.filter existsb]. rewrite <- isWordLike_qualifies.
    destruct (isWordLike (slice s i (i + 5))); cbn [orb length].
    + apply Z.gtb_lt. lia.
    + exact IH.
Qed.

(** C5: [LikelyContainsWords] is false below five bytes; from five
    bytes on it is true exactly when some window of five qualifies,
    that is, holds a vowel and at most one character that is neither a
    vowel nor a letter.  It is true on "ab1cd" and false on "12345"
    and on "abcd". *)
Theorem C5_LikelyContainsWords_windows :
  (forall s, LikelyContainsWords s
     = (5 <=? len s)
       && existsb (fun i => window_qualifies (slice s i (i + 5)))
                  (seq 0 (length s - 4)))
  /\ (forall s, LikelyContainsWords s = true <->
        5 <= len s /\
        exists i : nat, (i + 5 <= length s)%nat /\
                        window_qualifies (slice s i (i + 5)) = true)
  /\ LikelyContainsWords (lit "ab1cd") = true
  /\ LikelyContainsWords (lit "12345") = false
  /\ LikelyContainsWords (lit "abcd") = false.
Proof.
  split; [exact LikelyContainsWords_eq|]. split; [|now vm_compute].
  intros s. rewrite LikelyContainsWords_eq, andb_true_iff, Z.leb_le.
  unfold len. rewrite existsb_exists. split.
  - intros [H5 [i [Hi Hq]]]. split; [exact H5|]. exists i. split; [|exact Hq].
    apply in_seq in Hi. lia.
  - intros [H5 [i [Hi Hq]]]. split; [exact H5|]. exists i. split; [|exact Hq].
    apply in_seq. lia.
Qed.

End WordLikeTheorem.

(** ** Lines and newlines *)

Lemma Split_nonempty s sep : strings.Split s sep <> [].
Proof.
  destruct s as [|c t]; simpl; [discriminate|].
  destruct (Ascii.eqb c sep); [discriminate|].
  destruct (strings.Split t sep); discriminate.
Qed.

Lemma Split_line l rest :
  LF_free l -> strings.Split (l ++ LF :: rest) LF = l :: strings.Split rest LF.
Proof.
  unfold LF_free. induction l as [|c l IH]; intros Hl; simpl.
  - reflexivity.
  - destruct (Ascii.eqb c LF) eqn:Hc.
    + apply Ascii.eqb_eq in Hc. exfalso. apply Hl. now left.
    + rewrite IH; [reflexivity|]. intros Hin. apply Hl. now right.
Qed.

Lemma Split_LF_free_line l :
  LF_free l -> strings.Split l LF = [l].
Proof.
  unfold LF_free. induction l as [|c l IH]; intros Hl; simpl.
  - reflexivity.
  - destruct (Ascii.eqb c LF) eqn:Hc.
    + apply Ascii.eqb_eq in Hc. exfalso. apply Hl. now left.
    + rewrite IH; [reflexivity|]. intros Hin. apply Hl. now right.
Qed.

Lemma Split_pieces_LF_free s : Forall LF_free (strings.Split s LF).
Proof.
  induction s as [|c t IH]; simpl.
  - constructor; [|constructor]. intros [].
  - destruct (Ascii.eqb c LF) eqn:Hc.
    + constructor; [intros []|exact IH].
    + destruct (strings.Split t LF) as [|h r].
      * constructor; [|constructor]. intros [Hin|[]]. subst c.
        now rewrite Ascii.eqb_refl in Hc.
      * inversion IH as [|? ? Hh Hr]; subst. constructor; [|exact Hr].
        intros [Hin|Hin]; [|now apply Hh]. subst c.
        now rewrite Ascii.eqb_refl in Hc.
Qed.

Lemma Split_writeLines L :
  Forall LF_free L -> strings.Split (writeLines L) LF = L ++ [[]].
Proof.
  induction 1 as [|l L Hl HL IH].
  - reflexivity.
  - rewrite writeLines_cons, Split_line by exact Hl. now rewrite IH.
Qed.

Lemma Split_Join L :
  L <> [] -> Forall LF_free L -> strings.Split (strings.Join L [LF]) LF = L.
Proof.
  intros Hne HL. induction HL as [|l L Hl HL IH]; [congruence|].
  destruct L as [|l' L'].
  - simpl. now apply Split_LF_free_line.
  - change (strings.Join (l :: l' :: L') [LF])
      with (l ++ LF :: strings.Join (l' :: L') [LF]).
    rewrite Split_line by exact Hl. rewrite IH; [reflexivity|discriminate].
Qed.

Lemma rawLines_writeLines L :
  Forall LF_free L -> bufio.rawLines (writeLines L) = L.
Proof.
  intros HL. unfold bufio.rawLines. rewrite Split_writeLines by exact HL.
  rewrite rev_app_distr. simpl. apply rev_involutive.
Qed.

Lemma rawLines_LF_free data : Forall LF_free (bufio.rawLines data).
Proof.
  unfold bufio.rawLines. pose proof (Split_pieces_LF_free data) as HS.
  destruct (rev (strings.Split data LF)) as [|[|c l] r] eqn:Hrev; try exact HS.
  apply (f_equal (@rev _)) in Hrev. rewrite rev_involutive in Hrev.
  rewrite Hrev in HS. simpl in HS. apply Forall_app in HS. tauto.
Qed.

Lemma dropCR_cases l : bufio.dropCR l = l \/ l = bufio.dropCR l ++ [CR].
Proof.
  unfold bufio.dropCR. destruct (rev l) as [|c r] eqn:Hrev; [now left|].
  destruct (Ascii.eqb c CR) eqn:Hc; [|now left]. right.
  apply Ascii.eqb_eq in Hc. subst c.
  apply (f_equal (@rev _)) in Hrev. rewrite rev_involutive in Hrev.
  now rewrite Hrev.
Qed.

Lemma dropCR_LF_free l : LF_free l -> LF_free (bufio.dropCR l).
Proof.
  intros Hl Hin. destruct (dropCR_cases l) as [E|E].
  - apply Hl. now rewrite <- E.
  - apply Hl. rewrite E. apply in_or_app. now left.
Qed.

Lemma dropCR_len l : len (bufio.dropCR l) <= len l.
Proof.
  unfold len. destruct (dropCR_cases l) as [E|E].
  - rewrite E. lia.
  - rewrite E at 2. rewrite length_app. simpl. lia.
Qed.

Lemma scan_LF_free raw : Forall LF_free raw -> Forall LF_free (bufio.scan raw).
Proof.
  induction 1 as [|l raw Hl Hraw IH]; simpl; [constructor|].
  destruct (bufio.fits l); constructor; [now apply dropCR_LF_free|exact IH].
Qed.

Lemma Scanner_Text_LF_free data : Forall LF_free (bufio.Scanner_Text data).
Proof. apply scan_LF_free, rawLines_LF_free. Qed.

Lemma scan_all_fit raw :
  forallb bufio.fits raw = true -> bufio.scan raw = map bufio.dropCR raw.
Proof.
  induction raw as [|l raw IH]; simpl; [reflexivity|].
  intros HF. apply andb_true_iff in HF as [Hl Hraw].
  rewrite Hl. now rewrite IH.
Qed.

Lemma filter_sublist {A} (f : A -> bool) (l : list A) :
  sublist (List.filter f l) l.
Proof.
  induction l as [|x l IH]; simpl; [constructor|].
  destruct (f x); [now apply sublist_skip|now apply sublist_cons].
Qed.

(** ** The filter step *)

Section FilterLines.
Context {T : GoTables}.

Lemma filterLines_step_wordlike result line :
  filterLines_step result line
  = result ++ (if wordlike line then line ++ [LF] else []).
Proof.
  unfold filterLines_step, wordlike.
  destruct (IsAllDigitsOrSpecialChars line); cbn [negb andb];
    [now rewrite app_nil_r|].
  destruct (ContainsOnlyASCII line); cbn [negb andb];
    [|now rewrite app_nil_r].
  destruct (LikelyContainsWords line); cbn [negb]; [reflexivity|].
  now rewrite app_nil_r.
Qed.

Lemma filterLines_filter data :
  filterLines data
  = writeLines (List.filter wordlike (bufio.Scanner_Text data)).
Proof.
  unfold filterLines. rewrite writeLines_concat.
  transitivity (fold_left
    (fun acc line => acc ++ (if wordlike line then line ++ [LF] else []))
    (bufio.Scanner_Text data) []).
  - apply fold_left_pointwise. intros. apply filterLines_step_wordlike.
  - rewrite fold_left_app_concat. simpl.
    induction (bufio.Scanner_Text data) as [|l L IH]; [reflexivity|].
    simpl. destruct (wordlike l); simpl; now rewrite IH.
Qed.

Lemma upload_skips_acceptable line :
  negb (upload_skips line) = acceptable line.
Proof.
  unfold upload_skips, acceptable.
  destruct (IsAllDigitsOrSpecialChars line), (ContainsOnlyASCII line),
    (LikelyContainsWords line), (IsQualityCandidateCheck line); reflexivity.
Qed.

(** C1, amended: the filter step of the generation pipeline keeps a
    line exactly when it has a letter, holds ASCII only and passes the
    word-likeness heuristic; the denylist is not consulted.  The rule
    of four predicates is the one of the upload and import handlers. *)
Theorem C1_filterLines_keeps_wordlike :
  (forall data,
     filterLines data
     = writeLines (List.filter wordlike (bufio.Scanner_Text data)))
  /\ (forall data line,
        In line (bufio.rawLines (filterLines data)) <->
        In line (bufio.Scanner_Text data) /\
        IsAllDigitsOrSpecialChars line = false /\
        ContainsOnlyASCII line = true /\
        LikelyContainsWords line = true)
  /\ (forall line, negb (upload_skips line) = acceptable line).
Proof.
  split; [exact filterLines_filter|]. split; [|exact upload_skips_acceptable].
  intros data line. rewrite filterLines_filter, rawLines_writeLines.
  - rewrite filter_In. unfold wordlike.
    rewrite !andb_true_iff, negb_true_iff. tauto.
  - eapply incl_Forall; [|apply (Scanner_Text_LF_free data)].
    intros x Hx. apply filter_In in Hx. apply Hx.
Qed.

End FilterLines.

(** C1 as stated fails: the line "gmailuser" is kept by the filter
    step although the denylist rejects it. *)
Lemma C1_denylist_not_consulted :
  ~ filter_applies_composite_rule asciiTables (ln "gmailuser").
Proof. unfold filter_applies_composite_rule. vm_compute. discriminate. Qed.

(** ** The length bound *)

Lemma EnforceLengthRange_filter input lo hi :
  EnforceLengthRange input lo hi
  = strings.Join (List.filter (in_length_range lo hi) (strings.Split input LF))
                 [LF].
Proof.
  unfold EnforceLengthRange. f_equal.
  transitivity (fold_left
    (fun acc line => acc ++ (if in_length_range lo hi line then [line] else []))
    (strings.Split input LF) []).
  - apply fold_left_pointwise. intros acc line. unfold in_length_range.
    rewrite Z.geb_leb.
    destruct ((lo <=? len line) && (len line <=? hi));
      [reflexivity|now rewrite app_nil_r].
  - rewrite fold_left_app_concat. simpl.
    induction (strings.Split input LF) as [|l L IH]; [reflexivity|].
    simpl. destruct (in_length_range lo hi l); simpl; now rewrite IH.
Qed.

Lemma in_length_range_spec lo hi l :
  in_length_range lo hi l = true <-> lo <= len l <= hi.
Proof. unfold in_length_range. rewrite andb_true_iff, !Z.leb_le. tauto. Qed.

Lemma rawLines_last_nonempty K :
  K <> [] -> Forall LF_free K -> Forall (fun l => l <> []) K ->
  bufio.rawLines (strings.Join K [LF]) = K.
Proof.
  intros Hne HLF Hnn. unfold bufio.rawLines. rewrite Split_Join by assumption.
  destruct (rev K) as [|[|c l] r] eqn:Hrev; try reflexivity.
  exfalso. apply (f_equal (@rev _)) in Hrev. rewrite rev_involutive in Hrev.
  rewrite Hrev in Hnn. simpl in Hnn. apply Forall_app in Hnn as [_ Hnn].
  inversion Hnn; subst. congruence.
Qed.

Lemma Scanner_Text_EnforceLengthRange input :
  bufio.Scanner_Text (EnforceLengthRange input 4 32)
  = map bufio.dropCR
        (List.filter (in_length_range 4 32) (strings.Split input LF)).
Proof.
  rewrite EnforceLengthRange_filter. unfold bufio.Scanner_Text.
  set (K := List.filter (in_length_range 4 32) (strings.Split input LF)).
  assert (HK : Forall (fun l => 4 <= len l <= 32) K).
  { apply List.Forall_forall. intros l Hl. apply filter_In in Hl as [_ Hl].
    now apply in_length_range_spec. }
  assert (HLF : Forall LF_free K).
  { eapply incl_Forall; [|apply (Split_pieces_LF_free input)].
    intros l Hl. apply filter_In in Hl. apply Hl. }
  destruct K as [|k K'] eqn:EK; [reflexivity|].
  rewrite rawLines_last_nonempty; [|discriminate|exact HLF|].
  - apply scan_all_fit. apply forallb_forall. intros l Hl.
    rewrite List.Forall_forall in HK. specialize (HK l Hl).
    unfold bufio.fits, bufio.MaxScanTokenSize. apply Z.ltb_lt. lia.
  - eapply List.Forall_impl; [|exact HK]. intros l Hl ->. unfold len in Hl.
    simpl in Hl. lia.
Qed.

Section LengthBound.
Context {T : GoTables}.

Lemma filterLines_lines data :
  bufio.rawLines (filterLines data)
  = List.filter wordlike (bufio.Scanner_Text data).
Proof.
  rewrite filterLines_filter. apply rawLines_writeLines.
  eapply incl_Forall; [|apply (Scanner_Text_LF_free data)].
  intros x Hx. apply filter_In in Hx. apply Hx.
Qed.

Lemma wordlike_len s : wordlike s = true -> 5 <= len s.
Proof.
  unfold wordlike. rewrite !andb_true_iff. intros [_ HW].
  rewrite LikelyContainsWords_eq in HW. apply andb_true_iff in HW as [H5 _].
  now apply Z.leb_le.
Qed.

Lemma transformChunk_final chunk :
  exists input,
    transformChunk chunk = filterLines (EnforceLengthRange input 4 32).
Proof. unfold transformChunk. eexists. reflexivity. Qed.

(** C7: the length-enforcement step keeps exactly the lines of 4 to 32
    bytes, the filter pass writes lines that it scanned and nothing
    else, and every line that the transform stage writes has a length
    between 4 and 32. *)
Theorem C7_transform_length_bounds :
  (forall input,
     EnforceLengthRange input 4 32
     = strings.Join (List.filter (in_length_range 4 32)
                                 (strings.Split input LF)) [LF])
  /\ (forall input l,
        In l (List.filter (in_length_range 4 32) (strings.Split input LF)) <->
        In l (strings.Split input LF) /\ 4 <= len l <= 32)
  /\ (forall data,
        filterLines data = writeLines (bufio.rawLines (filterLines data)) /\
        sublist (bufio.rawLines (filterLines data)) (bufio.Scanner_Text data))
  /\ (forall chunk,
        transformChunk chunk = writeLines (bufio.rawLines (transformChunk chunk)) /\
        Forall (fun o => 4 <= len o <= 32)
               (bufio.rawLines (transformChunk chunk))).
Proof.
  split; [intros; apply EnforceLengthRange_filter|].
  split; [intros; now rewrite filter_In, in_length_range_spec|].
  split.
  - intros data. rewrite filterLines_lines. split.
    + apply filterLines_filter.
    + apply filter_sublist.
  - intros chunk. destruct (transformChunk_final chunk) as [input ->].
    rewrite filterLines_lines. split; [apply filterLines_filter|].
    rewrite Scanner_Text_EnforceLengthRange.
    apply List.Forall_forall. intros o Ho. apply filter_In in Ho as [Ho Hw].
    apply wordlike_len in Hw. apply in_map_iff in Ho as [k [<- Hk]].
    apply filter_In in Hk as [_ Hk]. apply in_length_range_spec in Hk.
    pose proof (dropCR_len k). lia.
Qed.

End LengthBound.

(** ** The order of Go strings *)

Lemma string_le_total a b : sort.string_le a b = true \/ sort.string_le b a = true.
Proof.
  revert b. induction a as [|x a IH]; intros [|y b]; simpl; auto.
  destruct (byteval x <? byteval y) eqn:Hxy; [now left|].
  destruct (byteval y <? byteval x) eqn:Hyx; [now right|].
  apply IH.
Qed.

Lemma string_le_trans a b c :
  sort.string_le a b = true -> sort.string_le b c = true ->
  sort.string_le a c = true.
Proof.
  revert b c. induction a as [|x a IH]; intros [|y b] [|z c]; simpl; auto;
    try discriminate.
  destruct (byteval x <? byteval y) eqn:Hxy,
           (byteval y <? byteval x) eqn:Hyx,
           (byteval y <? byteval z) eqn:Hyz,
           (byteval z <? byteval y) eqn:Hzy,
           (byteval x <? byteval z) eqn:Hxz,
           (byteval z <? byteval x) eqn:Hzx;
    try discriminate; try reflexivity;
    rewrite ?Z.ltb_lt, ?Z.ltb_ge in *; try lia.
  apply IH.
Qed.

#[global] Instance sort_le_total : Total sort.le.
Proof. intros a b. apply string_le_total. Qed.

#[global] Instance sort_le_trans : Transitive sort.le.
Proof. intros a b c. apply string_le_trans. Qed.

Lemma sort_Strings_sorted l : StronglySorted sort.le (sort.Strings l).
Proof. apply StronglySorted_merge_sort; apply _. Qed.

Lemma sort_Strings_perm l : sort.Strings l ≡ₚ l.
Proof. apply merge_sort_Permutation. Qed.

(** ** The scatter-sort stage *)

Lemma Forall_perm {A} (P : A -> Prop) (l l' : list A) :
  l ≡ₚ l' -> Forall P l' -> Forall P l.
Proof. intros Hp HF. now rewrite Hp. Qed.

Lemma to_int_not_nil z :
  Z.to_int z <> Decimal.Pos Decimal.Nil /\ Z.to_int z <> Decimal.Neg Decimal.Nil.
Proof.
  destruct z as [|p|p]; simpl; split; try discriminate;
    intros [= E]; now apply (Unsigned.to_uint_nonnil p).
Qed.

Lemma fmt_d_inj i j : fmt.d i = fmt.d j -> i = j.
Proof.
  unfold fmt.d. intros E.
  apply (f_equal string_of_list_ascii) in E.
  rewrite !string_of_list_ascii_of_string in E.
  apply (f_equal NilZero.int_of_string) in E.
  destruct (to_int_not_nil i) as [Hi1 Hi2], (to_int_not_nil j) as [Hj1 Hj2].
  rewrite !NilZero.isi in E by assumption.
  inversion E as [E']. now apply DecimalZ.to_int_inj.
Qed.

Lemma chunkName_inj i j : chunkName i = chunkName j -> i = j.
Proof.
  unfold chunkName. intros E. apply app_inv_head in E.
  apply app_inv_tail in E. now apply fmt_d_inj.
Qed.

Lemma CreateFile_fresh d name data :
  ~ In name (map fst d) -> CreateFile d name data = d ++ [(name, data)].
Proof.
  induction d as [|[n c] rest IH]; intros Hfresh; [reflexivity|].
  cbn [CreateFile]. destruct (decide (n = name)) as [-> | Hne].
  - exfalso. apply Hfresh. now left.
  - cbn [app]. rewrite IH; [reflexivity|]. intros Hin. apply Hfresh. now right.
Qed.

(** The names of the chunk files written so far. *)
Lemma sortAndWriteChunk_lines lines tempDir n :
  Forall LF_free lines ->
  (forall name, In name (map fst tempDir) ->
                exists i, 0 <= i < n /\ name = chunkName i) ->
  map chunk_lines (sortAndWriteChunk lines tempDir n)
  = map chunk_lines tempDir ++ [sort.Strings lines]
  /\ map fst (sortAndWriteChunk lines tempDir n)
     = map fst tempDir ++ [chunkName n].
Proof.
  intros HL Hnames. unfold sortAndWriteChunk. rewrite CreateFile_fresh.
  - rewrite !map_app. simpl. split; [|reflexivity]. f_equal.
    unfold chunk_lines. simpl. rewrite rawLines_writeLines; [reflexivity|].
    eapply Forall_perm; [apply sort_Strings_perm|exact HL].
  - intros Hin. destruct (Hnames _ Hin) as (i & Hi & E).
    apply chunkName_inj in E. lia.
Qed.

Lemma scatter_loop limit texts :
  forall seen lines n tempDir,
    Forall LF_free texts -> Forall LF_free lines ->
    0 <= n ->
    (forall name, In name (map fst tempDir) ->
                  exists i, 0 <= i < n /\ name = chunkName i) ->
    Forall (StronglySorted sort.le) (map chunk_lines tempDir) ->
    concat (map chunk_lines tempDir) ++ lines ≡ₚ seen ->
    let '(lines', n', tempDir') :=
      fold_left (scatter_step limit) texts (lines, n, tempDir) in
    Forall LF_free lines' /\
    0 <= n' /\
    (forall name, In name (map fst tempDir') ->
                  exists i, 0 <= i < n' /\ name = chunkName i) /\
    Forall (StronglySorted sort.le) (map chunk_lines tempDir') /\
    concat (map chunk_lines tempDir') ++ lines' ≡ₚ seen ++ texts.
Proof.
  induction texts as [|text texts IH];
    intros seen lines n tempDir Ht Hl Hn Hnames Hs Hp.
  - simpl. rewrite app_nil_r. auto.
  - inversion Ht as [|? ? Htext Htexts]; subst. cbn [fold_left].
    assert (Hl' : Forall LF_free (lines ++ [text])).
    { apply Forall_app. split; [exact Hl|]. constructor; [exact Htext|constructor]. }
    unfold scatter_step at 2.
    destruct (Z.of_nat (length (lines ++ [text])) >=? limit).
    + destruct (sortAndWriteChunk_lines (lines ++ [text]) tempDir n Hl' Hnames)
        as [Elines Enames].
      specialize (IH (seen ++ [text]) [] (n + 1)
                    (sortAndWriteChunk (lines ++ [text]) tempDir n)).
      rewrite <- app_assoc in IH.
      apply IH; [exact Htexts|constructor|lia| | |].
      * rewrite Enames. intros name Hin. apply in_app_or in Hin as [Hin|Hin].
        -- destruct (Hnames _ Hin) as (i & Hi & E). exists i. split; [lia|exact E].
        -- destruct Hin as [<-|[]]. exists n. split; [lia|reflexivity].
      * rewrite Elines. apply Forall_app. split; [exact Hs|].
        constructor; [apply sort_Strings_sorted|constructor].
      * rewrite Elines, concat_app. simpl. rewrite !app_nil_r.
        rewrite sort_Strings_perm. rewrite app_assoc. now rewrite Hp.
    + specialize (IH (seen ++ [text]) (lines ++ [text]) n tempDir).
      rewrite <- app_assoc in IH.
      apply IH; [exact Htexts|exact Hl'|exact Hn|exact Hnames|exact Hs|].
      rewrite app_assoc. now rewrite Hp.
Qed.

Lemma scatter_chunks (limit : Z) (file : list ascii) :
  concat (map chunk_lines (fst (processFileChunksToTempFiles_with limit file)))
    ≡ₚ bufio.Scanner_Text file
  /\ Forall (StronglySorted sort.le)
       (map chunk_lines (fst (processFileChunksToTempFiles_with limit file))).
Proof.
  unfold processFileChunksToTempFiles_with.
  pose proof (scatter_loop limit (bufio.Scanner_Text file) [] [] 0 []
                (Scanner_Text_LF_free file)) as Hloop.
  destruct (fold_left (scatter_step limit) (bufio.Scanner_Text file) ([], 0, []))
    as [[lines n] tempDir].
  destruct Hloop as (Hl & Hn & Hnames & Hs & Hp);
    [constructor|lia|intros name []|constructor|reflexivity|].
  simpl in Hp. cbn [fst].
  destruct (Z.of_nat (length lines) >? 0) eqn:Hlen.
  - destruct (sortAndWriteChunk_lines lines tempDir n Hl Hnames) as [-> _].
    split.
    + rewrite concat_app. simpl. rewrite app_nil_r.
      now rewrite sort_Strings_perm.
    + apply Forall_app. split; [exact Hs|].
      constructor; [apply sort_Strings_sorted|constructor].
  - assert (lines = []) as ->.
    { destruct lines; [reflexivity|]. simpl in Hlen. discriminate. }
    rewrite app_nil_r in Hp. split; assumption.
Qed.

(** C6: whatever the batch size, the lines of the temporary chunk
    files are, as a multiset, the lines that the stage read, and each
    chunk file is sorted in the byte-wise lexicographic order. *)
Theorem C6_scatter_sort_chunks (limit : Z) (file : list ascii) :
  concat (map chunk_lines (fst (processFileChunksToTempFiles_with limit file)))
    ≡ₚ bufio.Scanner_Text file
  /\ Forall (StronglySorted sort.le)
       (map chunk_lines (fst (processFileChunksToTempFiles_with limit file)))
  /\ processFileChunksToTempFiles file
     = processFileChunksToTempFiles_with 25000000 file.
Proof.
  destruct (scatter_chunks limit file) as [Hperm Hsorted].
  split; [exact Hperm|]. split; [exact Hsorted|reflexivity].
Qed.

(** ** Trimming keeps bytes of its argument *)

Lemma incl_firstn {A} (n : nat) (l : list A) : incl (firstn n l) l.
Proof.
  intros x Hx. rewrite <- (firstn_skipn n l). apply in_or_app. now left.
Qed.

Lemma incl_skipn {A} (n : nat) (l : list A) : incl (skipn n l) l.
Proof.
  intros x Hx. rewrite <- (firstn_skipn n l). apply in_or_app. now right.
Qed.

Lemma decode_fuel_incl fuel s :
  incl (concat (map snd (utf8.decode_fuel fuel s))) s.
Proof.
  revert s. induction fuel as [|fuel IH]; intros s; [intros x []|].
  destruct s as [|c t]; [intros x []|].
  cbn [utf8.decode_fuel].
  destruct (utf8.DecodeRuneInString (c :: t)) as [r w].
  cbn [map snd concat]. intros x Hx. apply in_app_or in Hx as [Hx|Hx].
  - now apply incl_firstn in Hx.
  - apply IH in Hx. now apply incl_skipn in Hx.
Qed.

Lemma trimLeft_go_incl f segs :
  incl (strings.trimLeft_go f segs) (concat (map snd segs)).
Proof.
  induction segs as [|[r bs] t IH]; [intros x []|].
  simpl. destruct (f r).
  - intros x Hx. apply in_or_app. right. now apply IH.
  - apply incl_refl.
Qed.

Lemma TrimLeftFunc_incl s f : incl (strings.TrimLeftFunc s f) s.
Proof.
  unfold strings.TrimLeftFunc, utf8.decode.
  eapply incl_tran; [apply trimLeft_go_incl|apply decode_fuel_incl].
Qed.

Lemma TrimRightFunc_incl s f : incl (strings.TrimRightFunc s f) s.
Proof.
  unfold strings.TrimRightFunc.
  destruct (strings.lastIndexFunc_go (length s) f s); [|intros x []].
  destruct (utf8.RuneSelf <=? utf8.at_ s n); apply incl_firstn.
Qed.

Lemma TrimFunc_incl s f : incl (strings.TrimFunc s f) s.
Proof.
  unfold strings.TrimFunc.
  eapply incl_tran; [apply TrimRightFunc_incl|apply TrimLeftFunc_incl].
Qed.

Lemma trimSpace_left_incl s :
  incl (match strings.trimSpace_left s with inl r | inr r => r end) s.
Proof.
  induction s as [|c t IH]; simpl; [apply incl_refl|].
  destruct (utf8.RuneSelf <=? byteval c); [apply incl_refl|].
  destruct (strings.asciiSpace (byteval c)); [|apply incl_refl].
  now apply incl_tl.
Qed.

Lemma incl_rev_l {A} (l m : list A) : incl l (rev m) -> incl l m.
Proof. intros Hi x Hx. apply in_rev. now apply Hi. Qed.

Lemma TrimSpace_incl s : incl (strings.TrimSpace s) s.
Proof.
  unfold strings.TrimSpace. pose proof (trimSpace_left_incl s) as H1.
  destruct (strings.trimSpace_left s) as [rest|rest].
  - pose proof (trimSpace_left_incl (rev rest)) as H2.
    apply incl_rev_l in H2.
    destruct (strings.trimSpace_left (rev rest)) as [r|r].
    + eapply incl_tran; [|exact H1]. intros x Hx. apply H2. now apply in_rev.
    + eapply incl_tran; [apply TrimRightFunc_incl|].
      eapply incl_tran; [|exact H1]. intros x Hx. apply H2. now apply in_rev.
  - eapply incl_tran; [apply TrimFunc_incl|exact H1].
Qed.

Lemma TrimSuffix_incl s suffix : incl (strings.TrimSuffix s suffix) s.
Proof.
  unfold strings.TrimSuffix.
  destruct (strings.HasSuffix s suffix); [apply incl_firstn|apply incl_refl].
Qed.

Lemma flush_line_incl pair : incl (flush_line pair) (fst pair).
Proof.
  unfold flush_line.
  eapply incl_tran; [apply TrimSpace_incl|apply TrimSuffix_incl].
Qed.

Lemma flush_line_LF_free pair : LF_free (fst pair) -> LF_free (flush_line pair).
Proof. intros Hk Hin. apply Hk. now apply flush_line_incl. Qed.

(** ** Keys without white space are written as they are *)

Lemma HasPrefix_incl s p : strings.HasPrefix s p = true -> incl p s.
Proof.
  revert s. induction p as [|a p IH]; intros s Hp; [intros x []|].
  destruct s as [|b s]; [discriminate|]. simpl in Hp.
  apply andb_true_iff in Hp as [Hab Hp]. apply Ascii.eqb_eq in Hab. subst b.
  intros x [->|Hx]; [now left|right; now apply (IH s)].
Qed.

Lemma no_space_SP key : no_space key -> ~ In SP key.
Proof.
  intros Hk Hin. unfold no_space in Hk. rewrite List.Forall_forall in Hk.
  destruct (Hk SP Hin) as [_ Hsp]. discriminate.
Qed.

Lemma TrimSuffix_no_space key n :
  no_space key -> strings.TrimSuffix key (SP :: fmt.d n) = key.
Proof.
  intros Hk. unfold strings.TrimSuffix, strings.HasSuffix.
  destruct (strings.HasPrefix (rev key) (rev (SP :: fmt.d n))) eqn:Hp;
    [|reflexivity].
  exfalso. apply HasPrefix_incl in Hp. apply (no_space_SP key Hk).
  apply in_rev. apply Hp. apply -> in_rev. now left.
Qed.

Lemma trimSpace_left_no_space key :
  no_space key -> strings.trimSpace_left key = inl key.
Proof.
  intros Hk. destruct key as [|c t]; [reflexivity|].
  inversion Hk as [|? ? [Hc Hsp] _]; subst. simpl.
  destruct (utf8.RuneSelf <=? byteval c) eqn:Hr.
  - apply Z.leb_le in Hr. unfold utf8.RuneSelf in Hr. lia.
  - now rewrite Hsp.
Qed.

Lemma TrimSpace_no_space key : no_space key -> strings.TrimSpace key = key.
Proof.
  intros Hk. unfold strings.TrimSpace.
  rewrite trimSpace_left_no_space by exact Hk.
  rewrite trimSpace_left_no_space; [apply rev_involutive|].
  unfold no_space. apply Forall_rev. exact Hk.
Qed.

Lemma flush_line_no_space key count :
  no_space key -> flush_line (key, count) = key.
Proof.
  intros Hk. unfold flush_line. cbn [fst snd].
  rewrite TrimSuffix_no_space by exact Hk. now apply TrimSpace_no_space.
Qed.

(** ** A flush of the frequency table *)

Lemma not_after_count p q : sort.not_after less_count p q <-> count_desc p q.
Proof.
  unfold sort.not_after, less_count, count_desc.
  rewrite Z.gtb_ltb, Z.ltb_ge. tauto.
Qed.

#[global] Instance not_after_count_total : Total (sort.not_after less_count).
Proof.
  intros p q. rewrite !not_after_count. unfold count_desc. lia.
Qed.

#[global] Instance not_after_count_trans : Transitive (sort.not_after less_count).
Proof.
  intros p q r. rewrite !not_after_count. unfold count_desc. lia.
Qed.

Lemma StronglySorted_weaken {A} (R S : A -> A -> Prop) (l : list A) :
  (forall x y, R x y -> S x y) -> StronglySorted R l -> StronglySorted S l.
Proof.
  intros HRS. induction 1 as [|x l Hl IH Hx]; constructor; [exact IH|].
  eapply List.Forall_impl; [|exact Hx]. intros y. apply HRS.
Qed.

Lemma sortedPairs_perm entries : sortedPairs entries ≡ₚ map_to_list entries.
Proof.
  unfold sortedPairs, sort.Slice. rewrite merge_sort_Permutation.
  now rewrite fold_left_snoc.
Qed.

Lemma sortedPairs_sorted entries : StronglySorted count_desc (sortedPairs entries).
Proof.
  unfold sortedPairs, sort.Slice.
  eapply StronglySorted_weaken; [intros x y; apply not_after_count|].
  apply StronglySorted_merge_sort; apply _.
Qed.

Lemma sortedPairs_length entries : length (sortedPairs entries) = size entries.
Proof. rewrite sortedPairs_perm. apply length_map_to_list. Qed.

Lemma sortedPairs_lookup entries key count :
  In (key, count) (sortedPairs entries) <-> entries !! key = Some count.
Proof.
  rewrite <- list_elem_of_In, sortedPairs_perm. apply elem_of_map_to_list.
Qed.

Lemma flushEntriesToFile_eq entries writer :
  flushEntriesToFile entries writer
  = writer ++ writeLines (map flush_line (sortedPairs entries)).
Proof.
  unfold flushEntriesToFile.
  rewrite (fold_left_app_concat (fun pair => flush_line pair ++ [LF])).
  rewrite writeLines_concat. now rewrite map_map.
Qed.

(** A flush writes one line for each distinct key of the table, in
    descending order of the counts; the line is the key without a
    suffix " <count>" and without white space around it, which is the
    key itself when it holds no white space. *)
Lemma flushEntriesToFile_lines
    (entries : gmap (list ascii) Z) (writer : list ascii) :
  flushEntriesToFile entries writer
    = writer ++ writeLines (map flush_line (sortedPairs entries))
  /\ sortedPairs entries ≡ₚ map_to_list entries
  /\ NoDup (map fst (sortedPairs entries))
  /\ (forall key count,
        In (key, count) (sortedPairs entries) <-> entries !! key = Some count)
  /\ StronglySorted count_desc (sortedPairs entries)
  /\ (forall key count,
        flush_line (key, count)
        = strings.TrimSpace (strings.TrimSuffix key (SP :: fmt.d count)))
  /\ (forall key count, no_space key -> flush_line (key, count) = key)
  /\ (forall key count, LF_free key -> LF_free (flush_line (key, count))).
Proof.
  split; [apply flushEntriesToFile_eq|].
  split; [apply sortedPairs_perm|].
  split; [rewrite sortedPairs_perm; apply NoDup_fst_map_to_list|].
  split; [apply sortedPairs_lookup|].
  split; [apply sortedPairs_sorted|].
  split; [reflexivity|].
  split; [apply flush_line_no_space|].
  intros key count. apply (flush_line_LF_free (key, count)).
Qed.

(** C3: a flush cuts the suffix " <count>" from a key.  The table that
    holds the key "abc 1" once is written as the line "abc", which is
    no key of the table; [sortAndWriteChunk] writes the same line as it
    is.  The key comes from a file that holds the line "abc 1": the
    file that [SortByAproxFrequency] sorts, or the target of
    [CreateWizardWordlist] when it holds the line from an earlier
    run.  The lines of the output are given sorted. *)
Theorem C3_count_suffix_cut_from_key :
  flushEntriesToFile {[ lit "abc 1" := 1 ]} [] = ln "abc"
  /\ ~ flush_writes_keys_unchanged {[ lit "abc 1" := 1 ]}
  /\ sortAndWriteChunk [lit "abc 1"] [] 0 = [(chunkName 0, ln "abc 1")]
  /\ SortByAproxFrequency (ln "abc 1") = Some (ln "abc")
  /\ option_map (fun out => sort.Strings (lines_written out))
       (CreateWizardWordlist (T:=asciiTables) (ln "hunter2")
                             (ln "secret" ++ ln "abc 1"))
     = Some [lit "abc"; lit "hunter"].
Proof.
  assert (Hflush : flushEntriesToFile {[ lit "abc 1" := 1 ]} [] = ln "abc")
    by (vm_compute; reflexivity).
  split; [exact Hflush|]. split.
  - intros (pairs & Hperm & _ & Hout).
    rewrite map_to_list_singleton in Hperm.
    apply Permutation_singleton_r in Hperm. subst pairs.
    rewrite Hflush in Hout. revert Hout. vm_compute. discriminate.
  - repeat split; vm_compute; reflexivity.
Qed.

(** ** The aggregate stage *)

Lemma increment_size entries line :
  size (increment entries line)
  = match entries !! line with Some _ => size entries | None => S (size entries) end.
Proof.
  unfold increment. rewrite map_size_insert. now destruct (entries !! line).
Qed.

Lemma increment_keys entries line k :
  is_Some (increment entries line !! k) -> k = line \/ is_Some (entries !! k).
Proof.
  unfold increment. destruct (decide (line = k)) as [-> | Hne]; [now left|].
  rewrite lookup_insert_ne by exact Hne. now right.
Qed.

Lemma merge_step_inv threshold seen st text :
  LF_free text -> merge_inv seen st ->
  merge_inv (seen ++ [text]) (merge_step threshold st text).
Proof.
  intros Htext (W & HW & HWLF & Hseen & Hkeys & Hle & Heq).
  destruct st as [entries writer]. cbn [fst snd] in *. subst writer.
  assert (Hseen' : Forall LF_free (seen ++ [text])).
  { apply Forall_app. split; [exact Hseen|]. constructor; [exact Htext|constructor]. }
  assert (Hkeys' : forall k, is_Some (increment entries text !! k) ->
                             In k (seen ++ [text])).
  { intros k Hk. apply in_or_app.
    destruct (increment_keys _ _ _ Hk) as [-> | Hk']; [right; now left|].
    left. now apply Hkeys. }
  assert (Hle' : (length W + size (increment entries text)
                  <= length (seen ++ [text]))%nat).
  { rewrite increment_size, length_app. simpl.
    destruct (entries !! text); lia. }
  assert (Heq' : List.NoDup (seen ++ [text]) ->
                 (length W + size (increment entries text))%nat
                 = length (seen ++ [text])).
  { intros Hnd. rewrite increment_size, length_app. simpl.
    apply NoDup_remove in Hnd as [Hnd Hnotin]. rewrite app_nil_r in Hnd, Hnotin.
    specialize (Heq Hnd).
    destruct (entries !! text) as [c|] eqn:Hlook; [|lia].
    exfalso. apply Hnotin. apply Hkeys. now exists c. }
  unfold merge_step.
  destruct (Z.of_nat (size (increment entries text)) >? threshold).
  - exists (W ++ map flush_line (sortedPairs (increment entries text))).
    cbn [fst snd]. rewrite flushEntriesToFile_eq, writeLines_app.
    split; [reflexivity|]. split.
    { apply Forall_app. split; [exact HWLF|]. apply List.Forall_forall.
      intros l Hl. apply in_map_iff in Hl as [[k c] [<- Hp]].
      apply flush_line_LF_free. cbn [fst].
      apply sortedPairs_lookup in Hp.
      rewrite List.Forall_forall in Hseen'. apply Hseen', Hkeys'. now exists c. }
    split; [exact Hseen'|]. split.
    { intros k [c Hk]. rewrite lookup_empty in Hk. discriminate. }
    rewrite length_app, length_map, sortedPairs_length, map_size_empty.
    split; [lia|]. intros Hnd. specialize (Heq' Hnd). lia.
  - exists W. cbn [fst snd]. repeat split; assumption.
Qed.

Lemma merge_loop_inv threshold texts :
  forall seen st,
    Forall LF_free texts -> merge_inv seen st ->
    merge_inv (seen ++ texts) (fold_left (merge_step threshold) texts st).
Proof.
  induction texts as [|text texts IH]; intros seen st Ht Hinv.
  - simpl. now rewrite app_nil_r.
  - inversion Ht; subst. cbn [fold_left].
    replace (seen ++ text :: texts) with ((seen ++ [text]) ++ texts)
      by now rewrite <- app_assoc.
    apply IH; [assumption|]. now apply merge_step_inv.
Qed.

Lemma merge_files_inv threshold files :
  forall seen st st',
    merge_inv seen st ->
    merge_files threshold files st = Some st' ->
    merge_inv (seen ++ concat (map bufio.Scanner_Text files)) st'.
Proof.
  induction files as [|file files IH]; intros seen st st' Hinv Hm.
  - simpl in *. inversion Hm; subst. now rewrite app_nil_r.
  - cbn [merge_files] in Hm. destruct (bufio.Scanner_Err file); [discriminate|].
    cbn [map concat]. rewrite app_assoc. eapply IH; [|exact Hm].
    apply merge_loop_inv; [apply Scanner_Text_LF_free|exact Hinv].
Qed.

Lemma merge_inv_start : merge_inv [] (∅, []).
Proof.
  exists []. cbn [fst snd].
  split; [reflexivity|]. split; [constructor|]. split; [constructor|].
  split; [|rewrite map_size_empty; simpl; split; [lia|reflexivity]].
  intros k [c Hk]. rewrite lookup_empty in Hk. discriminate.
Qed.

Lemma mergeSortedChunks_written threshold tempDir out :
  mergeSortedChunks_with threshold tempDir = Some out ->
  exists W : list (list ascii),
    lines_written out = W /\ out = writeLines W /\
    (length W <= length (lines_consumed tempDir))%nat /\
    (List.NoDup (lines_consumed tempDir) ->
     length W = length (lines_consumed tempDir)).
Proof.
  unfold mergeSortedChunks_with, lines_consumed, lines_written.
  destruct (merge_files threshold (map snd (ReadDir tempDir)) (∅, []))
    as [[entries writer]|] eqn:Hm; [|discriminate].
  intros Hout. inversion Hout as [Hout']. clear Hout.
  apply (merge_files_inv _ _ [] _ _ merge_inv_start) in Hm.
  destruct Hm as (W & HW & HWLF & Hseen & Hkeys & Hle & Heq).
  cbn [fst snd app] in *. subst writer.
  destruct (Z.of_nat (size entries) >? 0) eqn:Hsz.
  - exists (W ++ map flush_line (sortedPairs entries)).
    rewrite flushEntriesToFile_eq, <- writeLines_app.
    assert (HLF : Forall LF_free (W ++ map flush_line (sortedPairs entries))).
    { apply Forall_app. split; [exact HWLF|]. apply List.Forall_forall.
      intros l Hl. apply in_map_iff in Hl as [[k c] [<- Hp]].
      apply flush_line_LF_free. cbn [fst]. apply sortedPairs_lookup in Hp.
      rewrite List.Forall_forall in Hseen. apply Hseen, Hkeys. now exists c. }
    rewrite rawLines_writeLines by exact HLF.
    rewrite length_app, length_map, sortedPairs_length. repeat split; assumption.
  - exists W. rewrite rawLines_writeLines by exact HWLF.
    assert (size entries = 0%nat) as Hz.
    { rewrite Z.gtb_ltb in Hsz. apply Z.ltb_ge in Hsz. lia. }
    rewrite Hz in *. rewrite Nat.add_0_r in *. repeat split; assumption.
Qed.




(** ** The denylist *)

(** C8: the alternatives of the pattern for URLs and for e-mail
    addresses ask for backslashes in the text, so a URL and an address
    pass the check; only with the backslashes are they rejected.  The
    other alternatives reject a string of digits, a string of five
    bytes and a string that holds "gmail". *)
Theorem C8_denylist_accepts_urls_and_addresses :
  IsQualityCandidateCheck (lit "http://example.org/login") = true
  /\ IsQualityCandidateCheck (lit "https://example.org/login") = true
  /\ IsQualityCandidateCheck (lit "alice@example.org") = true
  /\ IsQualityCandidateCheck (lit "http:\/\/example") = false
  /\ IsQualityCandidateCheck (lit "alice@example\.org") = false
  /\ IsQualityCandidateCheck (lit "123456789") = false
  /\ IsQualityCandidateCheck (lit "abcde") = false
  /\ IsQualityCandidateCheck (lit "mygmailbox") = false
  /\ IsQualityCandidateCheck (lit "hunter2") = true.
Proof. vm_compute. repeat split; reflexivity. Qed.

(** ** The read loop *)

Section ReadLoop.
Context {T : GoTables}.

Lemma Write_appended out target data :
  Write {| content := out ++ skipn (length out) target;
           offset := length out |} data
  = {| content := (out ++ data) ++ skipn (length (out ++ data)) target;
       offset := length (out ++ data) |}.
Proof.
  unfold Write. cbn [content offset]. rewrite length_app. f_equal.
  rewrite firstn_app, firstn_all, Nat.sub_diag, firstn_O, app_nil_r.
  rewrite <- app_assoc. f_equal. f_equal.
  rewrite skipn_app, skipn_all2 by lia. cbn [app].
  replace (length out + length data - length out)%nat with (length data) by lia.
  rewrite skipn_skipn. f_equal. lia.
Qed.

Lemma reads_fuel_cons fuel n file :
  firstn n file <> [] ->
  reads_fuel (S fuel) n file = firstn n file :: reads_fuel fuel n (skipn n file).
Proof.
  intros Hne. cbn [reads_fuel]. destruct (firstn n file); [congruence|reflexivity].
Qed.

Lemma readLoop_reads fuel n file out target :
  readLoop fuel n file
    {| content := out ++ skipn (length out) target; offset := length out |}
  = let out' := out ++ concat (map transformChunk (reads_fuel fuel n file)) in
    {| content := out' ++ skipn (length out') target; offset := length out' |}.
Proof.
  revert file out. induction fuel as [|fuel IH]; intros file out.
  - simpl. now rewrite app_nil_r.
  - cbn [readLoop Read]. destruct (firstn n file) as [|c block] eqn:Hblock.
    + cbn [reads_fuel]. rewrite Hblock. simpl. now rewrite app_nil_r.
    + assert (Hne : firstn n file <> []) by (rewrite Hblock; discriminate).
      rewrite Write_appended, IH. cbn zeta.
      rewrite (reads_fuel_cons fuel n file Hne).
      rewrite Hblock. cbn [map concat]. now rewrite !app_assoc.
Qed.

Lemma reads_fuel_enough n : (0 < n)%nat ->
  forall fuel file, (length file < fuel)%nat ->
    concat (reads_fuel fuel n file) = file
    /\ Forall (fun b => (0 < length b <= n)%nat) (reads_fuel fuel n file)
    /\ Forall (fun b => length b = n) (removelast (reads_fuel fuel n file)).
Proof.
  intros Hn. induction fuel as [|fuel IH]; intros file Hfuel; [lia|].
  cbn [reads_fuel]. destruct (firstn n file) as [|c block] eqn:Hblock.
  - assert (file = []) as ->.
    { destruct file; [reflexivity|]. destruct n; [lia|]. discriminate. }
    repeat split; constructor.
  - assert (Hlen : (length (skipn n file) < fuel)%nat).
    { rewrite length_skipn. destruct file; [rewrite firstn_nil in Hblock; discriminate|].
      simpl in Hfuel. simpl length. lia. }
    destruct (IH (skipn n file) Hlen) as (Hc & Hb & Hl).
    rewrite <- Hblock. split; [|split].
    + cbn [concat]. rewrite Hc. apply firstn_skipn.
    + constructor; [|exact Hb]. rewrite Hblock at 1. rewrite length_firstn.
      simpl length. lia.
    + destruct (reads_fuel fuel n (skipn n file)) as [|b bs] eqn:Hrest.
      * constructor.
      * change (removelast (firstn n file :: b :: bs))
          with (firstn n file :: removelast (b :: bs)).
        constructor; [|exact Hl].
        rewrite length_firstn. apply Nat.min_l.
        destruct (Nat.le_gt_cases n (length file)) as [Hle|Hgt]; [exact Hle|].
        exfalso. rewrite skipn_all2 in Hrest by lia.
        destruct fuel; simpl in Hrest; [discriminate|].
        rewrite firstn_nil in Hrest. discriminate.
Qed.

End ReadLoop.

Section TransformStage.
Context {T : GoTables}.

Lemma bufferSize_nat : (0 < Z.to_nat bufferSize)%nat.
Proof. unfold bufferSize. lia. Qed.

Lemma readLoop_blocks (source target : list ascii) :
  let blocks := reads (Z.to_nat bufferSize) source in
  let written := concat (map transformChunk blocks) in
  readLoop (S (length source)) (Z.to_nat bufferSize) source
           (OpenFile_CREATE_WRONLY target)
    = {| content := written ++ skipn (length written) target;
         offset := length written |}
  /\ bufferSize = 262144
  /\ concat blocks = source
  /\ Forall (fun b => 0 < len b <= bufferSize) blocks
  /\ Forall (fun b => len b = bufferSize) (removelast blocks).
Proof.
  cbv zeta. pose proof bufferSize_nat as Hpos.
  assert (HZ : Z.of_nat (Z.to_nat bufferSize) = bufferSize)
    by (unfold bufferSize; lia).
  unfold reads. generalize dependent (Z.to_nat bufferSize). intros n Hpos HZ.
  split.
  - exact (readLoop_reads (S (length source)) n source [] target).
  - split; [reflexivity|].
    destruct (reads_fuel_enough n Hpos (S (length source)) source
                (Nat.lt_succ_diag_r _)) as (Hc & Hb & Hl).
    split; [exact Hc|]. split.
    + eapply List.Forall_impl; [|exact Hb]. intros b Hlen.
      cbv beta in Hlen. unfold len. lia.
    + eapply List.Forall_impl; [|exact Hl]. intros b Hlen.
      cbv beta in Hlen. unfold len. lia.
Qed.

Lemma straddling_line_split :
  map (fun b => (len b, skipn (length b - 6) b))
      (reads (Z.to_nat bufferSize) straddling_source)
     = [(262144, lit "hunter"); (9, lit "sword" ++ [LF])]
  /\ skipn 1 (reads (Z.to_nat bufferSize) straddling_source) = [ln "password"]
  /\ concat (map transformChunk (reads (Z.to_nat bufferSize) straddling_source))
     = ln "hunter" ++ ln "password"
  /\ transformChunk (lit "hunter" ++ ln "password") = ln "hunterpassword".
Proof.
  split; [vm_compute; reflexivity|]. split; [vm_compute; reflexivity|].
  split; vm_compute; reflexivity.
Qed.

(** C10: the read loop cuts the source into blocks of 256KB, the last
    one shorter, and writes the transform of each block after that of
    the block before; a line that lies across the end of a block is
    handled as two lines, one in each block. *)
Theorem C10_reads_transformed_independently (source target : list ascii) :
  (let blocks := reads (Z.to_nat bufferSize) source in
   let written := concat (map transformChunk blocks) in
   readLoop (S (length source)) (Z.to_nat bufferSize) source
            (OpenFile_CREATE_WRONLY target)
     = {| content := written ++ skipn (length written) target;
          offset := length written |}
   /\ bufferSize = 262144
   /\ concat blocks = source
   /\ Forall (fun b => 0 < len b <= bufferSize) blocks
   /\ Forall (fun b => len b = bufferSize) (removelast blocks))
  /\ (map (fun b => (len b, skipn (length b - 6) b))
           (reads (Z.to_nat bufferSize) straddling_source)
       = [(262144, lit "hunter"); (9, lit "sword" ++ [LF])]
      /\ skipn 1 (reads (Z.to_nat bufferSize) straddling_source)
         = [ln "password"]
      /\ concat (map transformChunk
                    (reads (Z.to_nat bufferSize) straddling_source))
         = ln "hunter" ++ ln "password"
      /\ transformChunk (lit "hunter" ++ ln "password") = ln "hunterpassword").
Proof.
  exact (conj (readLoop_blocks source target) straddling_line_split).
Qed.

(** C4: a run on a source of one line over a target that holds two
    lines of an earlier run.  The target is opened without truncation:
    the seven bytes written replace the start of its old content, and
    the sort stage reads the rest of it as lines of this run.  On an
    empty target the same source gives the line "hunter" alone.  The
    lines of the output are given sorted, the order in which a flush
    writes lines of equal count being open. *)
Theorem C4_old_target_content_survives :
  option_map (fun out => sort.Strings (lines_written out))
    (CreateWizardWordlist (ln "hunter2")
                          (ln "oldpassword" ++ ln "oldstalething"))
    = Some [lit "hunter"; lit "oldstalething"; lit "word"]
  /\ content (readLoop (S (length (ln "hunter2"))) (Z.to_nat bufferSize)
                (ln "hunter2")
                (OpenFile_CREATE_WRONLY (ln "oldpassword" ++ ln "oldstalething")))
     = ln "hunter" ++ ln "word" ++ ln "oldstalething"
  /\ CreateWizardWordlist (ln "hunter2") [] = Some (ln "hunter")
  /\ option_map (fun out => sort.Strings (lines_written out))
       (CreateWizardWordlist [] (ln "oldpassword" ++ ln "oldstalething"))
     = Some [lit "oldpassword"; lit "oldstalething"].
Proof. repeat split; vm_compute; reflexivity. Qed.

End TransformStage.

(** ** The lines of the transform stage are graphic ASCII *)

Lemma byteval_range c : 0 <= byteval c < 256.
Proof. unfold byteval. pose proof (N_ascii_bounded c). lia. Qed.

Lemma byteval_byte_of z : 0 <= z < 256 -> byteval (byte_of z) = z.
Proof.
  intros Hz. unfold byteval, byte_of. rewrite N_ascii_embedding by lia. lia.
Qed.

Lemma byteval_inj a b : byteval a = byteval b -> a = b.
Proof.
  unfold byteval. intros E.
  rewrite <- (ascii_N_embedding a), <- (ascii_N_embedding b). f_equal. lia.
Qed.

Lemma fold_left_Forall_snoc {A B} (P : B -> Prop) (f : A -> option B)
    (l : list A) (init : list B) :
  Forall P init -> (forall a b, f a = Some b -> P b) ->
  Forall P (fold_left
              (fun acc a => match f a with Some b => acc ++ [b] | None => acc end)
              l init).
Proof.
  intros Hinit Hf. revert init Hinit.
  induction l as [|a l IH]; intros init Hinit; [exact Hinit|].
  cbn [fold_left]. apply IH. destruct (f a) as [b|] eqn:E; [|exact Hinit].
  apply Forall_app. split; [exact Hinit|]. constructor; [|constructor].
  now apply (Hf a).
Qed.

Section Graphic.
Context {T : GoTables}.

Lemma RemoveControlChars_printable s : printable (RemoveControlChars s).
Proof.
  unfold RemoveControlChars, printable.
  rewrite (fold_left_pointwise _
    (fun acc r => match (if (r >=? 32) && (r <=? 126) then Some (byte_of r)
                         else None) with
                  | Some b => acc ++ [b] | None => acc end)).
  - apply fold_left_Forall_snoc; [constructor|].
    intros r b Hb. destruct ((r >=? 32) && (r <=? 126)) eqn:Hr; [|discriminate].
    inversion Hb; subst. apply andb_true_iff in Hr as [H1 H2].
    rewrite Z.geb_leb in H1. apply Z.leb_le in H1, H2.
    rewrite byteval_byte_of; lia.
  - intros acc r. now destruct ((r >=? 32) && (r <=? 126)).
Qed.

Lemma ToLower_printable s : printable s -> printable (strings.ToLower s).
Proof.
  unfold printable, strings.ToLower. intros Hs. apply Forall_map.
  eapply List.Forall_impl; [|exact Hs]. intros c Hc. unfold strings.lower_byte.
  destruct (utf8.in_range 65 90 (byteval c)) eqn:Hr; [|exact Hc].
  unfold utf8.in_range in Hr. apply andb_true_iff in Hr as [H1 H2].
  apply Z.leb_le in H1, H2. rewrite byteval_byte_of; lia.
Qed.

Lemma ReplaceAll_Forall (P : ascii -> Prop) s old :
  Forall P s -> Forall P (strings.ReplaceAll s old).
Proof.
  intros Hs. unfold strings.ReplaceAll. apply List.Forall_forall.
  intros c Hc. apply filter_In in Hc as [Hc _].
  rewrite List.Forall_forall in Hs. now apply Hs.
Qed.

Lemma ReplaceAll_SP_graphic s : printable s -> graphic (strings.ReplaceAll s SP).
Proof.
  intros Hs. unfold strings.ReplaceAll, graphic. apply List.Forall_forall.
  intros c Hc. apply filter_In in Hc as [Hc Hne].
  unfold printable in Hs. rewrite List.Forall_forall in Hs. specialize (Hs c Hc).
  apply negb_true_iff, Ascii.eqb_neq in Hne.
  assert (byteval c <> 32).
  { intros E. apply Hne. apply byteval_inj. rewrite E. reflexivity. }
  lia.
Qed.

Lemma prepare_line_graphic line :
  Title_keeps_printable T -> graphic (prepare_line line).
Proof.
  intros HT. unfold prepare_line.
  set (clean := strings.ToLower (RemoveControlChars _)).
  assert (Hclean : printable clean)
    by apply ToLower_printable, RemoveControlChars_printable.
  destruct (strings.Contains clean SP); apply ReplaceAll_SP_graphic; auto.
Qed.

Lemma PrepareStringForTransformations_graphic data :
  Title_keeps_printable T ->
  Forall graphic (PrepareStringForTransformations data).
Proof.
  intros HT. unfold PrepareStringForTransformations.
  rewrite (fold_left_app_concat (fun line => [prepare_line line])). simpl.
  induction (bufio.Scanner_Text data) as [|l L IH]; [constructor|].
  simpl. constructor; [now apply prepare_line_graphic|exact IH].
Qed.

End Graphic.

Lemma graphic_line_bytes l : graphic l -> Forall line_byte l.
Proof.
  apply List.Forall_impl. intros c Hc. now left.
Qed.

Lemma Join_line_bytes L : Forall graphic L -> Forall line_byte (strings.Join L [LF]).
Proof.
  induction 1 as [|l L Hl HL IH]; [constructor|].
  destruct L as [|l' L']; [now apply graphic_line_bytes|].
  change (strings.Join (l :: l' :: L') [LF])
    with (l ++ [LF] ++ strings.Join (l' :: L') [LF]).
  apply Forall_app. split; [now apply graphic_line_bytes|].
  constructor; [now right|exact IH].
Qed.

Lemma writeLines_line_bytes L : Forall graphic L -> Forall line_byte (writeLines L).
Proof.
  induction 1 as [|l L Hl HL IH]; [constructor|].
  rewrite writeLines_cons. apply Forall_app.
  split; [now apply graphic_line_bytes|]. constructor; [now right|exact IH].
Qed.

Lemma Split_incl s sep : Forall (fun piece => incl piece s) (strings.Split s sep).
Proof.
  induction s as [|c t IH]; simpl.
  - constructor; [apply incl_refl|constructor].
  - assert (Ht : Forall (fun piece => incl piece (c :: t)) (strings.Split t sep)).
    { eapply List.Forall_impl; [|exact IH]. intros p Hp. now apply incl_tl. }
    destruct (Ascii.eqb c sep).
    + constructor; [intros x []|exact Ht].
    + destruct (strings.Split t sep) as [|h r].
      * constructor; [|constructor]. intros x [<-|[]]. now left.
      * inversion Ht as [|? ? Hh Hr]; subst. constructor; [|exact Hr].
        intros x [<-|Hx]; [now left|now apply Hh].
Qed.

Lemma rawLines_incl data : Forall (fun l => incl l data) (bufio.rawLines data).
Proof.
  unfold bufio.rawLines. pose proof (Split_incl data LF) as HS.
  destruct (rev (strings.Split data LF)) as [|[|c l] r] eqn:Hrev; try exact HS.
  apply (f_equal (@rev _)) in Hrev. rewrite rev_involutive in Hrev.
  rewrite Hrev in HS. simpl in HS. apply Forall_app in HS. tauto.
Qed.

Lemma dropCR_incl l : incl (bufio.dropCR l) l.
Proof.
  destruct (dropCR_cases l) as [E|E]; [rewrite E; apply incl_refl|].
  rewrite E at 2. now apply incl_appl, incl_refl.
Qed.

Lemma Scanner_Text_incl data :
  Forall (fun l => incl l data) (bufio.Scanner_Text data).
Proof.
  unfold bufio.Scanner_Text. pose proof (rawLines_incl data) as HR.
  induction HR as [|l raw Hl Hraw IH]; simpl; [constructor|].
  destruct (bufio.fits l); constructor; [|exact IH].
  eapply incl_tran; [apply dropCR_incl|exact Hl].
Qed.

Lemma line_bytes_LF_free_graphic data l :
  Forall line_byte data -> incl l data -> LF_free l -> graphic l.
Proof.
  intros Hd Hincl HLF. apply List.Forall_forall. intros c Hc.
  rewrite List.Forall_forall in Hd. destruct (Hd c (Hincl c Hc)) as [Hg | ->].
  - exact Hg.
  - now destruct HLF.
Qed.

Lemma Scanner_Text_graphic data :
  Forall line_byte data -> Forall graphic (bufio.Scanner_Text data).
Proof.
  intros Hd. pose proof (Scanner_Text_incl data) as Hi.
  pose proof (Scanner_Text_LF_free data) as HLF.
  induction Hi as [|l L Hl HL IH]; [constructor|].
  inversion HLF; subst. constructor; [|now apply IH].
  now apply (line_bytes_LF_free_graphic data).
Qed.

Lemma graphic_incl l m : incl l m -> graphic m -> graphic l.
Proof.
  intros Hi Hm. apply List.Forall_forall. intros c Hc.
  unfold graphic in Hm. rewrite List.Forall_forall in Hm. now apply Hm, Hi.
Qed.

Lemma graphic_dropCR l : graphic l -> bufio.dropCR l = l.
Proof.
  intros Hl. destruct (dropCR_cases l) as [E|E]; [exact E|].
  exfalso. unfold graphic in Hl. rewrite List.Forall_forall in Hl.
  assert (Hin : In CR l) by (rewrite E; apply in_or_app; right; now left).
  specialize (Hl CR Hin). vm_compute in Hl. destruct Hl as [Hl _]. now apply Hl.
Qed.

Lemma graphic_no_space l : graphic l -> no_space l.
Proof.
  apply List.Forall_impl. intros c Hc. split; [lia|].
  unfold strings.asciiSpace.
  repeat (apply orb_false_iff; split); apply Z.eqb_neq; lia.
Qed.

Section TrimStages.
Context {T : GoTables}.

Lemma trim_stage_graphic (trim : list ascii -> list ascii) data :
  (forall l, incl (trim l) l) -> Forall line_byte data ->
  Forall line_byte
    (fold_left (fun result line => result ++ trim line ++ [LF])
               (bufio.Scanner_Text data) []).
Proof.
  intros Htrim Hd.
  rewrite (fold_left_app_concat (fun line => trim line ++ [LF])). simpl.
  pose proof (Scanner_Text_graphic data Hd) as HG.
  induction HG as [|l L Hl HL IH]; [constructor|].
  simpl. rewrite <- app_assoc. apply Forall_app. split.
  - apply graphic_line_bytes. eapply graphic_incl; [apply Htrim|exact Hl].
  - constructor; [now right|exact IH].
Qed.

Lemma trimmedChunk_line_bytes chunk :
  Title_keeps_printable T -> Forall line_byte (trimmedChunk chunk).
Proof.
  intros HT. unfold trimmedChunk, removeLeadingDigits, removeTrailingDigits.
  apply trim_stage_graphic; [intros; apply TrimLeftFunc_incl|].
  apply trim_stage_graphic; [intros; apply TrimRightFunc_incl|].
  rewrite filterLines_filter. apply writeLines_line_bytes.
  apply List.Forall_forall. intros l Hl. apply filter_In in Hl as [Hl _].
  revert l Hl. apply List.Forall_forall. apply Scanner_Text_graphic.
  apply Join_line_bytes. now apply PrepareStringForTransformations_graphic.
Qed.

Lemma transformChunk_trimmed chunk :
  transformChunk chunk = filterLines (EnforceLengthRange (trimmedChunk chunk) 4 32).
Proof. reflexivity. Qed.

(** With a title caser that keeps printable ASCII printable, the lines
    that the transform stage writes are lines that the length bound
    kept, as they were, and they are graphic ASCII: a flush writes such
    a key unchanged. *)
Lemma transformChunk_lines_kept_unaltered chunk :
  Title_keeps_printable T ->
  sublist (bufio.rawLines (transformChunk chunk))
          (List.filter (in_length_range 4 32)
                       (strings.Split (trimmedChunk chunk) LF))
  /\ Forall graphic (bufio.rawLines (transformChunk chunk))
  /\ (forall key count,
        In key (bufio.rawLines (transformChunk chunk)) ->
        flush_line (key, count) = key).
Proof.
  intros HT. rewrite transformChunk_trimmed, filterLines_lines.
  rewrite Scanner_Text_EnforceLengthRange.
  set (K := List.filter _ (strings.Split (trimmedChunk chunk) LF)).
  assert (HK : Forall graphic K).
  { apply List.Forall_forall. intros l Hl. apply filter_In in Hl as [Hl _].
    pose proof (Split_incl (trimmedChunk chunk) LF) as Hi.
    pose proof (Split_pieces_LF_free (trimmedChunk chunk)) as HLF.
    rewrite List.Forall_forall in Hi, HLF.
    apply (line_bytes_LF_free_graphic (trimmedChunk chunk)); auto.
    now apply trimmedChunk_line_bytes. }
  assert (Hmap : map bufio.dropCR K = K).
  { clear -HK. induction HK as [|l L Hl HL IH]; [reflexivity|].
    simpl. now rewrite IH, graphic_dropCR. }
  rewrite Hmap. split; [apply filter_sublist|]. split.
  - apply List.Forall_forall. intros l Hl. apply filter_In in Hl as [Hl _].
    unfold graphic in HK. rewrite List.Forall_forall in HK. now apply HK.
  - intros key count Hkey. apply filter_In in Hkey as [Hkey _].
    apply flush_line_no_space, graphic_no_space.
    rewrite List.Forall_forall in HK. now apply HK.
Qed.

End TrimStages.

Lemma asciiTables_Title_keeps_printable : Title_keeps_printable asciiTables.
Proof.
  intros s Hs. cbn [cases_Title_NoLower asciiTables].
  generalize true. induction Hs as [|c s Hc Hs IH]; intros start; [constructor|].
  cbn [title_go]. destruct (Ascii.eqb c SP); constructor; try apply IH; try exact Hc.
  destruct start; [|exact Hc]. unfold upper_byte.
  destruct (utf8.in_range 97 122 (byteval c)) eqn:Hr; [|exact Hc].
  unfold utf8.in_range in Hr. apply andb_true_iff in Hr as [H1 H2].
  apply Z.leb_le in H1, H2. rewrite byteval_byte_of; lia.
Qed.

(** ** The sort stage as a whole *)

Lemma Scanner_Text_fits data :
  Forall (fun l => bufio.fits l = true) (bufio.Scanner_Text data).
Proof.
  unfold bufio.Scanner_Text.
  induction (bufio.rawLines data) as [|l raw IH]; simpl; [constructor|].
  destruct (bufio.fits l) eqn:Hl; constructor; [|exact IH].
  unfold bufio.fits in *. apply Z.ltb_lt in Hl. apply Z.ltb_lt.
  pose proof (dropCR_len l). lia.
Qed.

Lemma chunk_files_scan limit file :
  Forall (fun f => bufio.Scanner_Err (snd f) = false
                   /\ bufio.Scanner_Text (snd f)
                      = map bufio.dropCR (chunk_lines f))
         (fst (processFileChunksToTempFiles_with limit file)).
Proof.
  destruct (scatter_chunks limit file) as [Hperm _].
  apply List.Forall_forall. intros f Hf.
  assert (Hfit : forallb bufio.fits (chunk_lines f) = true).
  { apply forallb_forall. intros l Hl.
    pose proof (Scanner_Text_fits file) as HF.
    rewrite List.Forall_forall in HF. apply HF.
    apply list_elem_of_In. rewrite <- Hperm. apply list_elem_of_In.
    apply in_concat. exists (chunk_lines f). split; [|exact Hl].
    now apply in_map. }
  unfold bufio.Scanner_Err, bufio.Scanner_Text. fold (chunk_lines f).
  rewrite Hfit. split; [reflexivity|now apply scan_all_fit].
Qed.

Lemma merge_files_total threshold files :
  Forall (fun file => bufio.Scanner_Err file = false) files ->
  forall st, exists st', merge_files threshold files st = Some st'.
Proof.
  induction 1 as [|file files Hfile Hfiles IH]; intros st; simpl.
  - now exists st.
  - rewrite Hfile. apply IH.
Qed.

Lemma ReadDir_perm d : ReadDir d ≡ₚ d.
Proof. apply merge_sort_Permutation. Qed.

Lemma concat_map_length_perm {A B} (g : A -> list B) (l l' : list A) :
  l ≡ₚ l' -> length (concat (map g l)) = length (concat (map g l')).
Proof.
  induction 1; cbn [map concat]; rewrite ?length_app; lia.
Qed.

(** The sort stage returns an error exactly when its scanner of the
    target does; otherwise it writes no more lines than the target
    held. *)
Lemma SortByAproxFrequency_result target :
  (bufio.Scanner_Err target = true -> SortByAproxFrequency target = None)
  /\ (bufio.Scanner_Err target = false ->
      exists out,
        SortByAproxFrequency target = Some out /\
        (length (lines_written out) <= length (bufio.Scanner_Text target))%nat).
Proof.
  unfold SortByAproxFrequency, processFileChunksToTempFiles.
  pose proof (chunk_files_scan chunkLineCount target) as Hscan.
  destruct (scatter_chunks chunkLineCount target) as [Hperm _].
  unfold processFileChunksToTempFiles_with in *.
  destruct (fold_left (scatter_step chunkLineCount) (bufio.Scanner_Text target)
              ([], 0, [])) as [[lines n] tempDir0].
  cbn [fst] in *.
  set (tempDir := if Z.of_nat (length lines) >? 0
                  then sortAndWriteChunk lines tempDir0 n else tempDir0) in *.
  split; [now intros ->|]. intros ->.
  assert (Hfiles : Forall (fun file => bufio.Scanner_Err file = false)
                          (map snd (ReadDir tempDir))).
  { apply Forall_map. rewrite ReadDir_perm.
    eapply List.Forall_impl; [|exact Hscan]. now intros f [Hf _]. }
  unfold mergeSortedChunks.
  destruct (mergeSortedChunks_with flushThreshold tempDir) as [out|] eqn:Hout.
  - exists out. split; [reflexivity|].
    destruct (mergeSortedChunks_written _ _ _ Hout) as (W & -> & _ & Hle & _).
    eapply Nat.le_trans; [exact Hle|]. apply Nat.eq_le_incl.
    rewrite <- Hperm. unfold lines_consumed. rewrite map_map.
    rewrite <- (concat_map_length_perm chunk_lines _ _ (ReadDir_perm tempDir)).
    assert (Hsub : forall f, In f (ReadDir tempDir) -> In f tempDir).
    { intros f Hf. apply list_elem_of_In. rewrite <- (ReadDir_perm tempDir).
      now apply list_elem_of_In. }
    rewrite List.Forall_forall in Hscan.
    revert Hsub. generalize (ReadDir tempDir). intros fs.
    induction fs as [|f fs IH]; intros Hsub; [reflexivity|].
    cbn [map concat]. rewrite !length_app.
    rewrite IH by (intros g Hg; apply Hsub; now right).
    destruct (Hscan f (Hsub f (or_introl eq_refl))) as [_ ->].
    now rewrite length_map.
  - exfalso. unfold mergeSortedChunks_with in Hout.
    destruct (merge_files_total flushThreshold _ Hfiles (∅, [])) as [[e w] Hm].
    rewrite Hm in Hout. discriminate Hout.
Qed.

(** ** The matcher against the meaning of patterns *)

Section Matcher.
Variable n : nat.

Lemma void_inv i s : ~ re_match n regexp.Void i s.
Proof. intros Hm. inversion Hm. Qed.

Lemma cat_inv a b i s :
  re_match n (regexp.Cat a b) i s ->
  exists s1 s2, s = s1 ++ s2 /\ re_match n a i s1 /\
                re_match n b (i + length s1) s2.
Proof. intros Hm. inversion Hm; subst. eauto 10. Qed.

Lemma alt_inv a b i s :
  re_match n (regexp.Alt a b) i s -> re_match n a i s \/ re_match n b i s.
Proof. intros Hm. inversion Hm; subst; auto. Qed.

Lemma star_inv a i s :
  re_match n (regexp.Star a) i s ->
  s = [] \/
  exists s1 s2, s = s1 ++ s2 /\ s1 <> [] /\ re_match n a i s1 /\
                re_match n (regexp.Star a) (i + length s1) s2.
Proof. intros Hm. inversion Hm; subst; [now left|right; eauto 10]. Qed.

Lemma re_match_nil_inv r i s :
  re_match n r i s -> s = [] ->
  regexp.nullable (i =? 0)%nat (i =? n)%nat r = true.
Proof.
  induction 1 as [| | | | |a b i s1 s2 Ha IHa Hb IHb| | | |a i s1 s2 Hne Ha IHa Hs IHs| |];
    intros E; try discriminate; simpl; try reflexivity.
  - apply app_eq_nil in E as [-> ->]. rewrite Nat.add_0_r in IHb.
    now rewrite IHa, IHb.
  - now rewrite IHre_match.
  - rewrite IHre_match by exact E. apply orb_true_r.
  - apply Nat.eqb_refl.
Qed.

Lemma nullable_match r i :
  regexp.nullable (i =? 0)%nat (i =? n)%nat r = true <-> re_match n r i [].
Proof.
  split; [|intros Hm; now apply (re_match_nil_inv r i [])].
  induction r; simpl; intros Hn; try discriminate.
  - constructor.
  - apply andb_true_iff in Hn as [H1 H2].
    change (@nil Z) with (@nil Z ++ []). constructor; [auto|].
    simpl. rewrite Nat.add_0_r. auto.
  - apply orb_true_iff in Hn as [Hn|Hn]; [apply M_AltL|apply M_AltR]; auto.
  - constructor.
  - apply Nat.eqb_eq in Hn. subst. constructor.
  - apply Nat.eqb_eq in Hn. subst. constructor.
Qed.

Lemma cat_match a b i s :
  re_match n (regexp.cat a b) i s <-> re_match n (regexp.Cat a b) i s.
Proof.
  assert (Hb : regexp.cat a b = regexp.Cat a b \/
               (regexp.cat a b = regexp.Void /\ (a = regexp.Void \/ b = regexp.Void)) \/
               (regexp.cat a b = b /\ a = regexp.Eps)).
  { destruct a; destruct b; simpl; auto 6. }
  destruct Hb as [->|[[-> Hv]|[-> ->]]]; [reflexivity| |].
  - split; intros Hm; [now apply void_inv in Hm|].
    apply cat_inv in Hm as (s1 & s2 & _ & Ha & Hb).
    exfalso. destruct Hv; subst; eapply void_inv; eassumption.
  - split; intros Hm.
    + change s with ([] ++ s). constructor; [constructor|].
      simpl. now rewrite Nat.add_0_r.
    + apply cat_inv in Hm as (s1 & s2 & -> & Ha & Hb).
      inversion Ha; subst. simpl in *. now rewrite Nat.add_0_r in Hb.
Qed.

Lemma alt_match a b i s :
  re_match n (regexp.alt a b) i s <-> re_match n (regexp.Alt a b) i s.
Proof.
  assert (Hb : regexp.alt a b = regexp.Alt a b \/
               (regexp.alt a b = b /\ a = regexp.Void) \/
               (regexp.alt a b = a /\ b = regexp.Void)).
  { destruct a; destruct b; simpl; auto 6. }
  destruct Hb as [->|[[-> ->]|[-> ->]]]; [reflexivity| |].
  - split; intros Hm; [now apply M_AltR|].
    apply alt_inv in Hm as [Hm|Hm]; [now apply void_inv in Hm|exact Hm].
  - split; intros Hm; [now apply M_AltL|].
    apply alt_inv in Hm as [Hm|Hm]; [exact Hm|now apply void_inv in Hm].
Qed.

Lemma deriv_match r : forall i c t,
  (i < n)%nat ->
  (re_match n (regexp.deriv (i =? 0)%nat c r) (S i) t <-> re_match n r i (c :: t)).
Proof.
  assert (Hne : forall i, (i < n)%nat -> (i =? n)%nat = false)
    by (intros; apply Nat.eqb_neq; lia).
  induction r; intros i c t Hi; simpl.
  - split; intros Hm; inversion Hm.
  - split; intros Hm; inversion Hm.
  - destruct (r =? c) eqn:E.
    + apply Z.eqb_eq in E. subst. split; intros Hm; inversion Hm; subst; constructor.
    + apply Z.eqb_neq in E. split; intros Hm; inversion Hm; subst; congruence.
  - destruct (c =? 10) eqn:E.
    + apply Z.eqb_eq in E. split; intros Hm; inversion Hm; subst; congruence.
    + apply Z.eqb_neq in E. split; intros Hm; inversion Hm; subst; now constructor.
  - split; intros Hm; inversion Hm; subst; constructor.
  - destruct (regexp.in_class rs c) eqn:E.
    + split; intros Hm; inversion Hm; subst; now constructor.
    + split; intros Hm; inversion Hm; subst; congruence.
  - rewrite alt_match. split; intros Hm.
    + apply alt_inv in Hm as [Hl|Hr].
      * apply cat_match, cat_inv in Hl as (s1 & s2 & -> & Ha & Hb).
        apply IHr1 in Ha; [|exact Hi].
        change (c :: s1 ++ s2) with ((c :: s1) ++ s2). constructor; [exact Ha|].
        simpl. now rewrite Nat.add_succ_r.
      * destruct (regexp.nullable (i =? 0)%nat false r1) eqn:En;
          [|now apply void_inv in Hr].
        change (c :: t) with ([] ++ c :: t). constructor.
        -- apply nullable_match. now rewrite Hne.
        -- simpl. rewrite Nat.add_0_r. now apply IHr2.
    + apply cat_inv in Hm as (s1 & s2 & E & Ha & Hb).
      destruct s1 as [|c' s1].
      * simpl in E. subst s2. apply M_AltR.
        apply re_match_nil_inv in Ha; [|reflexivity]. rewrite (Hne i Hi) in Ha.
        rewrite Ha. simpl in Hb. rewrite Nat.add_0_r in Hb. now apply IHr2.
      * simpl in E. inversion E; subst. apply M_AltL. apply cat_match.
        constructor; [now apply IHr1|].
        simpl in Hb. now rewrite Nat.add_succ_r in Hb.
  - rewrite alt_match. split; intros Hm; apply alt_inv in Hm as [Hm|Hm].
    + apply M_AltL. now apply IHr1.
    + apply M_AltR. now apply IHr2.
    + apply M_AltL. now apply IHr1.
    + apply M_AltR. now apply IHr2.
  - rewrite cat_match. split; intros Hm.
    + apply cat_inv in Hm as (s1 & s2 & -> & Ha & Hb).
      change (c :: s1 ++ s2) with ((c :: s1) ++ s2).
      constructor; [discriminate|now apply IHr|].
      simpl. now rewrite Nat.add_succ_r.
    + apply star_inv in Hm as [E|(s1 & s2 & E & Hs1 & Ha & Hb)]; [discriminate|].
      destruct s1 as [|c' s1]; [congruence|]. simpl in E. inversion E; subst.
      constructor; [now apply IHr|]. simpl in Hb. now rewrite Nat.add_succ_r in Hb.
  - split; intros Hm; inversion Hm.
  - split; intros Hm; inversion Hm.
Qed.

Lemma matches_match seg : forall r i,
  (i + length seg)%nat = n ->
  (regexp.matches (i =? 0)%nat r seg = true <-> re_match n r i seg).
Proof.
  induction seg as [|c t IH]; intros r i Hlen; simpl.
  - rewrite Nat.add_0_r in Hlen. rewrite <- nullable_match. subst.
    now rewrite Nat.eqb_refl.
  - simpl in Hlen. specialize (IH (regexp.deriv (i =? 0)%nat c r) (S i)).
    simpl in IH. rewrite IH by lia. apply deriv_match. lia.
Qed.

End Matcher.

(** ** ASCII strings *)

Lemma decode_fuel_ascii fuel s :
  is_ascii s -> (length s <= fuel)%nat ->
  utf8.decode_fuel fuel s = map (fun c => (byteval c, [c])) s.
Proof.
  revert s. induction fuel as [|fuel IH]; intros s Hs Hlen.
  - destruct s; [reflexivity|simpl in Hlen; lia].
  - destruct s as [|c t]; [reflexivity|].
    pose proof (List.Forall_inv Hs) as Hc.
    pose proof (List.Forall_inv_tail Hs) as Ht. cbv beta in Hc.
    cbn [utf8.decode_fuel].
    unfold utf8.DecodeRuneInString.
    destruct (byteval c <? utf8.RuneSelf) eqn:E.
    + cbn [firstn skipn map]. change (skipn 0 t) with t.
      rewrite IH; [reflexivity|exact Ht|]. simpl in Hlen. lia.
    + apply Z.ltb_ge in E. unfold utf8.RuneSelf in E. lia.
Qed.

Lemma runes_ascii s : is_ascii s -> utf8.runes s = map byteval s.
Proof.
  intros Hs. unfold utf8.runes, utf8.decode.
  rewrite decode_fuel_ascii by (auto; lia). rewrite map_map. reflexivity.
Qed.

(** ** What the denylist rejects *)

Section Denylist.

Lemma star_any n w : forall i, re_match n (regexp.Star regexp.AnyRune) i w.
Proof.
  induction w as [|c t IH]; intros i; [constructor|].
  change (c :: t) with ([c] ++ t). constructor; [discriminate|constructor|apply IH].
Qed.

Lemma MatchString_iff a s :
  regexp.MatchString a s = true <->
  exists p m q, utf8.runes s = p ++ m ++ q /\
                re_match (length (utf8.runes s)) a (length p) m.
Proof.
  unfold regexp.MatchString. generalize (utf8.runes s). intros w.
  change true with (0 =? 0)%nat at 1.
  rewrite (matches_match (length w) w _ 0%nat) by reflexivity. split.
  - intros Hm. apply cat_inv in Hm as (p & r & E & _ & Hm).
    apply cat_inv in Hm as (m & q & -> & Hm & _). eauto.
  - intros (p & m & q & -> & Hm).
    apply M_Cat; [apply star_any|]. apply M_Cat; [exact Hm|apply star_any].
Qed.

Lemma Alts_match n l a i s :
  In a l -> re_match n a i s -> re_match n (regexp.Alts l) i s.
Proof.
  induction l as [|b l IH]; intros Hin Hm; [destruct Hin|].
  destruct l as [|b' l'].
  - destruct Hin as [->|[]]. exact Hm.
  - change (regexp.Alts (b :: b' :: l'))
      with (regexp.Alt b (regexp.Alts (b' :: l'))).
    destruct Hin as [->|Hin]; [now apply M_AltL|apply M_AltR; now apply IH].
Qed.

Lemma Alts_inv n l i s :
  re_match n (regexp.Alts l) i s -> exists a, In a l /\ re_match n a i s.
Proof.
  induction l as [|b l IH]; intros Hm; [now apply void_inv in Hm|].
  destruct l as [|b' l'].
  - exists b. split; [now left|exact Hm].
  - change (regexp.Alts (b :: b' :: l'))
      with (regexp.Alt b (regexp.Alts (b' :: l'))) in Hm.
    apply alt_inv in Hm as [Hm|Hm].
    + exists b. split; [now left|exact Hm].
    + destruct (IH Hm) as (a & Hin & Ha). exists a. split; [now right|exact Ha].
Qed.

Lemma Str_match n s i : re_match n (regexp.Str s) i (map byteval s).
Proof.
  revert i. induction s as [|c t IH]; intros i; [constructor|].
  destruct t as [|c' t']; [constructor|].
  change (regexp.Str (c :: c' :: t'))
    with (regexp.Cat (regexp.Chr (byteval c)) (regexp.Str (c' :: t'))).
  change (map byteval (c :: c' :: t'))
    with ([byteval c] ++ map byteval (c' :: t')).
  constructor; [constructor|apply IH].
Qed.

Lemma substring_rejected s p m q a :
  utf8.runes s = p ++ m ++ q -> In a alternatives ->
  re_match (length (utf8.runes s)) a (length p) m ->
  IsQualityCandidateCheck s = false.
Proof.
  intros E Hin Hm. unfold IsQualityCandidateCheck. apply negb_false_iff.
  apply MatchString_iff. exists p, m, q. split; [exact E|].
  unfold qualityRegex. now apply (Alts_match _ _ a).
Qed.

(** The checks that hold: on ASCII strings, a string that holds one of
    the listed domains, a string of digits and a string of at most five
    bytes without a newline are rejected. *)
Lemma denylist_domain s p q d :
  is_ascii s -> In d domain_names -> s = p ++ lit d ++ q ->
  IsQualityCandidateCheck s = false.
Proof.
  intros Hs Hd E.
  apply (substring_rejected s (map byteval p) (map byteval (lit d))
           (map byteval q) domains).
  - rewrite runes_ascii by exact Hs. subst s. now rewrite !map_app.
  - now left.
  - unfold domains. apply (Alts_match _ _ (regexp.Str (lit d))).
    + apply in_map_iff. now exists d.
    + apply Str_match.
Qed.

Lemma star_class n rs w : forall i,
  Forall (fun c => regexp.in_class rs c = true) w ->
  re_match n (regexp.Star (regexp.Class rs)) i w.
Proof.
  induction w as [|c t IH]; intros i Hw; [constructor|].
  inversion Hw; subst. change (c :: t) with ([c] ++ t).
  constructor; [discriminate|now constructor|now apply IH].
Qed.

Lemma denylist_digits s :
  s <> [] -> Forall (fun c => 48 <= byteval c <= 57) s ->
  IsQualityCandidateCheck s = false.
Proof.
  intros Hne Hd.
  assert (Hs : is_ascii s).
  { eapply List.Forall_impl; [|exact Hd]. intros c Hc. cbv beta in Hc. lia. }
  apply (substring_rejected s [] (map byteval s) [] re_digits).
  - rewrite runes_ascii by exact Hs. now rewrite app_nil_r.
  - unfold alternatives. simpl. tauto.
  - rewrite runes_ascii by exact Hs. unfold re_digits.
    assert (Hcls : Forall (fun c => regexp.in_class [(48, 57)] c = true)
                          (map byteval s)).
    { apply Forall_map. eapply List.Forall_impl; [|exact Hd].
      intros c Hc. cbv beta in Hc. simpl. rewrite orb_false_r.
      apply andb_true_iff. split; apply Z.leb_le; lia. }
    change (map byteval s) with ([] ++ map byteval s).
    constructor; [constructor|]. simpl length. cbn [Nat.add].
    rewrite <- (app_nil_r (map byteval s)) at 2.
    constructor.
    + unfold regexp.Plus. destruct s as [|c t]; [congruence|].
      inversion Hcls; subst. change (map byteval (c :: t))
        with ([byteval c] ++ map byteval t).
      constructor; [now constructor|now apply star_class].
    + cbn [Nat.add]. constructor.
Qed.

Lemma UpTo_Dot n k w : forall i,
  (length w <= k)%nat -> Forall (fun c => c <> 10) w ->
  re_match n (regexp.UpTo k regexp.Dot) i w.
Proof.
  revert w. induction k as [|k IH]; intros w i Hlen Hw.
  - destruct w; [constructor|simpl in Hlen; lia].
  - cbn [regexp.UpTo]. unfold regexp.Opt. destruct w as [|c t].
    + apply M_AltR. constructor.
    + inversion Hw; subst. apply M_AltL. change (c :: t) with ([c] ++ t).
      constructor; [now constructor|]. apply IH; [simpl in Hlen; lia|assumption].
Qed.

Lemma denylist_short s :
  is_ascii s -> len s <= 5 -> ~ In LF s ->
  IsQualityCandidateCheck s = false.
Proof.
  intros Hs Hlen HLF.
  apply (substring_rejected s [] (map byteval s) [] re_short).
  - rewrite runes_ascii by exact Hs. now rewrite app_nil_r.
  - unfold alternatives. simpl. tauto.
  - rewrite runes_ascii by exact Hs. unfold re_short, regexp.Repeat.
    change (map byteval s) with ([] ++ map byteval s).
    constructor; [constructor|]. simpl length. cbn [Nat.add].
    rewrite <- (app_nil_r (map byteval s)) at 2.
    constructor; [|cbn [Nat.add]; constructor].
    cbn [regexp.Times]. change (map byteval s) with ([] ++ map byteval s).
    constructor; [constructor|]. apply UpTo_Dot.
    + rewrite length_map. unfold len in Hlen. simpl. lia.
    + apply Forall_map. apply List.Forall_forall. intros c Hc E.
      apply HLF. replace LF with c; [exact Hc|].
      apply byteval_inj. rewrite E. reflexivity.
Qed.

(** A string passes the check exactly when no part of it matches one
    of the alternatives. *)
Lemma IsQualityCandidateCheck_iff s :
  IsQualityCandidateCheck s = true <->
  ~ exists p m q a,
      utf8.runes s = p ++ m ++ q /\ In a alternatives /\
      re_match (length (utf8.runes s)) a (length p) m.
Proof.
  unfold IsQualityCandidateCheck. rewrite negb_true_iff, <- not_true_iff_false.
  rewrite MatchString_iff. unfold qualityRegex. split; intros Hn H; apply Hn.
  - destruct H as (p & m & q & a & E & Hin & Hm).
    exists p, m, q. split; [exact E|]. now apply (Alts_match _ _ a).
  - destruct H as (p & m & q & E & Hm). apply Alts_inv in Hm as (a & Hin & Ha).
    exists p, m, q, a. auto.
Qed.

End Denylist.

(** ** The counts of a window *)

Lemma increment_lookup entries line key :
  increment entries line !! key
  = if bool_decide (line = key)
    then Some (default 0 (entries !! key) + 1)
    else entries !! key.
Proof.
  unfold increment. destruct (bool_decide (line = key)) eqn:E.
  - apply bool_decide_eq_true in E. subst. apply lookup_insert_eq.
  - apply bool_decide_eq_false in E. now apply lookup_insert_ne.
Qed.

Lemma fold_increment_lookup window : forall entries key,
  fold_left increment window entries !! key
  = if occurrences key window =? 0 then entries !! key
    else Some (default 0 (entries !! key) + occurrences key window).
Proof.
  unfold occurrences.
  induction window as [|l window IH]; intros entries key; [reflexivity|].
  cbn [fold_left List.filter]. rewrite IH, increment_lookup.
  destruct (bool_decide (l = key)); cbn [length].
  - set (n := length _). clearbody n.
    destruct (Z.eqb_spec (Z.of_nat n) 0), (Z.eqb_spec (Z.of_nat (S n)) 0);
      try lia; cbn [default]; unfold id; f_equal; lia.
  - reflexivity.
Qed.

(** The table of a window holds, for each line of the window, the
    number of times the line occurs in it. *)
Lemma table_of_lookup window key :
  table_of window !! key
  = if occurrences key window =? 0 then None
    else Some (occurrences key window).
Proof.
  unfold table_of. rewrite fold_increment_lookup, lookup_empty.
  destruct (occurrences key window =? 0); reflexivity.
Qed.

Lemma table_of_snoc window line :
  increment (table_of window) line = table_of (window ++ [line]).
Proof. unfold table_of. now rewrite fold_left_app. Qed.

(** A step of the aggregate loop on the table of a window: the table of
    the window with the new line, flushed and emptied when it holds
    more keys than the threshold. *)
Lemma merge_step_window threshold window writer line :
  merge_step threshold (table_of window, writer) line
  = if Z.of_nat (size (table_of (window ++ [line]))) >? threshold
    then (table_of [], flushEntriesToFile (table_of (window ++ [line])) writer)
    else (table_of (window ++ [line]), writer).
Proof. unfold merge_step. now rewrite table_of_snoc. Qed.

Lemma merge_loop_windows threshold texts : forall window writer,
  exists flushed window',
    window ++ texts = flushed ++ window' /\
    fst (fold_left (merge_step threshold) texts (table_of window, writer))
    = table_of window'.
Proof.
  induction texts as [|line texts IH]; intros window writer.
  - exists [], window. now rewrite app_nil_r.
  - cbn [fold_left]. rewrite merge_step_window.
    destruct (Z.of_nat (size (table_of (window ++ [line]))) >? threshold).
    + destruct (IH [] (flushEntriesToFile (table_of (window ++ [line])) writer))
        as (flushed & window' & E & Ht).
      exists ((window ++ [line]) ++ flushed), window'. split; [|exact Ht].
      rewrite <- !app_assoc. cbn [app]. simpl in E. now rewrite E.
    + destruct (IH (window ++ [line]) writer) as (flushed & window' & E & Ht).
      exists flushed, window'. split; [|exact Ht].
      rewrite <- E, <- app_assoc. reflexivity.
Qed.

(** * The rest of the code *)

(** ** Runes and bytes *)

Lemma lor_ge_l a b : 0 <= a -> 0 <= b -> a <= Z.lor a b.
Proof.
  intros Ha Hb. apply (Z.ldiff_le a (Z.lor a b)).
  - apply Z.lor_nonneg; auto.
  - apply Z.bits_inj'. intros n Hn.
    rewrite Z.ldiff_spec, Z.lor_spec, Z.bits_0.
    destruct (Z.testbit a n), (Z.testbit b n); reflexivity.
Qed.

Lemma lor_ge_r a b : 0 <= a -> 0 <= b -> b <= Z.lor a b.
Proof. intros. rewrite Z.lor_comm. now apply lor_ge_l. Qed.

Lemma land_63 x : 0 <= x -> Z.land x 63 = x mod 64.
Proof. intros. change 63 with (Z.ones 6). now rewrite Z.land_ones. Qed.

Lemma land_31 x : 0 <= x -> Z.land x 31 = x mod 32.
Proof. intros. change 31 with (Z.ones 5). now rewrite Z.land_ones. Qed.

Lemma land_15 x : 0 <= x -> Z.land x 15 = x mod 16.
Proof. intros. change 15 with (Z.ones 4). now rewrite Z.land_ones. Qed.

Lemma land_7 x : 0 <= x -> Z.land x 7 = x mod 8.
Proof. intros. change 7 with (Z.ones 3). now rewrite Z.land_ones. Qed.

Lemma first_cases s0 sz lo hi :
  utf8.first s0 = Some (sz, (lo, hi)) ->
  128 <= lo /\ hi <= 191 /\
  ((sz = 2%nat /\ 194 <= s0 <= 223) \/
   (sz = 3%nat /\ 224 <= s0 <= 239 /\ (s0 = 224 -> lo = 160)) \/
   (sz = 4%nat /\ 240 <= s0 <= 244 /\ (s0 = 240 -> lo = 144))).
Proof.
  unfold utf8.first, utf8.in_range. intros H.
  repeat match type of H with
         | (if ?c then _ else _) = _ => destruct c eqn:?
         end; inversion H; subst; lia.
Qed.

(** The rune decoded at a byte that is not ASCII is not ASCII, and its
    bytes are not ASCII either. *)
Lemma DecodeRuneInString_high c t :
  128 <= byteval c ->
  let '(r, w) := utf8.DecodeRuneInString (c :: t) in
  128 <= r /\ (1 <= w <= length (c :: t))%nat /\
  Forall (fun b => 128 <= byteval b) (firstn w (c :: t)).
Proof.
  intros Hc.
  assert (Hone : Forall (fun b => 128 <= byteval b) (firstn 1 (c :: t))).
  { simpl. constructor; [exact Hc|constructor]. }
  assert (Hlen1 : (1 <= 1 <= length (c :: t))%nat) by (simpl; lia).
  assert (Herr : 128 <= utf8.RuneError) by (unfold utf8.RuneError; lia).
  unfold utf8.DecodeRuneInString.
  destruct (byteval c <? utf8.RuneSelf) eqn:E;
    [unfold utf8.RuneSelf in E; lia|].
  destruct (utf8.first (byteval c)) as [[sz [lo hi]]|] eqn:F; [|auto].
  apply first_cases in F. destruct F as [Hlo [Hhi F]].
  destruct (length (firstn 4 (c :: t)) <? sz)%nat eqn:L; [auto|].
  apply Nat.ltb_ge in L.
  assert (Hlen : (sz <= length (c :: t))%nat).
  { rewrite length_firstn in L. lia. }
  pose proof (byteval_range c) as Rc.
  destruct (negb (utf8.in_range lo hi (utf8.at_ (c :: t) 1))) eqn:R1; [auto|].
  apply negb_false_iff in R1. unfold utf8.in_range in R1.
  apply andb_true_iff in R1. rewrite !Z.leb_le in R1.
  set (s1 := utf8.at_ (c :: t) 1) in *.
  assert (Rs1 : 0 <= s1 < 256) by apply byteval_range.
  destruct t as [|c1 t]; [simpl in Hlen; destruct F as [[-> _]|[[-> _]|[-> _]]]; lia|].
  assert (Hs1 : s1 = byteval c1) by reflexivity.
  destruct (sz <=? 2)%nat eqn:S2.
  { split; [|split].
    - destruct F as [[_ F]|[[-> _]|[-> _]]]; try discriminate S2.
      etransitivity; [|apply lor_ge_l].
      + rewrite Z.shiftl_mul_pow2, land_31 by lia.
        change (2 ^ 6) with 64. Z.div_mod_to_equations. lia.
      + apply Z.shiftl_nonneg, Z.land_nonneg. lia.
      + apply Z.land_nonneg. lia.
    - simpl. lia.
    - simpl. repeat constructor; lia. }
  destruct (negb (utf8.in_range 128 191 (utf8.at_ (c :: c1 :: t) 2))) eqn:R2; [auto|].
  apply negb_false_iff in R2. unfold utf8.in_range in R2.
  apply andb_true_iff in R2. rewrite !Z.leb_le in R2.
  set (s2 := utf8.at_ (c :: c1 :: t) 2) in *.
  assert (Rs2 : 0 <= s2 < 256) by apply byteval_range.
  destruct t as [|c2 t]; [simpl in Hlen; destruct F as [[-> _]|[[-> _]|[-> _]]]; try discriminate S2; lia|].
  assert (Hs2 : s2 = byteval c2) by reflexivity.
  destruct (sz <=? 3)%nat eqn:S3.
  { split; [|split].
    - destruct F as [[-> _]|[[_ [F F0]]|[-> _]]]; try discriminate.
      etransitivity; [|apply lor_ge_l].
      + destruct (Z.eq_dec (byteval c) 224) as [E224|N224].
        * etransitivity; [|apply lor_ge_r].
          -- rewrite Z.shiftl_mul_pow2, land_63 by lia.
             change (2 ^ 6) with 64. specialize (F0 E224).
             Z.div_mod_to_equations. lia.
          -- apply Z.shiftl_nonneg, Z.land_nonneg. lia.
          -- apply Z.shiftl_nonneg, Z.land_nonneg. lia.
        * etransitivity; [|apply lor_ge_l].
          -- rewrite Z.shiftl_mul_pow2, land_15 by lia.
             change (2 ^ 12) with 4096. Z.div_mod_to_equations. lia.
          -- apply Z.shiftl_nonneg, Z.land_nonneg. lia.
          -- apply Z.shiftl_nonneg, Z.land_nonneg. lia.
      + apply Z.lor_nonneg. split; apply Z.shiftl_nonneg, Z.land_nonneg; lia.
      + apply Z.land_nonneg. lia.
    - simpl. lia.
    - simpl. repeat constructor; lia. }
  destruct (negb (utf8.in_range 128 191 (utf8.at_ (c :: c1 :: c2 :: t) 3))) eqn:R3; [auto|].
  apply negb_false_iff in R3. unfold utf8.in_range in R3.
  apply andb_true_iff in R3. rewrite !Z.leb_le in R3.
  set (s3 := utf8.at_ (c :: c1 :: c2 :: t) 3) in *.
  assert (Rs3 : 0 <= s3 < 256) by apply byteval_range.
  destruct t as [|c3 t]; [simpl in Hlen; destruct F as [[-> _]|[[-> _]|[-> _]]]; try discriminate; lia|].
  assert (Hs3 : s3 = byteval c3) by reflexivity.
  split; [|split].
  - destruct F as [[-> _]|[[-> _]|[_ [F F0]]]]; try discriminate.
    etransitivity; [|apply lor_ge_l].
    + etransitivity; [|apply lor_ge_l].
      * destruct (Z.eq_dec (byteval c) 240) as [E240|N240].
        -- etransitivity; [|apply lor_ge_r].
           ++ rewrite Z.shiftl_mul_pow2, land_63 by lia.
              change (2 ^ 12) with 4096. specialize (F0 E240).
              Z.div_mod_to_equations. lia.
           ++ apply Z.shiftl_nonneg, Z.land_nonneg. lia.
           ++ apply Z.shiftl_nonneg, Z.land_nonneg. lia.
        -- etransitivity; [|apply lor_ge_l].
           ++ rewrite Z.shiftl_mul_pow2, land_7 by lia.
              change (2 ^ 18) with 262144. Z.div_mod_to_equations. lia.
           ++ apply Z.shiftl_nonneg, Z.land_nonneg. lia.
           ++ apply Z.shiftl_nonneg, Z.land_nonneg. lia.
      * apply Z.lor_nonneg. split; apply Z.shiftl_nonneg, Z.land_nonneg; lia.
      * apply Z.shiftl_nonneg, Z.land_nonneg. lia.
    + apply Z.lor_nonneg. split; [apply Z.lor_nonneg; split|];
        apply Z.shiftl_nonneg, Z.land_nonneg; lia.
    + apply Z.land_nonneg. lia.
  - assert (sz = 4%nat) as ->.
    { destruct F as [[-> _]|[[-> _]|[-> _]]]; try discriminate; reflexivity. }
    simpl. lia.
  - assert (sz = 4%nat) as ->.
    { destruct F as [[-> _]|[[-> _]|[-> _]]]; try discriminate; reflexivity. }
    simpl. repeat constructor; lia.
Qed.

Lemma DecodeRuneInString_low c t :
  byteval c < 128 -> utf8.DecodeRuneInString (c :: t) = (byteval c, 1%nat).
Proof.
  intros H. unfold utf8.DecodeRuneInString.
  destruct (byteval c <? utf8.RuneSelf) eqn:E; [reflexivity|].
  unfold utf8.RuneSelf in E. lia.
Qed.

Lemma decode_fuel_low fuel c t :
  byteval c < 128 ->
  utf8.decode_fuel (S fuel) (c :: t) = (byteval c, [c]) :: utf8.decode_fuel fuel t.
Proof.
  intros H. cbn [utf8.decode_fuel]. now rewrite (DecodeRuneInString_low c t H).
Qed.

Lemma decode_fuel_high fuel c t :
  128 <= byteval c ->
  exists r w,
    128 <= r /\ (1 <= w <= length (c :: t))%nat /\
    Forall (fun b => 128 <= byteval b) (firstn w (c :: t)) /\
    utf8.decode_fuel (S fuel) (c :: t)
    = (r, firstn w (c :: t)) :: utf8.decode_fuel fuel (skipn w (c :: t)).
Proof.
  intros H. pose proof (DecodeRuneInString_high c t H) as D.
  cbn [utf8.decode_fuel].
  destruct (utf8.DecodeRuneInString (c :: t)) as [r w].
  exists r, w. tauto.
Qed.

Section RunesAndBytes.
Context {T : GoTables}.

Lemma onlyASCII_loop_bytes fuel : forall s,
  (length s <= fuel)%nat ->
  onlyASCII_loop (map fst (utf8.decode_fuel fuel s))
  = forallb (fun c => byteval c <? 128) s.
Proof.
  induction fuel as [|fuel IH]; intros [|c t] Hl; try reflexivity.
  - simpl in Hl. lia.
  - simpl in Hl. destruct (Z_lt_dec (byteval c) 128) as [Lo|Hi].
    + rewrite decode_fuel_low by exact Lo. cbn [map fst onlyASCII_loop forallb].
      unfold unicode.MaxASCII.
      destruct (byteval c >? 127) eqn:G; [lia|].
      destruct (byteval c <? 128) eqn:G'; [|lia].
      apply IH. lia.
    + destruct (decode_fuel_high fuel c t) as (r & w & Hr & Hw & _ & ->); [lia|].
      cbn [map fst onlyASCII_loop forallb]. unfold unicode.MaxASCII.
      destruct (r >? 127) eqn:G; [|lia].
      destruct (byteval c <? 128) eqn:G'; [lia|reflexivity].
Qed.

Lemma ContainsOnlyASCII_bytes s :
  ContainsOnlyASCII s = forallb (fun c => byteval c <? 128) s.
Proof. unfold ContainsOnlyASCII, utf8.runes, utf8.decode. now apply onlyASCII_loop_bytes. Qed.

Lemma ContainsOnlyASCII_is_ascii s : ContainsOnlyASCII s = true <-> is_ascii s.
Proof.
  rewrite ContainsOnlyASCII_bytes, forallb_forall. unfold is_ascii.
  rewrite List.Forall_forall. split; intros H c Hc; specialize (H c Hc);
    cbv beta in *; now apply Z.ltb_lt.
Qed.

Lemma low_byte_is_rune fuel : forall s c,
  (length s <= fuel)%nat -> In c s -> byteval c < 128 ->
  In (byteval c) (map fst (utf8.decode_fuel fuel s)).
Proof.
  induction fuel as [|fuel IH]; intros [|c0 t] c Hl Hin Hc;
    try (now destruct Hin); try (simpl in Hl; lia).
  simpl in Hl. destruct (Z_lt_dec (byteval c0) 128) as [Lo|Hi].
  - rewrite decode_fuel_low by exact Lo. cbn [map fst].
    destruct Hin as [->|Hin]; [now left|right]. apply IH; [lia|assumption..].
  - destruct (decode_fuel_high fuel c0 t) as (r & w & Hr & Hw & Hb & ->); [lia|].
    cbn [map fst]. right. apply IH; [| |assumption].
    + rewrite length_skipn. simpl in *. lia.
    + rewrite <- (firstn_skipn w (c0 :: t)) in Hin.
      apply in_app_or in Hin. destruct Hin as [Hin|Hin]; [|exact Hin].
      rewrite List.Forall_forall in Hb. specialize (Hb c Hin). cbv beta in Hb. lia.
Qed.

Lemma low_rune_is_byte fuel : forall s r,
  In r (map fst (utf8.decode_fuel fuel s)) -> r < 128 ->
  exists c, In c s /\ byteval c = r.
Proof.
  induction fuel as [|fuel IH]; intros [|c0 t] r Hin Hr; try (now destruct Hin).
  destruct (Z_lt_dec (byteval c0) 128) as [Lo|Hi].
  - rewrite decode_fuel_low in Hin by exact Lo. cbn [map fst] in Hin.
    destruct Hin as [<-|Hin]; [exists c0; split; [now left|reflexivity]|].
    destruct (IH t r Hin Hr) as (c & Hc & E). exists c. split; [now right|exact E].
  - destruct (decode_fuel_high fuel c0 t) as (r0 & w & Hr0 & Hw & Hb & E); [lia|].
    rewrite E in Hin. cbn [map fst] in Hin.
    destruct Hin as [<-|Hin]; [lia|].
    destruct (IH _ r Hin Hr) as (c & Hc & E'). exists c. split; [|exact E'].
    now apply (incl_skipn w).
Qed.

Lemma hasLetter_loop_existsb rs :
  hasLetter_loop rs = existsb unicode.IsLetter rs.
Proof.
  induction rs as [|r rs IH]; [reflexivity|]. simpl.
  now destruct (unicode.IsLetter r).
Qed.

Lemma isVowel_letter v : isVowel v = true -> v < 128 /\ unicode.IsLetter v = true.
Proof.
  unfold isVowel. cbn [existsb]. rewrite !orb_true_iff, !Z.eqb_eq.
  intros H. unfold unicode.IsLetter, unicode.MaxASCII, unicode.ascii_letter, utf8.in_range.
  repeat destruct H as [H|H]; try discriminate H; subst v; split; try lia; reflexivity.
Qed.

Lemma slice_incl {A} (x : list A) i j : incl (slice x i j) x.
Proof.
  unfold slice. intros a Ha. apply (incl_skipn i). now apply (incl_firstn (j - i)).
Qed.

Lemma LikelyContainsWords_has_letter s :
  LikelyContainsWords s = true -> IsAllDigitsOrSpecialChars s = false.
Proof.
  rewrite LikelyContainsWords_eq, andb_true_iff, existsb_exists.
  intros [_ (i & _ & W)].
  unfold window_qualifies in W. apply andb_true_iff in W. destruct W as [W _].
  apply existsb_exists in W. destruct W as (v & Hv & Vv).
  destruct (isVowel_letter v Vv) as [Hlow Hlet].
  destruct (low_rune_is_byte _ _ v Hv Hlow) as (c & Hc & <-).
  apply slice_incl in Hc.
  unfold IsAllDigitsOrSpecialChars. rewrite hasLetter_loop_existsb.
  apply negb_false_iff, existsb_exists. exists (byteval c). split; [|exact Hlet].
  apply low_byte_is_rune; [reflexivity|exact Hc|exact Hlow].
Qed.

Lemma wordlike_two_tests s :
  wordlike s = ContainsOnlyASCII s && LikelyContainsWords s.
Proof.
  unfold wordlike. destruct (LikelyContainsWords s) eqn:L.
  - now rewrite (LikelyContainsWords_has_letter s L).
  - now rewrite !andb_false_r.
Qed.

Lemma filter_ext_bool {A} (f g : A -> bool) (l : list A) :
  (forall a, f a = g a) -> List.filter f l = List.filter g l.
Proof. intros E. induction l as [|a l IH]; simpl; [reflexivity|]. now rewrite E, IH. Qed.

Lemma slice_middle (p s q : list ascii) i :
  (i + 5 <= length s)%nat ->
  slice (p ++ s ++ q) (length p + i) (length p + i + 5) = slice s i (i + 5).
Proof.
  intros H. unfold slice.
  replace (length p + i + 5 - (length p + i))%nat with 5%nat by lia.
  replace (i + 5 - i)%nat with 5%nat by lia.
  rewrite skipn_app, (skipn_all2 p) by lia.
  replace (length p + i - length p)%nat with i by lia. cbn [app].
  rewrite skipn_app, firstn_app.
  replace (5 - length (skipn i s))%nat with 0%nat by (rewrite length_skipn; lia).
  cbn [firstn]. now rewrite app_nil_r.
Qed.

Lemma LikelyContainsWords_extend p s q :
  LikelyContainsWords s = true -> LikelyContainsWords (p ++ s ++ q) = true.
Proof.
  rewrite !LikelyContainsWords_eq, !andb_true_iff, !existsb_exists.
  intros [Hl (i & Hi & W)]. apply in_seq in Hi.
  assert (Hlen : (5 <= length s)%nat).
  { apply Z.leb_le in Hl. unfold len in Hl. lia. }
  split.
  - apply Z.leb_le. unfold len. rewrite !length_app. lia.
  - exists (length p + i)%nat. split.
    + apply in_seq. rewrite !length_app. lia.
    + rewrite slice_middle by lia. exact W.
Qed.

End RunesAndBytes.

Lemma decode_fuel_concat fuel : forall s,
  (length s <= fuel)%nat -> concat (map snd (utf8.decode_fuel fuel s)) = s.
Proof.
  induction fuel as [|fuel IH]; intros [|c t] Hl; try reflexivity;
    try (simpl in Hl; lia).
  simpl in Hl. destruct (Z_lt_dec (byteval c) 128) as [Lo|Hi].
  - rewrite decode_fuel_low by exact Lo. cbn [map snd concat app].
    rewrite IH by lia. reflexivity.
  - destruct (decode_fuel_high fuel c t) as (r & w & Hr & Hw & Hb & ->); [lia|].
    cbn [map snd concat]. rewrite IH.
    + apply firstn_skipn.
    + rewrite length_skipn. simpl in *. lia.
Qed.

Lemma isDigit_high r : 128 <= r -> isDigit r = false.
Proof. intros H. unfold isDigit. destruct (r <=? 57) eqn:E; [lia|apply andb_false_r]. Qed.

Lemma trimLeft_go_digits fuel : forall s,
  (length s <= fuel)%nat ->
  strings.trimLeft_go isDigit (utf8.decode_fuel fuel s) = cut_leading_digits s.
Proof.
  induction fuel as [|fuel IH]; intros [|c t] Hl; try reflexivity;
    try (simpl in Hl; lia).
  simpl in Hl. destruct (Z_lt_dec (byteval c) 128) as [Lo|Hi].
  - rewrite decode_fuel_low by exact Lo.
    cbn [strings.trimLeft_go cut_leading_digits]. unfold digit_byte.
    destruct (isDigit (byteval c)); [apply IH; lia|].
    rewrite decode_fuel_concat by lia. reflexivity.
  - destruct (decode_fuel_high fuel c t) as (r & w & Hr & Hw & Hb & ->); [lia|].
    cbn [strings.trimLeft_go cut_leading_digits]. unfold digit_byte.
    rewrite (isDigit_high r Hr), (isDigit_high (byteval c)) by lia.
    rewrite decode_fuel_concat.
    + apply firstn_skipn.
    + rewrite length_skipn. simpl in *. lia.
Qed.

Lemma TrimLeftFunc_isDigit s :
  strings.TrimLeftFunc s isDigit = cut_leading_digits s.
Proof. unfold strings.TrimLeftFunc, utf8.decode. now apply trimLeft_go_digits. Qed.

(** Decoding from the end *)

Lemma DecodeLast_low y c :
  byteval c < 128 -> utf8.DecodeLastRuneInString (y ++ [c]) = (byteval c, 1%nat).
Proof.
  intros H. unfold utf8.DecodeLastRuneInString. rewrite rev_app_distr. cbn [rev app].
  destruct (byteval c <? utf8.RuneSelf) eqn:E; [reflexivity|].
  unfold utf8.RuneSelf in E. lia.
Qed.

Lemma DecodeRune_wide_high c t r sz :
  utf8.DecodeRuneInString (c :: t) = (r, sz) -> (2 <= sz)%nat -> 128 <= byteval c.
Proof.
  intros H Hs. destruct (Z_lt_dec (byteval c) 128) as [Lo|Hi]; [|lia].
  rewrite DecodeRuneInString_low in H by exact Lo. inversion H. lia.
Qed.

Lemma DecodeLast_high y c :
  128 <= byteval c ->
  exists r size,
    utf8.DecodeLastRuneInString (y ++ [c]) = (r, size) /\ 128 <= r /\
    (size = 1%nat \/
     ((2 <= size <= length (y ++ [c]))%nat /\
      utf8.DecodeRuneInString (skipn (length (y ++ [c]) - size) (y ++ [c]))
      = (r, size))).
Proof.
  intros H. unfold utf8.DecodeLastRuneInString. rewrite rev_app_distr. cbn [rev app].
  destruct (byteval c <? utf8.RuneSelf) eqn:E;
    [unfold utf8.RuneSelf in E; lia|].
  set (k := utf8.back_start 2 3 (rev y)).
  assert (Hk : (1 <= k)%nat).
  { subst k. generalize (rev y). intros l.
    destruct l as [|a [|b [|d l]]]; simpl;
      repeat match goal with |- context [if ?c then _ else _] => destruct c end; lia. }
  clearbody k.
  destruct (utf8.DecodeRuneInString (skipn (length (y ++ [c]) - k) (y ++ [c])))
    as [r' size] eqn:D.
  destruct (size =? k)%nat eqn:Ek.
  - apply Nat.eqb_eq in Ek. subst k. exists r', size. split; [reflexivity|].
    destruct (skipn (length (y ++ [c]) - size) (y ++ [c])) as [|c0 w] eqn:W.
    { inversion D. lia. }
    assert (Hlen : (length (c0 :: w) <= length (y ++ [c]))%nat).
    { rewrite <- W, length_skipn. lia. }
    destruct (le_lt_dec 2 size) as [L2|L1].
    + pose proof (DecodeRune_wide_high c0 w r' size D L2) as Hc0.
      pose proof (DecodeRuneInString_high c0 w Hc0) as Hh. rewrite D in Hh.
      destruct Hh as (Hr & Hw & _).
      split; [exact Hr|]. right. split; [lia|exact D].
    + assert (size = 1%nat) as -> by lia.
      assert (Hw : c0 :: w = [c]).
      { rewrite <- W. rewrite length_app. cbn [length].
        replace (length y + 1 - 1)%nat with (length y) by lia.
        rewrite skipn_app, skipn_all, Nat.sub_diag. reflexivity. }
      inversion Hw; subst c0 w.
      pose proof (DecodeRuneInString_high c [] H) as Hh. rewrite D in Hh.
      split; [tauto|now left].
  - exists utf8.RuneError, 1%nat. split; [reflexivity|].
    split; [unfold utf8.RuneError; lia|now left].
Qed.

Lemma at_app a b j : (j < length a)%nat -> utf8.at_ (a ++ b) j = utf8.at_ a j.
Proof. intros H. unfold utf8.at_. now rewrite app_nth1. Qed.

(** A sequence of two bytes or more decodes the same with bytes after it. *)
Lemma DecodeRune_app w ds r sz :
  utf8.DecodeRuneInString w = (r, sz) -> (2 <= sz)%nat ->
  utf8.DecodeRuneInString (w ++ ds) = (r, sz).
Proof.
  intros D Hs. destruct w as [|c0 w]; [inversion D; lia|].
  pose proof (DecodeRune_wide_high c0 w r sz D Hs) as Hc0.
  revert D. cbn [app]. unfold utf8.DecodeRuneInString.
  destruct (byteval c0 <? utf8.RuneSelf) eqn:E;
    [unfold utf8.RuneSelf in E; lia|].
  destruct (utf8.first (byteval c0)) as [[sz' [lo hi]]|] eqn:F;
    [|intros D; inversion D; lia].
  apply first_cases in F. destruct F as (_ & _ & F).
  destruct (length (firstn 4 (c0 :: w)) <? sz')%nat eqn:L;
    [intros D; inversion D; lia|].
  apply Nat.ltb_ge in L. rewrite length_firstn in L.
  assert (L' : (length (firstn 4 (c0 :: w ++ ds)) <? sz')%nat = false).
  { apply Nat.ltb_ge. rewrite length_firstn. cbn [length] in *. rewrite length_app. lia. }
  rewrite L'.
  change (c0 :: w ++ ds) with ((c0 :: w) ++ ds).
  assert (H1 : utf8.at_ ((c0 :: w) ++ ds) 1 = utf8.at_ (c0 :: w) 1).
  { apply at_app. destruct F as [[-> _]|[[-> _]|[-> _]]]; lia. }
  rewrite H1.
  destruct (negb (utf8.in_range lo hi (utf8.at_ (c0 :: w) 1))); [auto|].
  destruct (sz' <=? 2)%nat eqn:S2; [auto|].
  assert (H2 : utf8.at_ ((c0 :: w) ++ ds) 2 = utf8.at_ (c0 :: w) 2).
  { apply at_app. destruct F as [[-> _]|[[-> _]|[-> _]]]; try discriminate S2; lia. }
  rewrite H2.
  destruct (negb (utf8.in_range 128 191 (utf8.at_ (c0 :: w) 2))); [auto|].
  destruct (sz' <=? 3)%nat eqn:S3; [auto|].
  assert (H3 : utf8.at_ ((c0 :: w) ++ ds) 3 = utf8.at_ (c0 :: w) 3).
  { apply at_app. destruct F as [[-> _]|[[-> _]|[-> _]]]; try discriminate; lia. }
  rewrite H3. auto.
Qed.

(** A byte that is not ASCII, followed by digits only, is a rune of
    width 1. *)
Lemma DecodeRune_high_digits c ds :
  128 <= byteval c -> Forall (fun d => digit_byte d = true) ds ->
  snd (utf8.DecodeRuneInString (c :: ds)) = 1%nat.
Proof.
  intros Hc Hd. unfold utf8.DecodeRuneInString.
  destruct (byteval c <? utf8.RuneSelf); [reflexivity|].
  destruct (utf8.first (byteval c)) as [[sz [lo hi]]|] eqn:F; [|reflexivity].
  apply first_cases in F. destruct F as (Hlo & _ & F).
  destruct (length (firstn 4 (c :: ds)) <? sz)%nat eqn:L; [reflexivity|].
  apply Nat.ltb_ge in L. rewrite length_firstn in L.
  destruct ds as [|d ds]; [simpl in L; destruct F as [[-> _]|[[-> _]|[-> _]]]; lia|].
  inversion Hd as [|? ? Hd1 _]; subst.
  unfold digit_byte, isDigit in Hd1. apply andb_true_iff in Hd1.
  assert (Hat : utf8.at_ (c :: d :: ds) 1 = byteval d) by reflexivity.
  rewrite Hat. unfold utf8.in_range.
  destruct (lo <=? byteval d) eqn:E; [lia|reflexivity].
Qed.

Lemma lastIndexFunc_go_step fuel f y c :
  strings.lastIndexFunc_go (S fuel) f (y ++ [c])
  = let '(r, size) := utf8.DecodeLastRuneInString (y ++ [c]) in
    let i := (length (y ++ [c]) - size)%nat in
    if f r then strings.lastIndexFunc_go fuel f (firstn i (y ++ [c])) else Some i.
Proof. destruct y; reflexivity. Qed.

Lemma lastIndexFunc_go_digits ds : forall x fuel,
  Forall (fun d => digit_byte d = true) ds ->
  strings.lastIndexFunc_go (length ds + fuel) isDigit (x ++ ds)
  = strings.lastIndexFunc_go fuel isDigit x.
Proof.
  induction ds as [|d ds IH] using rev_ind; intros x fuel Hd.
  - now rewrite app_nil_r.
  - apply Forall_app in Hd. destruct Hd as [Hds Hd].
    inversion Hd as [|? ? Hd1 _]; subst.
    rewrite length_app. cbn [length].
    replace (length ds + 1 + fuel)%nat with (S (length ds + fuel)) by lia.
    rewrite app_assoc, lastIndexFunc_go_step.
    assert (Lo : byteval d < 128).
    { unfold digit_byte, isDigit in Hd1. apply andb_true_iff in Hd1. lia. }
    rewrite DecodeLast_low by exact Lo.
    unfold digit_byte in Hd1. rewrite Hd1.
    rewrite length_app. cbn [length].
    replace (length (x ++ ds) + 1 - 1)%nat with (length (x ++ ds)) by lia.
    rewrite firstn_app, firstn_all, Nat.sub_diag. cbn [firstn].
    rewrite app_nil_r. now apply IH.
Qed.

Lemma cut_leading_digits_spec l :
  exists ds, l = ds ++ cut_leading_digits l /\
             Forall (fun d => digit_byte d = true) ds /\
             (cut_leading_digits l = [] \/
              exists c t, cut_leading_digits l = c :: t /\ digit_byte c = false).
Proof.
  induction l as [|c l IH]; [exists []; simpl; auto|].
  cbn [cut_leading_digits]. destruct (digit_byte c) eqn:E.
  - destruct IH as (ds & E1 & F & H). exists (c :: ds).
    split; [simpl; congruence|]. split; [now constructor|exact H].
  - exists []. split; [reflexivity|]. split; [constructor|].
    right. now exists c, l.
Qed.

Lemma cut_trailing_digits_spec s :
  exists ds, s = cut_trailing_digits s ++ ds /\
             Forall (fun d => digit_byte d = true) ds /\
             (cut_trailing_digits s = [] \/
              exists y c, cut_trailing_digits s = y ++ [c] /\ digit_byte c = false).
Proof.
  unfold cut_trailing_digits.
  destruct (cut_leading_digits_spec (rev s)) as (ds & E & F & H).
  exists (rev ds). split; [|split].
  - rewrite <- rev_app_distr, <- E. now rewrite rev_involutive.
  - apply Forall_rev. exact F.
  - destruct H as [->|(c & t & -> & Hc)]; [now left|right].
    exists (rev t), c. split; [reflexivity|exact Hc].
Qed.

Lemma TrimRightFunc_isDigit s :
  strings.TrimRightFunc s isDigit = cut_trailing_digits s.
Proof.
  destruct (cut_trailing_digits_spec s) as (ds & E & F & H).
  set (pre := cut_trailing_digits s) in *. clearbody pre.
  unfold strings.TrimRightFunc.
  rewrite E at 1 2. rewrite length_app, (Nat.add_comm (length pre)).
  rewrite lastIndexFunc_go_digits by exact F.
  destruct H as [->|(y & c & -> & Hc)]; [reflexivity|].
  rewrite length_app. cbn [length]. rewrite Nat.add_1_r.
  rewrite lastIndexFunc_go_step.
  destruct (Z_lt_dec (byteval c) 128) as [Lo|Hi].
  - rewrite DecodeLast_low by exact Lo.
    unfold digit_byte in Hc. rewrite Hc.
    rewrite length_app. cbn [length].
    replace (length y + 1 - 1)%nat with (length y) by lia.
    assert (Hat : utf8.at_ s (length y) = byteval c).
    { rewrite E. unfold utf8.at_. rewrite <- app_assoc. rewrite app_nth2 by lia.
      now rewrite Nat.sub_diag. }
    rewrite Hat. destruct (utf8.RuneSelf <=? byteval c) eqn:R;
      [unfold utf8.RuneSelf in R; lia|].
    rewrite E. rewrite <- app_assoc.
    replace (S (length y)) with (length (y ++ [c])) by (rewrite length_app; simpl; lia).
    rewrite app_assoc. rewrite firstn_app, firstn_all, Nat.sub_diag. cbn [firstn].
    now rewrite app_nil_r.
  - destruct (DecodeLast_high y c) as (r & size & D & Hr & Hsz); [lia|].
    rewrite D. rewrite (isDigit_high r Hr).
    destruct Hsz as [->|[Hsz Dw]].
    + rewrite length_app. cbn [length].
      replace (length y + 1 - 1)%nat with (length y) by lia.
      assert (Hat : utf8.at_ s (length y) = byteval c).
      { rewrite E. unfold utf8.at_. rewrite <- app_assoc. rewrite app_nth2 by lia.
        now rewrite Nat.sub_diag. }
      rewrite Hat. destruct (utf8.RuneSelf <=? byteval c) eqn:R;
        [|unfold utf8.RuneSelf in R; lia].
      assert (Hsk : skipn (length y) s = c :: ds).
      { rewrite E, <- app_assoc, skipn_app, skipn_all, Nat.sub_diag. reflexivity. }
      rewrite Hsk, DecodeRune_high_digits by (try lia; exact F).
      rewrite E.
      replace (length y + 1)%nat with (length (y ++ [c])) by (rewrite length_app; simpl; lia).
      rewrite firstn_app, firstn_all, Nat.sub_diag. cbn [firstn].
      now rewrite app_nil_r.
    + cbv zeta.
      remember (length (y ++ [c]) - size)%nat as i eqn:Ei.
      remember (skipn i (y ++ [c])) as w eqn:Ew.
      assert (Hw : length w = size).
      { subst w. rewrite length_skipn. lia. }
      assert (Hsk : skipn i s = w ++ ds).
      { rewrite E, skipn_app. replace (i - length (y ++ [c]))%nat with 0%nat by lia.
        now rewrite Ew. }
      destruct w as [|c0 w']; [simpl in Hw; lia|].
      pose proof (DecodeRune_wide_high c0 w' r size Dw (proj1 Hsz)) as Hc0.
      assert (Hat : utf8.at_ s i = byteval c0).
      { unfold utf8.at_. rewrite <- (firstn_skipn i s) at 1.
        rewrite app_nth2 by (rewrite length_firstn; lia).
        rewrite length_firstn, Hsk.
        replace (i - Nat.min i (length s))%nat with 0%nat; [reflexivity|].
        rewrite E, length_app. lia. }
      rewrite Hat. destruct (utf8.RuneSelf <=? byteval c0) eqn:R;
        [|unfold utf8.RuneSelf in R; lia].
      rewrite Hsk, (DecodeRune_app _ ds _ _ Dw (proj1 Hsz)). cbn [snd].
      rewrite E.
      replace (i + size)%nat with (length (y ++ [c])) by lia.
      rewrite firstn_app, firstn_all, Nat.sub_diag. cbn [firstn].
      now rewrite app_nil_r.
Qed.

Lemma removeTrailingDigits_lines data :
  removeTrailingDigits data
  = writeLines (map cut_trailing_digits (bufio.Scanner_Text data)).
Proof.
  unfold removeTrailingDigits. rewrite writeLines_concat, map_map.
  rewrite (fold_left_app_concat (fun line => strings.TrimRightFunc line isDigit ++ [LF])).
  simpl. f_equal. apply map_ext. intros l. now rewrite TrimRightFunc_isDigit.
Qed.

Lemma removeLeadingDigits_lines data :
  removeLeadingDigits data
  = writeLines (map cut_leading_digits (bufio.Scanner_Text data)).
Proof.
  unfold removeLeadingDigits. rewrite writeLines_concat, map_map.
  rewrite (fold_left_app_concat (fun line => strings.TrimLeftFunc line isDigit ++ [LF])).
  simpl. f_equal. apply map_ext. intros l. now rewrite TrimLeftFunc_isDigit.
Qed.

Lemma cut_leading_digits_start l : starts_with_digit (cut_leading_digits l) = false.
Proof.
  induction l as [|c l IH]; [reflexivity|]. cbn [cut_leading_digits].
  destruct (digit_byte c) eqn:E; [exact IH|]. exact E.
Qed.

Lemma cut_leading_digits_fixed l :
  starts_with_digit l = false -> cut_leading_digits l = l.
Proof. destruct l as [|c l]; [reflexivity|]. simpl. now intros ->. Qed.

Lemma cut_leading_digits_idem l :
  cut_leading_digits (cut_leading_digits l) = cut_leading_digits l.
Proof. apply cut_leading_digits_fixed, cut_leading_digits_start. Qed.

Lemma cut_trailing_digits_end l : ends_with_digit (cut_trailing_digits l) = false.
Proof.
  unfold ends_with_digit, cut_trailing_digits. rewrite rev_involutive.
  apply cut_leading_digits_start.
Qed.

Lemma cut_trailing_digits_fixed l :
  ends_with_digit l = false -> cut_trailing_digits l = l.
Proof.
  unfold ends_with_digit, cut_trailing_digits. intros H.
  rewrite cut_leading_digits_fixed by exact H. apply rev_involutive.
Qed.

Lemma cut_trailing_digits_idem l :
  cut_trailing_digits (cut_trailing_digits l) = cut_trailing_digits l.
Proof. apply cut_trailing_digits_fixed, cut_trailing_digits_end. Qed.

Lemma cut_leading_digits_incl l : incl (cut_leading_digits l) l.
Proof. rewrite <- TrimLeftFunc_isDigit. apply TrimLeftFunc_incl. Qed.

Lemma cut_trailing_digits_incl l : incl (cut_trailing_digits l) l.
Proof. rewrite <- TrimRightFunc_isDigit. apply TrimRightFunc_incl. Qed.

Lemma cut_leading_digits_len l : len (cut_leading_digits l) <= len l.
Proof.
  destruct (cut_leading_digits_spec l) as (ds & E & _).
  unfold len. rewrite E at 2. rewrite length_app. lia.
Qed.

Lemma cut_trailing_digits_len l : len (cut_trailing_digits l) <= len l.
Proof.
  destruct (cut_trailing_digits_spec l) as (ds & E & _).
  unfold len. rewrite E at 2. rewrite length_app. lia.
Qed.

(** Cutting leading digits keeps the end of a line that does not end
    with a digit. *)
Lemma cut_leading_digits_keeps_end l :
  ends_with_digit l = false -> ends_with_digit (cut_leading_digits l) = false.
Proof.
  induction l as [|c l IH]; [reflexivity|]. intros H.
  cbn [cut_leading_digits]. destruct (digit_byte c) eqn:E; [|exact H].
  apply IH. unfold ends_with_digit in *. cbn [rev] in H.
  destruct (rev l) as [|d r] eqn:R; [reflexivity|]. exact H.
Qed.

Lemma CR_free_dropCR l : ~ In CR l -> bufio.dropCR l = l.
Proof.
  intros H. destruct (dropCR_cases l) as [E|E]; [exact E|].
  exfalso. apply H. rewrite E. apply in_or_app. right. now left.
Qed.

(** A file of lines that fit the scanner and do not end with a
    carriage return is scanned as those lines. *)
Lemma Scanner_Text_writeLines L :
  Forall LF_free L -> Forall (fun l => bufio.fits l = true) L ->
  Forall (fun l => bufio.dropCR l = l) L ->
  bufio.Scanner_Text (writeLines L) = L.
Proof.
  intros HLF Hfit HCR. unfold bufio.Scanner_Text.
  rewrite rawLines_writeLines by exact HLF.
  rewrite scan_all_fit.
  - clear -HCR. induction HCR as [|l L Hl _ IH]; [reflexivity|].
    simpl. now rewrite Hl, IH.
  - apply forallb_forall. now apply List.Forall_forall.
Qed.

Lemma Scanner_Text_trimmed (trim : list ascii -> list ascii) data :
  (forall l, incl (trim l) l) -> (forall l, len (trim l) <= len l) ->
  Forall (fun l => ~ In CR l) (bufio.Scanner_Text data) ->
  bufio.Scanner_Text (writeLines (map trim (bufio.Scanner_Text data)))
  = map trim (bufio.Scanner_Text data).
Proof.
  intros Hincl Hlen HCR. apply Scanner_Text_writeLines.
  - apply Forall_map. eapply List.Forall_impl; [|apply Scanner_Text_LF_free].
    intros l Hl Hin. apply Hl. now apply Hincl.
  - apply Forall_map. eapply List.Forall_impl; [|apply Scanner_Text_fits].
    intros l Hl. cbv beta. unfold bufio.fits in *. apply Z.ltb_lt in Hl. apply Z.ltb_lt.
    specialize (Hlen l). lia.
  - apply Forall_map. eapply List.Forall_impl; [|exact HCR].
    intros l Hl. cbv beta. apply CR_free_dropCR. intros Hin. apply Hl. now apply Hincl.
Qed.

Lemma Scanner_Text_CR_free data :
  ~ In CR data -> Forall (fun l => ~ In CR l) (bufio.Scanner_Text data).
Proof.
  intros H. eapply List.Forall_impl; [|apply Scanner_Text_incl].
  intros l Hl Hin. apply H. now apply Hl.
Qed.

Lemma removeTrailingDigits_idem data :
  ~ In CR data ->
  removeTrailingDigits (removeTrailingDigits data) = removeTrailingDigits data.
Proof.
  intros H. rewrite !removeTrailingDigits_lines.
  rewrite Scanner_Text_trimmed.
  - rewrite map_map. f_equal. apply map_ext. intros l. apply cut_trailing_digits_idem.
  - apply cut_trailing_digits_incl.
  - apply cut_trailing_digits_len.
  - now apply Scanner_Text_CR_free.
Qed.

Lemma removeLeadingDigits_idem data :
  ~ In CR data ->
  removeLeadingDigits (removeLeadingDigits data) = removeLeadingDigits data.
Proof.
  intros H. rewrite !removeLeadingDigits_lines.
  rewrite Scanner_Text_trimmed.
  - rewrite map_map. f_equal. apply map_ext. intros l. apply cut_leading_digits_idem.
  - apply cut_leading_digits_incl.
  - apply cut_leading_digits_len.
  - now apply Scanner_Text_CR_free.
Qed.

Section DigitsAtEnds.
Context {T : GoTables}.

Lemma graphic_CR_free l : graphic l -> ~ In CR l.
Proof.
  intros Hl Hin. unfold graphic in Hl. rewrite List.Forall_forall in Hl.
  specialize (Hl CR Hin). vm_compute in Hl. destruct Hl as [Hl _]. now apply Hl.
Qed.

(** The lines that the two trimming steps leave, from the lines that
    the first filter kept. *)
Lemma trimmedChunk_lines chunk :
  Title_keeps_printable T ->
  exists kept : list (list ascii),
    Forall LF_free kept /\
    trimmedChunk chunk
    = writeLines (map (fun l => cut_leading_digits (cut_trailing_digits l)) kept).
Proof.
  intros HT. unfold trimmedChunk.
  set (F := filterLines _).
  assert (HF : Forall line_byte F).
  { subst F. rewrite filterLines_filter. apply writeLines_line_bytes.
    apply List.Forall_forall. intros l Hl. apply filter_In in Hl as [Hl _].
    revert l Hl. apply List.Forall_forall. apply Scanner_Text_graphic.
    apply Join_line_bytes. now apply PrepareStringForTransformations_graphic. }
  exists (bufio.Scanner_Text F). split; [apply Scanner_Text_LF_free|].
  rewrite removeLeadingDigits_lines, removeTrailingDigits_lines.
  rewrite Scanner_Text_trimmed.
  - now rewrite map_map.
  - apply cut_trailing_digits_incl.
  - apply cut_trailing_digits_len.
  - eapply List.Forall_impl; [|apply (Scanner_Text_graphic F HF)].
    intros l. apply graphic_CR_free.
Qed.

Lemma transformChunk_no_digit_at_ends chunk :
  Title_keeps_printable T ->
  Forall (fun l => starts_with_digit l = false /\ ends_with_digit l = false)
         (bufio.rawLines (transformChunk chunk)).
Proof.
  intros HT.
  destruct (transformChunk_lines_kept_unaltered chunk HT) as (Hsub & _ & _).
  destruct (trimmedChunk_lines chunk HT) as (kept & HLF & E).
  rewrite E, Split_writeLines in Hsub.
  - apply List.Forall_forall. intros l Hl.
    apply list_elem_of_In in Hl.
    apply (elem_of_sublist _ _ _ Hl) in Hsub. rename Hsub into Hl'. clear Hl.
    rename Hl' into Hl.
    apply list_elem_of_In, filter_In in Hl. destruct Hl as [Hl _].
    apply in_app_or in Hl. destruct Hl as [Hl|[<-|[]]]; [|now split].
    apply in_map_iff in Hl. destruct Hl as (k & <- & _). split.
    + apply cut_leading_digits_start.
    + apply cut_leading_digits_keeps_end, cut_trailing_digits_end.
  - apply Forall_map. eapply List.Forall_impl; [|exact HLF].
    intros l Hl Hin. apply Hl.
    now apply cut_trailing_digits_incl, cut_leading_digits_incl.
Qed.

End DigitsAtEnds.

Lemma flushEntriesToFile_writer entries writer :
  flushEntriesToFile entries writer = writer ++ flushEntriesToFile entries [].
Proof. now rewrite (flushEntriesToFile_eq entries writer), (flushEntriesToFile_eq entries []). Qed.

Lemma flush_of_empty window :
  size (table_of window) = 0%nat -> flush_of window = [].
Proof.
  intros H. unfold flush_of. rewrite flushEntriesToFile_eq.
  pose proof (sortedPairs_length (table_of window)) as L. rewrite H in L.
  destruct (sortedPairs (table_of window)); [reflexivity|discriminate L].
Qed.

Lemma merge_loop_flushes threshold texts : forall flushed window,
  exists flushed' window',
    concat flushed ++ window ++ texts = concat flushed' ++ window' /\
    fold_left (merge_step threshold) texts
              (table_of window, concat (map flush_of flushed))
    = (table_of window', concat (map flush_of flushed')) /\
    (Forall (overflows threshold) flushed -> Forall (overflows threshold) flushed').
Proof.
  induction texts as [|line texts IH]; intros flushed window.
  - exists flushed, window. rewrite app_nil_r. auto.
  - cbn [fold_left]. rewrite merge_step_window.
    destruct (Z.of_nat (size (table_of (window ++ [line]))) >? threshold) eqn:E.
    + destruct (IH (flushed ++ [window ++ [line]]) []) as (f' & w' & E1 & E2 & E3).
      exists f', w'. split; [|split].
      * rewrite <- E1. rewrite concat_app. cbn [concat app].
        rewrite app_nil_r, <- !app_assoc. reflexivity.
      * rewrite <- E2. f_equal. f_equal.
        rewrite map_app, concat_app. cbn [map concat]. rewrite app_nil_r.
        apply flushEntriesToFile_writer.
      * intros HF. apply E3. apply Forall_app. split; [exact HF|].
        constructor; [|constructor]. unfold overflows. lia.
    + destruct (IH flushed (window ++ [line])) as (f' & w' & E1 & E2 & E3).
      exists f', w'. split; [|split; [exact E2|exact E3]].
      rewrite <- E1, <- !app_assoc. reflexivity.
Qed.

Lemma merge_files_flushes threshold files : forall flushed window st',
  merge_files threshold files (table_of window, concat (map flush_of flushed))
  = Some st' ->
  exists flushed' window',
    concat flushed ++ window ++ concat (map bufio.Scanner_Text files)
    = concat flushed' ++ window' /\
    st' = (table_of window', concat (map flush_of flushed')) /\
    (Forall (overflows threshold) flushed -> Forall (overflows threshold) flushed').
Proof.
  induction files as [|file files IH]; intros flushed window st' H.
  - inversion H; subst. exists flushed, window. cbn [map concat].
    rewrite app_nil_r. auto.
  - cbn [merge_files] in H.
    destruct (merge_loop_flushes threshold (bufio.Scanner_Text file) flushed window)
      as (f1 & w1 & E1 & E2 & E3).
    rewrite E2 in H. destruct (bufio.Scanner_Err file); [discriminate H|].
    destruct (IH f1 w1 st' H) as (f' & w' & E1' & E2' & E3').
    exists f', w'. split; [|split; [exact E2'|auto]].
    rewrite <- E1'. cbn [map concat]. rewrite !app_assoc. f_equal.
    rewrite <- !app_assoc. exact E1.
Qed.

(** The output of the aggregate stage: the lines consumed, cut into
    consecutive windows, each window flushed. *)
Lemma mergeSortedChunks_windows threshold tempDir out :
  mergeSortedChunks_with threshold tempDir = Some out ->
  exists windows,
    lines_consumed tempDir = concat windows /\
    out = concat (map flush_of windows) /\
    Forall (overflows threshold) (removelast windows) /\
    windows <> [].
Proof.
  unfold mergeSortedChunks_with. intros H.
  destruct (merge_files threshold (map snd (ReadDir tempDir)) (∅, []))
    as [[entries writer]|] eqn:M; [|discriminate H].
  destruct (merge_files_flushes threshold _ [] [] _ M) as (f & w & E1 & E2 & E3).
  inversion E2; subst entries writer. clear E2.
  exists (f ++ [w]). split; [|split; [|split]].
  - unfold lines_consumed. cbn [concat app] in E1. rewrite E1, concat_app.
    cbn [concat]. now rewrite app_nil_r.
  - inversion H; subst out. rewrite map_app, concat_app. cbn [map concat].
    rewrite app_nil_r.
    destruct (Z.of_nat (size (table_of w)) >? 0) eqn:S.
    + apply flushEntriesToFile_writer.
    + rewrite flush_of_empty by lia. now rewrite app_nil_r.
  - rewrite removelast_last. apply E3. constructor.
  - now destruct f.
Qed.

(** The table of a window holds the lines of the window, each with the
    number of its occurrences. *)
Lemma occurrences_pos key window : 0 < occurrences key window <-> In key window.
Proof.
  unfold occurrences. induction window as [|l w IH]; cbn [List.filter length In].
  - split; [lia|tauto].
  - destruct (bool_decide (l = key)) eqn:D.
    + apply bool_decide_eq_true in D. cbn [length]. split; [now left|lia].
    + apply bool_decide_eq_false in D. rewrite IH. split; [now right|].
      intros [E|H]; [contradiction|exact H].
Qed.

Lemma occurrences_nonneg key window : 0 <= occurrences key window.
Proof. unfold occurrences. lia. Qed.

Lemma table_of_lookup_Some window key count :
  table_of window !! key = Some count <->
  In key window /\ count = occurrences key window.
Proof.
  rewrite table_of_lookup. pose proof (occurrences_nonneg key window) as N.
  rewrite <- occurrences_pos.
  destruct (occurrences key window =? 0) eqn:E.
  - apply Z.eqb_eq in E. split; [discriminate|lia].
  - apply Z.eqb_neq in E. split.
    + intros H. inversion H. lia.
    + intros [_ ->]. reflexivity.
Qed.

Lemma table_of_keys window key :
  is_Some (table_of window !! key) <-> In key window.
Proof.
  split.
  - intros [count H]. now apply table_of_lookup_Some in H.
  - intros H. exists (occurrences key window). now apply table_of_lookup_Some.
Qed.

Lemma table_of_size_incl w1 w2 :
  incl w1 w2 -> (size (table_of w1) <= size (table_of w2))%nat.
Proof.
  intros H. rewrite <- !size_dom. apply subseteq_size.
  intros k Hk. apply elem_of_dom. apply elem_of_dom in Hk.
  apply table_of_keys. apply table_of_keys in Hk. now apply H.
Qed.

Lemma table_of_perm w1 w2 : w1 ≡ₚ w2 -> table_of w1 = table_of w2.
Proof.
  intros H. apply map_eq. intros k. rewrite !table_of_lookup.
  assert (E : occurrences k w1 = occurrences k w2).
  { unfold occurrences. f_equal. apply Permutation_length.
    clear -H. induction H; cbn [List.filter].
    - constructor.
    - destruct (bool_decide (x = k)); [now constructor|assumption].
    - destruct (bool_decide (x = k)), (bool_decide (y = k));
        try reflexivity; try constructor.
    - etransitivity; eassumption. }
  now rewrite E.
Qed.

(** When the table never grows beyond the threshold there is one window. *)
Lemma mergeSortedChunks_one_window threshold tempDir out :
  mergeSortedChunks_with threshold tempDir = Some out ->
  Z.of_nat (size (table_of (lines_consumed tempDir))) <= threshold ->
  out = flush_of (lines_consumed tempDir).
Proof.
  intros H Hsize.
  destruct (mergeSortedChunks_windows _ _ _ H) as (ws & E1 & E2 & E3 & E4).
  destruct ws as [|w [|w' ws]]; [contradiction| |].
  - cbn [concat map] in *. rewrite app_nil_r in E1, E2. now rewrite E1.
  - exfalso. cbn [removelast] in E3. inversion E3 as [|? ? Hw _]; subst.
    unfold overflows in Hw.
    assert (size (table_of w) <= size (table_of (lines_consumed tempDir)))%nat.
    { apply table_of_size_incl. rewrite E1. cbn [concat].
      apply incl_appl, incl_refl. }
    lia.
Qed.

Lemma concat_map_perm {A B} (g : A -> list B) (l l' : list A) :
  l ≡ₚ l' -> concat (map g l) ≡ₚ concat (map g l').
Proof.
  induction 1; cbn [map concat].
  - reflexivity.
  - now apply Permutation_app_head.
  - rewrite !app_assoc. apply Permutation_app_tail, Permutation_app_comm.
  - etransitivity; eassumption.
Qed.

(** The lines that the aggregate stage consumes are the lines of the
    target, scanned twice. *)
Lemma lines_consumed_target limit target :
  lines_consumed (fst (processFileChunksToTempFiles_with limit target))
  ≡ₚ map bufio.dropCR (bufio.Scanner_Text target).
Proof.
  pose proof (chunk_files_scan limit target) as Hscan.
  destruct (scatter_chunks limit target) as [Hperm _].
  set (tempDir := fst (processFileChunksToTempFiles_with limit target)) in *.
  rewrite <- Hperm. unfold lines_consumed. rewrite map_map.
  rewrite (concat_map_perm _ _ _ (ReadDir_perm tempDir)).
  clear Hperm. induction Hscan as [|f fs [_ Hf] _ IH]; [reflexivity|].
  cbn [map concat]. rewrite Hf, map_app. now apply Permutation_app_head.
Qed.

Lemma SortByAproxFrequency_one_window target :
  bufio.Scanner_Err target = false ->
  Z.of_nat (size (table_of (map bufio.dropCR (bufio.Scanner_Text target))))
    <= flushThreshold ->
  SortByAproxFrequency target
  = Some (flush_of (map bufio.dropCR (bufio.Scanner_Text target))).
Proof.
  intros Herr Hsize.
  destruct (SortByAproxFrequency_result target) as [_ H].
  destruct (H Herr) as (out & Hout & _). rewrite Hout. f_equal.
  unfold SortByAproxFrequency, processFileChunksToTempFiles in Hout.
  pose proof (lines_consumed_target chunkLineCount target) as Hperm.
  destruct (processFileChunksToTempFiles_with chunkLineCount target)
    as [tempDir err] eqn:P.
  cbn [fst] in Hperm.
  assert (err = false) as ->.
  { unfold processFileChunksToTempFiles_with in P.
    destruct (fold_left _ _ _) as [[? ?] ?]. inversion P. exact Herr. }
  unfold mergeSortedChunks in Hout.
  rewrite <- (table_of_perm _ _ Hperm) in Hsize.
  rewrite (mergeSortedChunks_one_window _ _ _ Hout Hsize).
  unfold flush_of. now rewrite (table_of_perm _ _ Hperm).
Qed.

Lemma SortByAproxFrequency_error target :
  SortByAproxFrequency target = None <-> bufio.Scanner_Err target = true.
Proof.
  destruct (SortByAproxFrequency_result target) as [H1 H2].
  split; [|exact H1]. intros H.
  destruct (bufio.Scanner_Err target); [reflexivity|].
  destruct (H2 eq_refl) as (out & Hout & _). rewrite H in Hout. discriminate Hout.
Qed.

Lemma Scanner_Err_long data :
  bufio.Scanner_Err data = true <->
  Exists (fun l => bufio.MaxScanTokenSize <= len l) (bufio.rawLines data).
Proof.
  unfold bufio.Scanner_Err. rewrite negb_true_iff.
  induction (bufio.rawLines data) as [|l raw IH]; cbn [forallb].
  - split; [discriminate|]. intros H. inversion H.
  - rewrite andb_false_iff, IH, List.Exists_cons. unfold bufio.fits.
    rewrite Z.ltb_ge. reflexivity.
Qed.

(** The lines of a flush of a window of keys without white space. *)
Lemma flush_of_lines window :
  Forall no_space window ->
  flush_of window = writeLines (map fst (sortedPairs (table_of window))).
Proof.
  intros H. unfold flush_of. rewrite flushEntriesToFile_eq. cbn [app].
  f_equal. apply map_ext_in. intros [key count] Hin.
  apply sortedPairs_lookup, table_of_lookup_Some in Hin. destruct Hin as [Hin _].
  apply flush_line_no_space. rewrite List.Forall_forall in H. now apply H.
Qed.

Lemma no_space_LF_free l : no_space l -> LF_free l.
Proof.
  intros H Hin. unfold no_space in H. rewrite List.Forall_forall in H.
  destruct (H LF Hin) as [_ E]. vm_compute in E. discriminate E.
Qed.

Lemma sortedPairs_keys window key :
  In key (map fst (sortedPairs (table_of window))) <-> In key window.
Proof.
  rewrite in_map_iff. split.
  - intros ([k c] & <- & H). now apply sortedPairs_lookup, table_of_lookup_Some in H.
  - intros H. exists (key, occurrences key window). split; [reflexivity|].
    now apply sortedPairs_lookup, table_of_lookup_Some.
Qed.

Lemma mergeSortedChunks_same_lines threshold tempDir out :
  mergeSortedChunks_with threshold tempDir = Some out ->
  Forall no_space (lines_consumed tempDir) ->
  forall l, In l (lines_written out) <-> In l (lines_consumed tempDir).
Proof.
  intros H Hns l.
  destruct (mergeSortedChunks_windows _ _ _ H) as (ws & E1 & E2 & _ & _).
  rewrite E1 in *. clear E1.
  assert (Hws : Forall (Forall no_space) ws).
  { clear -Hns. induction ws as [|w ws IH]; [constructor|].
    cbn [concat] in Hns. apply Forall_app in Hns. destruct Hns.
    constructor; auto. }
  assert (E : out = writeLines
                (concat (map (fun w => map fst (sortedPairs (table_of w))) ws))).
  { rewrite E2. clear -Hws. induction Hws as [|w ws Hw _ IH]; [reflexivity|].
    cbn [map concat]. rewrite writeLines_app, <- IH. f_equal.
    now apply flush_of_lines. }
  unfold lines_written. rewrite E, rawLines_writeLines.
  - rewrite !in_concat. split.
    + intros (x & Hx & Hl). apply in_map_iff in Hx. destruct Hx as (w & <- & Hw).
      exists w. split; [exact Hw|]. now apply sortedPairs_keys.
    + intros (w & Hw & Hl). exists (map fst (sortedPairs (table_of w))).
      split; [apply in_map_iff; exists w; split; [reflexivity|exact Hw]|].
      now apply sortedPairs_keys.
  - apply List.Forall_forall. intros k Hk. apply in_concat in Hk.
    destruct Hk as (x & Hx & Hk). apply in_map_iff in Hx.
    destruct Hx as (w & <- & Hw). apply (proj1 (sortedPairs_keys w k)) in Hk.
    apply no_space_LF_free.
    rewrite List.Forall_forall in Hws. specialize (Hws w Hw).
    rewrite List.Forall_forall in Hws. now apply Hws.
Qed.

Lemma map_dropCR_graphic L : Forall graphic L -> map bufio.dropCR L = L.
Proof.
  induction 1 as [|l L Hl _ IH]; [reflexivity|].
  cbn [map]. now rewrite IH, graphic_dropCR.
Qed.

(** On a target of graphic lines the sort stage writes the lines that
    it reads, no other line and each of them. *)
Lemma SortByAproxFrequency_same_lines target out :
  SortByAproxFrequency target = Some out ->
  Forall graphic (bufio.Scanner_Text target) ->
  forall l, In l (lines_written out) <-> In l (bufio.Scanner_Text target).
Proof.
  intros Hout Hg l.
  unfold SortByAproxFrequency, processFileChunksToTempFiles in Hout.
  pose proof (lines_consumed_target chunkLineCount target) as Hperm.
  destruct (processFileChunksToTempFiles_with chunkLineCount target)
    as [tempDir err]. cbn [fst] in Hperm.
  destruct err; [discriminate Hout|]. unfold mergeSortedChunks in Hout.
  rewrite (map_dropCR_graphic _ Hg) in Hperm.
  rewrite (mergeSortedChunks_same_lines _ _ _ Hout).
  - split; intros H; apply list_elem_of_In; apply list_elem_of_In in H.
    + now rewrite <- Hperm.
    + now rewrite Hperm.
  - eapply Forall_perm; [exact Hperm|].
    eapply List.Forall_impl; [|exact Hg]. apply graphic_no_space.
Qed.

Section FreshTarget.
Context {T : GoTables}.

Lemma transformChunk_writeLines chunk :
  transformChunk chunk = writeLines (bufio.rawLines (transformChunk chunk)).
Proof.
  rewrite transformChunk_trimmed, filterLines_lines. apply filterLines_filter.
Qed.

Lemma transformChunk_lines_fit chunk :
  Forall (fun l => bufio.fits l = true) (bufio.rawLines (transformChunk chunk)).
Proof.
  rewrite transformChunk_trimmed, filterLines_lines.
  apply List.Forall_forall. intros l Hl. apply filter_In in Hl as [Hl _].
  revert l Hl. apply List.Forall_forall. apply Scanner_Text_fits.
Qed.

Lemma written_lines source :
  concat (map transformChunk (reads (Z.to_nat bufferSize) source))
  = writeLines (transformed_lines source).
Proof.
  unfold transformed_lines.
  induction (reads (Z.to_nat bufferSize) source) as [|b bs IH]; [reflexivity|].
  cbn [map concat]. rewrite writeLines_app, <- IH. f_equal.
  apply transformChunk_writeLines.
Qed.

Lemma transformed_lines_fit source :
  Forall (fun l => bufio.fits l = true) (transformed_lines source).
Proof.
  unfold transformed_lines.
  induction (reads (Z.to_nat bufferSize) source) as [|b bs IH]; [constructor|].
  cbn [map concat]. apply Forall_app. split; [apply transformChunk_lines_fit|exact IH].
Qed.

Lemma transformed_lines_LF_free source : Forall LF_free (transformed_lines source).
Proof.
  unfold transformed_lines.
  induction (reads (Z.to_nat bufferSize) source) as [|b bs IH]; [constructor|].
  cbn [map concat]. apply Forall_app. split; [apply rawLines_LF_free|exact IH].
Qed.

Lemma fresh_target_content source :
  content (readLoop (S (length source)) (Z.to_nat bufferSize) source
                    (OpenFile_CREATE_WRONLY []))
  = writeLines (transformed_lines source).
Proof.
  destruct (readLoop_blocks source []) as [E _]. cbv zeta in E. rewrite E.
  cbn [content]. rewrite skipn_nil, app_nil_r. apply written_lines.
Qed.

Lemma CreateWizardWordlist_fresh_succeeds source :
  exists out, CreateWizardWordlist source [] = Some out.
Proof.
  unfold CreateWizardWordlist. rewrite fresh_target_content.
  assert (Herr : bufio.Scanner_Err (writeLines (transformed_lines source)) = false).
  { unfold bufio.Scanner_Err.
    rewrite rawLines_writeLines by apply transformed_lines_LF_free.
    apply negb_false_iff, forallb_forall, List.Forall_forall.
    apply transformed_lines_fit. }
  destruct (SortByAproxFrequency_result (writeLines (transformed_lines source)))
    as [_ H].
  destruct (H Herr) as (out & Hout & _). now exists out.
Qed.

Lemma transformed_lines_graphic source :
  Title_keeps_printable T -> Forall graphic (transformed_lines source).
Proof.
  intros HT. unfold transformed_lines.
  induction (reads (Z.to_nat bufferSize) source) as [|b bs IH]; [constructor|].
  cbn [map concat]. apply Forall_app. split; [|exact IH].
  now destruct (transformChunk_lines_kept_unaltered b HT) as (_ & H & _).
Qed.

Lemma CreateWizardWordlist_fresh_lines source out :
  Title_keeps_printable T ->
  CreateWizardWordlist source [] = Some out ->
  forall l, In l (lines_written out) <-> In l (transformed_lines source).
Proof.
  intros HT. unfold CreateWizardWordlist. rewrite fresh_target_content.
  pose proof (transformed_lines_graphic source HT) as HG.
  pose proof (transformed_lines_LF_free source) as HLF.
  pose proof (transformed_lines_fit source) as Hfit.
  generalize dependent (transformed_lines source). intros W HG HLF Hfit H l.
  assert (HS : bufio.Scanner_Text (writeLines W) = W).
  { apply Scanner_Text_writeLines; [exact HLF|exact Hfit|].
    eapply List.Forall_impl; [|exact HG]. apply graphic_dropCR. }
  rewrite <- HS in HG.
  rewrite (SortByAproxFrequency_same_lines _ _ H HG).
  now rewrite HS.
Qed.

End FreshTarget.

Lemma GenerateNGrams_loop words sizes : forall acc,
  fold_left
    (fun nGrams i =>
       fold_left (fun nGrams j => nGrams ++ [nGram_of words i j])
                 (seq 0 (length words + 1 - i)) nGrams)
    sizes acc
  = acc ++ concat (map (fun i => map (nGram_of words i)
                                     (seq 0 (length words + 1 - i))) sizes).
Proof.
  induction sizes as [|i sizes IH]; intros acc; cbn [fold_left map concat].
  - now rewrite app_nil_r.
  - rewrite IH. rewrite app_assoc. f_equal.
    rewrite (fold_left_app_concat (fun j => [nGram_of words i j])). f_equal.
    clear. induction (seq 0 (length words + 1 - i)) as [|j js IH]; [reflexivity|].
    cbn [map concat app]. now rewrite IH.
Qed.

Lemma GenerateNGrams_eq text a b :
  GenerateNGrams text a b
  = concat (map (fun i => map (nGram_of (strings.Fields text) i)
                              (seq 0 (length (strings.Fields text) + 1 - i)))
                (seq a (b + 1 - a))).
Proof. unfold GenerateNGrams. now rewrite GenerateNGrams_loop. Qed.

Lemma IsSpace_ascii b : 0 <= b < 128 -> unicode.IsSpace b = strings.asciiSpace b.
Proof.
  intros H. unfold unicode.IsSpace, strings.asciiSpace.
  destruct ((0 <=? b) && (b <=? 255)) eqn:E.
  - destruct (b =? 133) eqn:E1; [lia|]. destruct (b =? 160) eqn:E2; [lia|].
    now rewrite !orb_false_r.
  - apply andb_false_iff in E. destruct E as [E|E]; lia.
Qed.

Lemma fields_go_ascii s : forall cur,
  is_ascii s -> no_space cur ->
  Forall ascii_word
    (strings.fields_go cur (map (fun c => (byteval c, [c])) s)).
Proof.
  induction s as [|c s IH]; intros cur Hs Hcur; cbn [map strings.fields_go].
  - destruct cur as [|x cur]; [constructor|].
    constructor; [|constructor]. split.
    + intros E. apply (f_equal (@length _)) in E. rewrite length_rev in E. discriminate E.
    + apply Forall_rev. exact Hcur.
  - inversion Hs as [|? ? Hc Hs']; subst. pose proof (byteval_range c) as R.
    rewrite IsSpace_ascii by lia.
    destruct (strings.asciiSpace (byteval c)) eqn:E.
    + destruct cur as [|x cur]; [apply IH; [exact Hs'|constructor]|].
      constructor; [|apply IH; [exact Hs'|constructor]]. split.
      * intros E'. apply (f_equal (@length _)) in E'. rewrite length_rev in E'.
        discriminate E'.
      * apply Forall_rev. exact Hcur.
    + apply IH; [exact Hs'|]. cbn [rev_append]. constructor; [|exact Hcur].
      split; [exact Hc|exact E].
Qed.

Lemma Fields_ascii text : is_ascii text -> Forall ascii_word (strings.Fields text).
Proof.
  intros H. unfold strings.Fields, utf8.decode.
  rewrite decode_fuel_ascii by (try exact H; lia).
  apply fields_go_ascii; [exact H|constructor].
Qed.

(** [TrimSpace] and [TrimLeft] on a string that begins and ends with a
    byte that is ASCII and not white space. *)
Lemma trimSpace_left_start c t :
  byteval c < 128 -> strings.asciiSpace (byteval c) = false ->
  strings.trimSpace_left (c :: t) = inl (c :: t).
Proof.
  intros H1 H2. cbn [strings.trimSpace_left]. rewrite H2.
  destruct (utf8.RuneSelf <=? byteval c) eqn:E; [unfold utf8.RuneSelf in E; lia|].
  reflexivity.
Qed.

Lemma TrimSpace_solid s : solid_ends s -> strings.TrimSpace s = s.
Proof.
  intros [->|(c & t & d & u & E1 & E2 & Hc1 & Hc2 & Hd1 & Hd2)]; [reflexivity|].
  unfold strings.TrimSpace. rewrite E1 at 1.
  rewrite trimSpace_left_start by assumption. rewrite <- E1, E2.
  rewrite trimSpace_left_start by assumption. rewrite <- E2.
  apply rev_involutive.
Qed.

Lemma TrimLeft_solid s : solid_ends s -> strings.TrimLeft s SP = s.
Proof.
  intros [->|(c & t & d & u & E1 & E2 & Hc1 & Hc2 & Hd1 & Hd2)]; [reflexivity|].
  subst s. cbn [strings.TrimLeft].
  destruct (Ascii.eqb c SP) eqn:E; [|reflexivity].
  apply Ascii.eqb_eq in E. subst c. vm_compute in Hc2. discriminate Hc2.
Qed.

Lemma ascii_word_first w : ascii_word w ->
  exists c t, w = c :: t /\ byteval c < 128 /\ strings.asciiSpace (byteval c) = false.
Proof.
  intros [Hne Hns]. destruct w as [|c t]; [contradiction|].
  inversion Hns as [|? ? [H1 H2] _]; subst. now exists c, t.
Qed.

Lemma ascii_word_rev w : ascii_word w -> ascii_word (rev w).
Proof.
  intros [Hne Hns]. split.
  - intros E. apply Hne. apply (f_equal (@rev _)) in E.
    now rewrite rev_involutive in E.
  - apply Forall_rev. exact Hns.
Qed.

Lemma Join_cons2 x y t sep :
  strings.Join (x :: y :: t) sep = x ++ sep ++ strings.Join (y :: t) sep.
Proof. reflexivity. Qed.

Lemma Join_first ws : Forall ascii_word ws -> ws <> [] ->
  exists c t, strings.Join ws [SP] = c :: t /\
              byteval c < 128 /\ strings.asciiSpace (byteval c) = false.
Proof.
  intros H Hne. destruct H as [|w ws Hw Hws]; [contradiction|].
  destruct (ascii_word_first w Hw) as (c & t & -> & H1 & H2).
  destruct ws as [|y ws].
  - now exists c, t.
  - rewrite Join_cons2. cbn [app]. eexists c, _. split; [reflexivity|]. auto.
Qed.

Lemma Join_snoc ws w sep :
  ws <> [] -> strings.Join (ws ++ [w]) sep = strings.Join ws sep ++ sep ++ w.
Proof.
  induction ws as [|x ws IH]; [contradiction|]. intros _.
  destruct ws as [|y ws].
  - cbn [app]. rewrite Join_cons2. reflexivity.
  - cbn [app] in *. rewrite !Join_cons2. rewrite IH by discriminate.
    now rewrite <- !app_assoc.
Qed.

Lemma Join_last ws : Forall ascii_word ws -> ws <> [] ->
  exists d u, rev (strings.Join ws [SP]) = d :: u /\
              byteval d < 128 /\ strings.asciiSpace (byteval d) = false.
Proof.
  intros H Hne. destruct ws as [|w ws _] using rev_ind; [contradiction|].
  apply Forall_app in H. destruct H as [Hws Hw]. inversion Hw as [|? ? Hw' _]; subst.
  destruct (ascii_word_first _ (ascii_word_rev w Hw')) as (d & u & E & H1 & H2).
  destruct ws as [|x ws].
  - cbn [app strings.Join]. now exists d, u.
  - rewrite Join_snoc by discriminate. rewrite !rev_app_distr, E. cbn [app].
    eexists d, _. split; [reflexivity|]. auto.
Qed.

Lemma Join_solid ws : Forall ascii_word ws -> solid_ends (strings.Join ws [SP]).
Proof.
  intros H. destruct ws as [|w ws]; [now left|]. right.
  destruct (Join_first (w :: ws) H) as (c & t & E1 & H1 & H2); [discriminate|].
  destruct (Join_last (w :: ws) H) as (d & u & E2 & H3 & H4); [discriminate|].
  exists c, t, d, u. repeat split; assumption.
Qed.

Lemma Forall_slice {A} (P : A -> Prop) (l : list A) i j :
  Forall P l -> Forall P (slice l i j).
Proof.
  intros H. apply List.Forall_forall. intros x Hx. apply slice_incl in Hx.
  rewrite List.Forall_forall in H. now apply H.
Qed.

Lemma nGram_of_ascii words i j :
  Forall ascii_word words ->
  nGram_of words i j
  = without_punctuation (strings.Join (slice words j (j + i)) [SP]).
Proof.
  intros H. unfold nGram_of, without_punctuation.
  pose proof (Join_solid _ (Forall_slice _ words j (j + i) H)) as HS.
  now rewrite (TrimSpace_solid _ HS), (TrimLeft_solid _ HS).
Qed.

Lemma GenerateNGrams_ascii text a b :
  is_ascii text ->
  GenerateNGrams text a b
  = concat (map (fun i =>
                   map (fun j => without_punctuation
                                   (strings.Join (slice (strings.Fields text) j (j + i))
                                                 [SP]))
                       (seq 0 (length (strings.Fields text) + 1 - i)))
                (seq a (b + 1 - a))).
Proof.
  intros H. rewrite GenerateNGrams_eq. f_equal. apply map_ext. intros i.
  apply map_ext. intros j. apply nGram_of_ascii. now apply Fields_ascii.
Qed.

Lemma slice_one {A} (l : list A) j x :
  nth_error l j = Some x -> slice l j (j + 1) = [x].
Proof.
  unfold slice. replace (j + 1 - j)%nat with 1%nat by lia.
  revert j. induction l as [|y l IH]; intros [|j] H; try discriminate H.
  - inversion H. reflexivity.
  - cbn [skipn]. now apply IH.
Qed.

Lemma GenerateNGrams_words text :
  is_ascii text ->
  GenerateNGrams text 1 1 = map without_punctuation (strings.Fields text).
Proof.
  intros H. rewrite GenerateNGrams_ascii by exact H.
  cbn [seq Nat.sub Nat.add map concat]. rewrite app_nil_r.
  set (words := strings.Fields text).
  replace (length words + 1 - 1)%nat with (length words) by lia.
  assert (G : forall pre l, map (fun j => without_punctuation
                              (strings.Join (slice (pre ++ l) j (j + 1)) [SP]))
                         (seq (length pre) (length l))
                    = map without_punctuation l).
  { intros pre l. revert pre. induction l as [|x l IH]; intros pre; [reflexivity|].
    cbn [length seq map]. f_equal.
    - rewrite (slice_one _ _ x); [reflexivity|].
      rewrite nth_error_app2 by lia. now rewrite Nat.sub_diag.
    - specialize (IH (pre ++ [x])). rewrite <- app_assoc in IH. cbn [app] in IH.
      rewrite length_app in IH. cbn [length] in IH.
      rewrite Nat.add_1_r in IH. exact IH. }
  exact (G [] words).
Qed.

Lemma GenerateNGrams_length text a b :
  length (GenerateNGrams text a b)
  = list_sum (map (fun i => length (strings.Fields text) + 1 - i)%nat
                  (seq a (b + 1 - a))).
Proof.
  rewrite GenerateNGrams_eq.
  induction (seq a (b + 1 - a)) as [|i sizes IH]; [reflexivity|].
  cbn [map concat list_sum]. rewrite length_app, length_map, length_seq. now rewrite IH.
Qed.

Lemma HasPrefix_app s p : strings.HasPrefix (p ++ s) p = true.
Proof. induction p as [|a p IH]; [now destruct s|]. simpl. now rewrite Ascii.eqb_refl. Qed.

Lemma HasPrefix_split s p :
  strings.HasPrefix s p = true -> s = p ++ skipn (length p) s.
Proof.
  revert s. induction p as [|a p IH]; intros s H; [reflexivity|].
  destruct s as [|b s]; [discriminate H|]. simpl in H.
  apply andb_true_iff in H. destruct H as [E H]. apply Ascii.eqb_eq in E. subst b.
  cbn [length skipn app]. f_equal. now apply IH.
Qed.

Lemma HasPrefix_app_l s p q :
  strings.HasPrefix s (p ++ q) = true -> strings.HasPrefix s p = true.
Proof.
  revert s. induction p as [|a p IH]; intros s H; [now destruct s|].
  destruct s as [|b s]; [discriminate H|]. simpl in *.
  apply andb_true_iff in H. destruct H as [E H]. rewrite E. now apply IH.
Qed.

Lemma hexGroup_spec s group rest :
  hexGroup s = Some (group, rest) ->
  s = group ++ "]"%char :: rest /\ ~ In "]"%char group /\ ~ In LF group.
Proof.
  revert group rest. induction s as [|c t IH]; intros group rest H; [discriminate H|].
  cbn [hexGroup] in H. destruct (Ascii.eqb c "]") eqn:E1.
  - apply Ascii.eqb_eq in E1. inversion H; subst. simpl. tauto.
  - destruct (Ascii.eqb c LF) eqn:E2; [discriminate H|].
    destruct (hexGroup t) as [[g r]|] eqn:G; [|discriminate H].
    inversion H; subst. destruct (IH g rest eq_refl) as (-> & H1 & H2).
    apply Ascii.eqb_neq in E1, E2.
    split; [reflexivity|]. split; intros [->|Hin]; contradiction || auto.
Qed.

Lemma hexGroup_found group rest :
  ~ In "]"%char group -> ~ In LF group ->
  hexGroup (group ++ "]"%char :: rest) = Some (group, rest).
Proof.
  induction group as [|c g IH]; intros H1 H2; [reflexivity|].
  cbn [app hexGroup].
  destruct (Ascii.eqb c "]") eqn:E1;
    [apply Ascii.eqb_eq in E1; subst; exfalso; apply H1; now left|].
  destruct (Ascii.eqb c LF) eqn:E2;
    [apply Ascii.eqb_eq in E2; subst; exfalso; apply H2; now left|].
  rewrite IH; [reflexivity|intros H; apply H1; now right|intros H; apply H2; now right].
Qed.

Lemma match_at_occurrence s group :
  ~ In "]"%char group -> ~ In LF group ->
  strings.HasPrefix s (hexOpen ++ group ++ lit "]") = true ->
  match_at s = true.
Proof.
  intros H1 H2 H. unfold match_at.
  rewrite (HasPrefix_app_l _ _ _ H). cbn [andb].
  apply HasPrefix_split in H.
  generalize dependent (skipn (length (hexOpen ++ group ++ lit "]")) s).
  intros rest ->. unfold hexOpen.
  cbn [lit list_ascii_of_string app skipn]. rewrite <- app_assoc. cbn [app].
  change (skipn 0 (group ++ "]"%char :: rest)) with (group ++ "]"%char :: rest).
  now rewrite hexGroup_found.
Qed.

Lemma Index_from_found g : forall i s sub,
  strings.HasPrefix s sub = true ->
  (forall p, (p < length g)%nat -> strings.HasPrefix (skipn p (g ++ s)) sub = false) ->
  strings.Index_from i (g ++ s) sub = i + len g.
Proof.
  induction g as [|c g IH]; intros i s sub Hs Hg.
  - cbn [app]. unfold len. cbn [length]. destruct s as [|c s];
      cbn [strings.Index_from]; rewrite Hs; lia.
  - cbn [app strings.Index_from].
    pose proof (Hg 0%nat ltac:(simpl; lia)) as H0. cbn [skipn app] in H0. rewrite H0.
    rewrite IH.
    + unfold len. cbn [length]. lia.
    + exact Hs.
    + intros p Hp. apply (Hg (S p)). simpl. lia.
Qed.

Lemma substr_all pre s :
  substr (pre ++ s) (len pre) (len (pre ++ s)) = Some s.
Proof.
  unfold substr, len. rewrite length_app.
  destruct ((0 <=? Z.of_nat (length pre))
            && (Z.of_nat (length pre) <=? Z.of_nat (length pre + length s))
            && (Z.of_nat (length pre + length s) <=? Z.of_nat (length pre + length s)))
    eqn:E.
  - f_equal. unfold slice. rewrite !Nat2Z.id.
    rewrite skipn_app, skipn_all, Nat.sub_diag. cbn [skipn app].
    apply firstn_all2. lia.
  - rewrite !andb_false_iff in E. destruct E as [[E|E]|E]; apply Z.leb_gt in E; lia.
Qed.

Lemma substr_mid pre g s :
  substr (pre ++ g ++ s) (len pre) (len g + len pre) = Some g.
Proof.
  unfold substr, len. rewrite !length_app.
  destruct ((0 <=? Z.of_nat (length pre))
            && (Z.of_nat (length pre) <=? Z.of_nat (length g) + Z.of_nat (length pre))
            && (Z.of_nat (length g) + Z.of_nat (length pre)
                <=? Z.of_nat (length pre + (length g + length s))))
    eqn:E.
  - f_equal. unfold slice. rewrite Nat2Z.id.
    replace (Z.to_nat (Z.of_nat (length g) + Z.of_nat (length pre)) - length pre)%nat
      with (length g) by lia.
    rewrite skipn_app, skipn_all, Nat.sub_diag. cbn [skipn app]. rewrite skipn_O.
    rewrite firstn_app, firstn_all, Nat.sub_diag. cbn [firstn]. apply app_nil_r.
  - rewrite !andb_false_iff in E. destruct E as [[E|E]|E]; apply Z.leb_gt in E; lia.
Qed.

Lemma fold_convert_Err hash ms : fold_left (convert_step hash) ms Err = Err.
Proof. induction ms as [|m ms IH]; [reflexivity|exact IH]. Qed.

(** The loop of [ConvertHexToPlaintext] from a state reached after the
    bytes [pre], with the bytes [g] scanned since without a match. *)
Lemma convert_loop fuel : forall g s pre res,
  (length s <= fuel)%nat ->
  (forall p, (p < length g)%nat -> match_at (skipn p (g ++ s)) = false) ->
  convert_finish (pre ++ g ++ s)
    (fold_left (convert_step (pre ++ g ++ s)) (FindAllStringSubmatch fuel s)
               (Ok (res, len pre)))
  = match hex_replaced fuel s with
    | Some r => Ok (res ++ g ++ r)
    | None => Err
    end.
Proof.
  induction fuel as [|fuel IH]; intros g s pre res Hl Hg.
  - destruct s; [|simpl in Hl; lia]. cbn [FindAllStringSubmatch fold_left hex_replaced].
    cbn [convert_finish]. now rewrite substr_all.
  - destruct s as [|c t].
    { cbn [FindAllStringSubmatch fold_left hex_replaced convert_finish].
      now rewrite substr_all. }
    assert (Hskip :
      match_at (c :: t) = false ->
      convert_finish (pre ++ g ++ c :: t)
        (fold_left (convert_step (pre ++ g ++ c :: t))
                   (FindAllStringSubmatch fuel t) (Ok (res, len pre)))
      = match option_map (cons c) (hex_replaced fuel t) with
        | Some r => Ok (res ++ g ++ r)
        | None => Err
        end).
    { intros Hno.
      replace (pre ++ g ++ c :: t) with (pre ++ (g ++ [c]) ++ t)
        by (now rewrite <- !app_assoc).
      rewrite IH.
      - destruct (hex_replaced fuel t); [|reflexivity]. cbn [option_map].
        now rewrite <- !app_assoc.
      - simpl in Hl. lia.
      - intros p Hp. rewrite length_app in Hp. cbn [length] in Hp.
        rewrite <- app_assoc. cbn [app].
        destruct (Nat.eq_dec p (length g)) as [->|Hne].
        + rewrite skipn_app, skipn_all, Nat.sub_diag. exact Hno.
        + apply Hg. lia. }
    cbn [FindAllStringSubmatch hex_replaced].
    destruct (strings.HasPrefix (c :: t) hexOpen) eqn:HP.
    + destruct (hexGroup (skipn 5 (c :: t))) as [[group rest]|] eqn:HG.
      * (* a match *)
        destruct (hexGroup_spec _ _ _ HG) as (Esk & Hc1 & Hc2).
        assert (Es : c :: t = (hexOpen ++ group ++ lit "]") ++ rest).
        { rewrite (HasPrefix_split _ _ HP). change (length hexOpen) with 5%nat.
          rewrite Esk. rewrite <- !app_assoc. reflexivity. }
        set (m0 := hexOpen ++ group ++ lit "]") in *.
        cbn [fold_left]. unfold convert_step at 2. cbn [fst snd].
        rewrite substr_all.
        assert (HI : strings.Index (g ++ c :: t) m0 = len g).
        { unfold strings.Index. rewrite Index_from_found; [lia| |].
          - rewrite Es. apply HasPrefix_app.
          - intros p Hp.
            destruct (strings.HasPrefix (skipn p (g ++ c :: t)) m0) eqn:E; [|reflexivity].
            pose proof (Hg p Hp) as Hn.
            rewrite (match_at_occurrence _ group Hc1 Hc2 E) in Hn. discriminate Hn. }
        rewrite HI, substr_mid.
        destruct (hex.DecodeString group) as [bytes|].
        -- rewrite Es.
           replace (pre ++ g ++ m0 ++ rest) with ((pre ++ g ++ m0) ++ [] ++ rest)
             by (now rewrite <- !app_assoc).
           replace (len g + len pre + len m0) with (len (pre ++ g ++ m0))
             by (unfold len; rewrite !length_app; lia).
           rewrite IH.
           ++ destruct (hex_replaced fuel rest); [|reflexivity]. cbn [option_map app].
              now rewrite <- !app_assoc.
           ++ apply (f_equal (@length _)) in Es. rewrite length_app in Es.
              cbn [length] in *. unfold m0, hexOpen in Es. rewrite length_app in Es.
              cbn [lit list_ascii_of_string length] in Es. lia.
           ++ intros p Hp. simpl in Hp. lia.
        -- rewrite fold_convert_Err. reflexivity.
      * apply Hskip. unfold match_at. now rewrite HP, HG.
    + apply Hskip. unfold match_at. now rewrite HP.
Qed.

Lemma FindAll_nil_replaced fuel : forall s,
  (length s <= fuel)%nat ->
  FindAllStringSubmatch fuel s = [] -> hex_replaced fuel s = Some s.
Proof.
  induction fuel as [|fuel IH]; intros s Hl H.
  - destruct s; [reflexivity|simpl in Hl; lia].
  - destruct s as [|c t]; [reflexivity|].
    cbn [FindAllStringSubmatch hex_replaced] in *. simpl in Hl.
    destruct (strings.HasPrefix (c :: t) hexOpen).
    + destruct (hexGroup (skipn 5 (c :: t))) as [[group rest]|]; [discriminate H|].
      rewrite IH by (try exact H; lia). reflexivity.
    + rewrite IH by (try exact H; lia). reflexivity.
Qed.

Lemma ConvertHexToPlaintext_replaced hash :
  ConvertHexToPlaintext hash
  = match hex_replaced (length hash) hash with
    | Some r => Ok r
    | None => Err
    end.
Proof.
  unfold ConvertHexToPlaintext.
  destruct (FindAllStringSubmatch (length hash) hash) as [|m ms] eqn:F.
  - now rewrite FindAll_nil_replaced.
  - rewrite <- F.
    pose proof (convert_loop (length hash) [] hash [] [] (le_n _)) as H.
    cbn [app length] in H. unfold len at 1 in H. cbn [length Z.of_nat] in H.
    apply H. intros p Hp. lia.
Qed.

Lemma ConvertHexToPlaintext_no_panic hash : ConvertHexToPlaintext hash <> Panic.
Proof.
  rewrite ConvertHexToPlaintext_replaced.
  destruct (hex_replaced (length hash) hash); discriminate.
Qed.

Lemma HasPrefix_head s c p :
  strings.HasPrefix s (c :: p) = true -> exists t, s = c :: t.
Proof.
  destruct s as [|b s]; [discriminate|]. simpl. intros H.
  apply andb_true_iff in H. destruct H as [E _]. apply Ascii.eqb_eq in E.
  subst. now exists s.
Qed.

Lemma hex_replaced_plain fuel : forall s,
  (length s <= fuel)%nat -> ~ In "$"%char s -> hex_replaced fuel s = Some s.
Proof.
  induction fuel as [|fuel IH]; intros s Hl H.
  - destruct s; [reflexivity|simpl in Hl; lia].
  - destruct s as [|c t]; [reflexivity|]. cbn [hex_replaced]. simpl in Hl.
    destruct (strings.HasPrefix (c :: t) hexOpen) eqn:HP.
    + exfalso. apply HasPrefix_head in HP. destruct HP as (t' & E).
      inversion E; subst. apply H. now left.
    + rewrite IH; [reflexivity|lia|]. intros Hin. apply H. now right.
Qed.

Lemma hex_replaced_gap fuel : forall p s,
  ~ In "$"%char p ->
  hex_replaced (length p + fuel) (p ++ s)
  = option_map (app p) (hex_replaced fuel s).
Proof.
  intros p. induction p as [|c p IH]; intros s H.
  - cbn [length app Nat.add]. now destruct (hex_replaced fuel s).
  - cbn [length app Nat.add hex_replaced].
    destruct (strings.HasPrefix (c :: p ++ s) hexOpen) eqn:HP.
    + exfalso. apply HasPrefix_head in HP. destruct HP as (t' & E).
      inversion E; subst. apply H. now left.
    + rewrite IH by (intros Hin; apply H; now right).
      now destruct (hex_replaced fuel s).
Qed.

Lemma DecodeString_pair p q t :
  hex.DecodeString (p :: q :: t)
  = match hex.fromHexChar p, hex.fromHexChar q with
    | Some a, Some b =>
        match hex.DecodeString t with
        | Some dst => Some (byte_of (Z.lor (Z.shiftl a 4) b) :: dst)
        | None => None
        end
    | _, _ => None
    end.
Proof. reflexivity. Qed.

Lemma hexdigit_nibbles c :
  hex.fromHexChar (hex.hexdigit (Z.shiftr (byteval c) 4)) = Some (Z.shiftr (byteval c) 4)
  /\ hex.fromHexChar (hex.hexdigit (Z.land (byteval c) 15)) = Some (Z.land (byteval c) 15)
  /\ byte_of (Z.lor (Z.shiftl (Z.shiftr (byteval c) 4) 4) (Z.land (byteval c) 15)) = c.
Proof.
  destruct c as [[] [] [] [] [] [] [] []]; vm_compute; repeat split; reflexivity.
Qed.

Lemma hexdigit_decode c t :
  hex.DecodeString (hex.hexdigit (Z.shiftr (byteval c) 4)
                    :: hex.hexdigit (Z.land (byteval c) 15) :: t)
  = match hex.DecodeString t with Some dst => Some (c :: dst) | None => None end.
Proof.
  rewrite DecodeString_pair.
  destruct (hexdigit_nibbles c) as (-> & -> & ->). reflexivity.
Qed.

Lemma DecodeString_EncodeToString src :
  hex.DecodeString (hex.EncodeToString src) = Some src.
Proof.
  induction src as [|c src IH]; [reflexivity|].
  unfold hex.EncodeToString in *. cbn [map concat app].
  now rewrite hexdigit_decode, IH.
Qed.

Lemma hexdigit_plain c :
  hex.hexdigit (Z.shiftr (byteval c) 4) <> "]"%char /\
  hex.hexdigit (Z.shiftr (byteval c) 4) <> LF /\
  hex.hexdigit (Z.land (byteval c) 15) <> "]"%char /\
  hex.hexdigit (Z.land (byteval c) 15) <> LF.
Proof.
  destruct c as [[] [] [] [] [] [] [] []]; vm_compute; repeat split; discriminate.
Qed.

Lemma EncodeToString_plain src :
  ~ In "]"%char (hex.EncodeToString src) /\ ~ In LF (hex.EncodeToString src).
Proof.
  induction src as [|c src [IH1 IH2]]; [split; intros []|].
  unfold hex.EncodeToString in *. cbn [map concat app].
  destruct (hexdigit_plain c) as (H1 & H2 & H3 & H4).
  split; intros [E|[E|Hin]]; try (symmetry in E; contradiction); auto.
Qed.

Lemma ConvertHexToPlaintext_plain hash :
  ~ In "$"%char hash -> ConvertHexToPlaintext hash = Ok hash.
Proof.
  intros H. rewrite ConvertHexToPlaintext_replaced.
  now rewrite hex_replaced_plain.
Qed.

Lemma hex_replaced_match fuel group rest bytes :
  ~ In "]"%char group -> ~ In LF group ->
  hex.DecodeString group = Some bytes ->
  hex_replaced (S fuel) (hexOpen ++ group ++ "]"%char :: rest)
  = option_map (app bytes) (hex_replaced fuel rest).
Proof.
  intros H1 H2 D.
  pose proof (HasPrefix_app (group ++ "]"%char :: rest) hexOpen) as HP.
  change (hexOpen ++ group ++ "]"%char :: rest)
    with ("$"%char :: (lit "HEX[" ++ group ++ "]"%char :: rest)) in *.
  cbn [hex_replaced]. rewrite HP.
  change (skipn 5 ("$"%char :: (lit "HEX[" ++ group ++ "]"%char :: rest)))
    with (group ++ "]"%char :: rest).
  now rewrite hexGroup_found, D.
Qed.

Lemma ConvertHexToPlaintext_round_trip p src q :
  ~ In "$"%char p -> ~ In "$"%char q ->
  ConvertHexToPlaintext (p ++ hexOpen ++ hex.EncodeToString src ++ lit "]" ++ q)
  = Ok (p ++ src ++ q).
Proof.
  intros Hp Hq. rewrite ConvertHexToPlaintext_replaced.
  set (m := hexOpen ++ hex.EncodeToString src ++ lit "]" ++ q).
  rewrite length_app, (hex_replaced_gap _ p m Hp).
  assert (E : hex_replaced (length m) m = Some (src ++ q)).
  { subst m. destruct (EncodeToString_plain src) as [H1 H2].
    rewrite length_app. change (length hexOpen) with 5%nat.
    cbn [Nat.add]. change (lit "]" ++ q) with ("]"%char :: q).
    rewrite (hex_replaced_match _ _ _ src H1 H2 (DecodeString_EncodeToString src)).
    rewrite hex_replaced_plain; [reflexivity| |exact Hq].
    rewrite !length_app. cbn [length]. lia. }
  now rewrite E.
Qed.

Lemma hex_replaced_None fuel : forall s,
  (length s <= fuel)%nat ->
  (hex_replaced fuel s = None <->
   exists m, In m (FindAllStringSubmatch fuel s) /\ hex.DecodeString (snd m) = None).
Proof.
  induction fuel as [|fuel IH]; intros s Hl.
  - cbn. split; [discriminate|]. now intros (m & [] & _).
  - destruct s as [|c t].
    { cbn. split; [discriminate|]. now intros (m & [] & _). }
    simpl in Hl. cbn [hex_replaced FindAllStringSubmatch].
    assert (Hskip : option_map (cons c) (hex_replaced fuel t) = None <->
                    exists m, In m (FindAllStringSubmatch fuel t) /\
                              hex.DecodeString (snd m) = None).
    { rewrite <- IH by lia. destruct (hex_replaced fuel t); cbn; split; congruence. }
    destruct (strings.HasPrefix (c :: t) hexOpen); [|exact Hskip].
    destruct (hexGroup (skipn 5 (c :: t))) as [[group rest]|] eqn:G; [|exact Hskip].
    assert (Hr : (length rest <= fuel)%nat).
    { apply hexGroup_spec in G. destruct G as (G & _).
      apply (f_equal (@length _)) in G. rewrite length_skipn, length_app in G.
      cbn [length] in G. lia. }
    destruct (hex.DecodeString group) as [bytes|] eqn:D.
    + split.
      * intros H. destruct (hex_replaced fuel rest) eqn:R; [discriminate H|].
        apply (IH rest Hr) in R. destruct R as (m & Hm & Dm).
        exists m. split; [now right|exact Dm].
      * intros (m & [<-|Hm] & Dm).
        -- cbn [snd] in Dm. congruence.
        -- assert (R : hex_replaced fuel rest = None).
           { apply (IH rest Hr). now exists m. }
           now rewrite R.
    + split; [|reflexivity]. intros _. eexists. split; [now left|exact D].
Qed.

Lemma ConvertHexToPlaintext_Err hash :
  ConvertHexToPlaintext hash = Err <->
  exists m, In m (FindAllStringSubmatch (length hash) hash) /\
            hex.DecodeString (snd m) = None.
Proof.
  rewrite ConvertHexToPlaintext_replaced, <- hex_replaced_None by lia.
  destruct (hex_replaced (length hash) hash); split; congruence.
Qed.

Lemma ToLower_ascii s : is_ascii s -> is_ascii (strings.ToLower s).
Proof.
  intros H. unfold strings.ToLower. apply Forall_map.
  eapply List.Forall_impl; [|exact H]. intros c Hc. cbv beta in *.
  unfold strings.lower_byte, utf8.in_range.
  destruct ((65 <=? byteval c) && (byteval c <=? 90)) eqn:E; [|exact Hc].
  apply andb_true_iff in E. destruct E as [E1 E2].
  apply Z.leb_le in E1, E2. rewrite byteval_byte_of; lia.
Qed.

Lemma ToLower_no_upper s : is_ascii s -> no_upper (strings.ToLower s).
Proof.
  intros H. unfold strings.ToLower, no_upper. apply Forall_map.
  eapply List.Forall_impl; [|exact H]. intros c Hc. cbv beta in *.
  unfold strings.lower_byte, utf8.in_range.
  destruct ((65 <=? byteval c) && (byteval c <=? 90)) eqn:E.
  - apply andb_true_iff in E. destruct E as [E1 E2].
    apply Z.leb_le in E1, E2. rewrite byteval_byte_of; lia.
  - apply andb_false_iff in E. destruct E as [E|E]; apply Z.leb_gt in E; lia.
Qed.

Lemma trimSpace_left_ascii s :
  is_ascii s ->
  exists sp r, s = sp ++ r /\ strings.trimSpace_left s = inl r /\
    (r = [] \/ exists c t, r = c :: t /\ strings.asciiSpace (byteval c) = false).
Proof.
  induction 1 as [|c s Hc Hs IH].
  - exists [], []. cbn. auto.
  - cbn [strings.trimSpace_left].
    destruct (utf8.RuneSelf <=? byteval c) eqn:E; [unfold utf8.RuneSelf in E; lia|].
    destruct (strings.asciiSpace (byteval c)) eqn:A.
    + destruct IH as (sp & r & -> & E2 & H). exists (c :: sp), r. auto.
    + exists [], (c :: s). split; [reflexivity|]. split; [reflexivity|].
      right. now exists c, s.
Qed.

Lemma TrimSpace_ascii s :
  is_ascii s -> is_ascii (strings.TrimSpace s) /\ solid_ends (strings.TrimSpace s).
Proof.
  intros H. unfold strings.TrimSpace.
  destruct (trimSpace_left_ascii s H) as (sp & r & -> & -> & Hr).
  assert (Har : is_ascii r) by (apply Forall_app in H; tauto).
  assert (Harr : is_ascii (rev r)) by (now apply Forall_rev).
  destruct (trimSpace_left_ascii (rev r) Harr) as (sp' & r' & E & -> & Hr').
  assert (Har' : is_ascii r') by (rewrite E in Harr; apply Forall_app in Harr; tauto).
  split; [now apply Forall_rev|].
  destruct Hr' as [->|(d & u & -> & Hd)]; [now left|]. right.
  destruct Hr as [->|(c & t & -> & Hc)].
  { destruct sp'; discriminate E. }
  inversion Har as [|? ? Hc1 _]; subst. inversion Har' as [|? ? Hd1 _]; subst.
  assert (E' : c :: t = rev (d :: u) ++ rev sp').
  { rewrite <- rev_app_distr, <- E. now rewrite rev_involutive. }
  destruct (rev (d :: u)) as [|x y] eqn:R.
  { apply (f_equal (@length _)) in R. rewrite length_rev in R. discriminate R. }
  cbn [app] in E'. inversion E'; subst x.
  exists c, y, d, u. repeat split; auto.
  rewrite <- R. apply rev_involutive.
Qed.

Section UploadProperties.
Context {T : GoTables}.

Lemma no_upper_incl s t : incl t s -> no_upper s -> no_upper t.
Proof.
  intros Hi Hs. apply List.Forall_forall. intros c Hc.
  unfold no_upper in Hs. rewrite List.Forall_forall in Hs. now apply Hs, Hi.
Qed.

Lemma stored_line_kept x :
  upload_skips x = false -> stored_line (strings.TrimSpace (strings.ToLower x)).
Proof.
  intros H. pose proof (upload_skips_acceptable x) as A. rewrite H in A.
  symmetry in A. unfold acceptable in A. rewrite !andb_true_iff in A.
  destruct A as [[[_ A] _] _]. apply ContainsOnlyASCII_is_ascii in A.
  destruct (TrimSpace_ascii _ (ToLower_ascii x A)) as [H1 H2].
  split; [exact H1|]. split; [|exact H2].
  eapply no_upper_incl; [apply TrimSpace_incl|]. now apply ToLower_no_upper.
Qed.

Lemma transform_line_ok acc line :
  Forall stored_line acc ->
  exists acc', transform_line (Ok acc) line = Ok acc' /\ Forall stored_line acc'.
Proof.
  intros Hacc. cbn [transform_line].
  pose proof (ConvertHexToPlaintext_no_panic line) as NP.
  destruct (ConvertHexToPlaintext line) as [convertedLine| |]; [| |contradiction].
  - destruct (upload_skips convertedLine) eqn:S; [now exists acc|].
    eexists. split; [reflexivity|]. apply Forall_app. split; [exact Hacc|].
    constructor; [now apply stored_line_kept|constructor].
  - destruct (upload_skips line) eqn:S; [now exists acc|].
    eexists. split; [reflexivity|]. apply Forall_app. split; [exact Hacc|].
    constructor; [now apply stored_line_kept|constructor].
Qed.

Lemma transform_lines_ok lines : forall acc,
  Forall stored_line acc ->
  exists acc', fold_left transform_line lines (Ok acc) = Ok acc' /\
               Forall stored_line acc'.
Proof.
  induction lines as [|line lines IH]; intros acc Hacc; [now exists acc|].
  cbn [fold_left]. destruct (transform_line_ok acc line Hacc) as (acc1 & -> & H1).
  now apply IH.
Qed.

Lemma transform_line_plain acc line :
  ~ In "$"%char line ->
  transform_line (Ok acc) line
  = Ok (if acceptable line
        then acc ++ [strings.TrimSpace (strings.ToLower line)] else acc).
Proof.
  intros H. cbn [transform_line]. rewrite (ConvertHexToPlaintext_plain line H).
  rewrite <- upload_skips_acceptable. now destruct (upload_skips line).
Qed.

End UploadProperties.

Section GetFirstNLinesProperties.
Variable Map_unicode_ToLower : list ascii -> list ascii.

Lemma GetFirstNLines_loop_spec n sub scanned : forall lines,
  Z.of_nat (length lines) < n ->
  GetFirstNLines_loop Map_unicode_ToLower n sub scanned lines
  = let selected :=
      List.filter (line_selected Map_unicode_ToLower sub) scanned in
    let missing := Z.to_nat (n - Z.of_nat (length lines)) in
    if (missing <=? length selected)%nat
    then (lines ++ firstn missing selected, true)
    else (lines ++ selected, false).
Proof.
  induction scanned as [|line rest IH]; intros lines Hn; cbv zeta.
  - cbn [GetFirstNLines_loop List.filter length].
    destruct (Z.to_nat (n - Z.of_nat (length lines)) <=? 0)%nat eqn:E.
    + apply Nat.leb_le in E. lia.
    + now rewrite app_nil_r.
  - cbn [GetFirstNLines_loop List.filter].
    destruct (line_selected Map_unicode_ToLower sub line) eqn:Sel.
    + rewrite length_app. cbn [length].
      destruct (Z.of_nat (length lines + 1) >=? n) eqn:G.
      * apply Z.geb_le in G.
        assert (E : Z.to_nat (n - Z.of_nat (length lines)) = 1%nat) by lia.
        rewrite E. cbn [Nat.leb firstn]. reflexivity.
      * assert (G' : Z.of_nat (length lines + 1) < n).
        { destruct (Z.geb_spec (Z.of_nat (length lines + 1)) n); [discriminate|lia]. }
        rewrite IH by (rewrite length_app; cbn [length]; lia).
        cbv zeta. rewrite length_app. cbn [length].
        set (sel := List.filter _ rest).
        replace (Z.to_nat (n - Z.of_nat (length lines)))
          with (S (Z.to_nat (n - Z.of_nat (length lines + 1)))) by lia.
        cbn [Nat.leb firstn]. rewrite <- !app_assoc. reflexivity.
    + destruct (Z.of_nat (length lines) >=? n) eqn:G.
      * apply Z.geb_le in G. lia.
      * now rewrite IH.
Qed.

Lemma GetFirstNLines_first_n file n substring :
  1 <= n -> sizeof_string * n <= maxAlloc ->
  GetFirstNLines Map_unicode_ToLower file n substring
  = let substrLower :=
      match substring with
      | s :: _ => ToLower_any Map_unicode_ToLower s
      | [] => []
      end in
    let selected :=
      List.filter (line_selected Map_unicode_ToLower substrLower)
                  (bufio.Scanner_Text file) in
    if n <=? Z.of_nat (length selected) then Ok (firstn (Z.to_nat n) selected)
    else if bufio.Scanner_Err file then Err
    else Ok selected.
Proof.
  intros Hn Hcap. unfold GetFirstNLines, makeslice_panics.
  destruct (n <? 0) eqn:E; [apply Z.ltb_lt in E; lia|].
  destruct (maxAlloc <? sizeof_string * n) eqn:E'; [apply Z.ltb_lt in E'; lia|].
  cbn [orb]. cbv zeta.
  rewrite GetFirstNLines_loop_spec by (cbn [length]; lia). cbv zeta.
  cbn [length app]. rewrite Z.sub_0_r.
  set (selected := List.filter _ _).
  destruct (Z.to_nat n <=? length selected)%nat eqn:L.
  - apply Nat.leb_le in L.
    destruct (n <=? Z.of_nat (length selected)) eqn:L'; [reflexivity|].
    apply Z.leb_gt in L'. lia.
  - apply Nat.leb_gt in L.
    destruct (n <=? Z.of_nat (length selected)) eqn:L'; [apply Z.leb_le in L'; lia|].
    cbn [negb andb]. reflexivity.
Qed.

(** With [n = 0] the loop still looks at the first line before it
    tests the length. *)
Lemma GetFirstNLines_zero file substring :
  GetFirstNLines Map_unicode_ToLower file 0 substring
  = let substrLower :=
      match substring with
      | s :: _ => ToLower_any Map_unicode_ToLower s
      | [] => []
      end in
    match bufio.Scanner_Text file with
    | [] => if bufio.Scanner_Err file then Err else Ok []
    | line :: _ =>
        Ok (if line_selected Map_unicode_ToLower substrLower line
            then [line] else [])
    end.
Proof.
  unfold GetFirstNLines.
  change (makeslice_panics sizeof_string 0) with false. cbv iota zeta.
  destruct (bufio.Scanner_Text file) as [|line rest]; cbn [GetFirstNLines_loop].
  - reflexivity.
  - destruct (line_selected _ _ line); reflexivity.
Qed.

(** The call panics in [make] and nowhere else. *)
Lemma GetFirstNLines_panics file n substring :
  GetFirstNLines Map_unicode_ToLower file n substring = Panic
  <-> n < 0 \/ maxAlloc < sizeof_string * n.
Proof.
  unfold GetFirstNLines, makeslice_panics.
  destruct (n <? 0) eqn:E; cbn [orb].
  - apply Z.ltb_lt in E. tauto.
  - apply Z.ltb_ge in E.
    destruct (maxAlloc <? sizeof_string * n) eqn:E'.
    + apply Z.ltb_lt in E'. tauto.
    + apply Z.ltb_ge in E'.
      destruct (GetFirstNLines_loop _ _ _ _ _) as [lines broke].
      split; [|lia].
      destruct (negb broke && bufio.Scanner_Err file); discriminate.
Qed.

End GetFirstNLinesProperties.

Lemma Index_from_bounds s : forall i sub,
  strings.Index_from i s sub = -1 \/
  exists p, strings.Index_from i s sub = i + Z.of_nat p /\
            (p <= length s)%nat /\
            strings.HasPrefix (skipn p s) sub = true.
Proof.
  induction s as [|c s IH]; intros i sub; cbn [strings.Index_from].
  - destruct (strings.HasPrefix [] sub) eqn:E; [right|now left].
    exists 0%nat. cbn [skipn length]. split; [lia|]. split; [lia|exact E].
  - destruct (strings.HasPrefix (c :: s) sub) eqn:E.
    + right. exists 0%nat. cbn [skipn length]. split; [lia|]. split; [lia|exact E].
    + destruct (IH (i + 1) sub) as [H|(p & H1 & H2 & H3)]; [now left|right].
      exists (S p). cbn [skipn length]. split; [lia|]. split; [lia|exact H3].
Qed.

Lemma SplitN2_cases s sep :
  strings.SplitN2 s sep = [s] \/
  exists a b, strings.SplitN2 s sep = [a; b] /\ s = a ++ sep ++ b.
Proof.
  unfold strings.SplitN2, strings.Index.
  destruct (Index_from_bounds s 0 sep) as [->|(p & -> & Hp & HP)]; [now left|right].
  destruct (0 + Z.of_nat p <? 0) eqn:E; [apply Z.ltb_lt in E; lia|].
  eexists _, _. split; [reflexivity|].
  replace (Z.to_nat (0 + Z.of_nat p)) with p by lia.
  replace (Z.to_nat (0 + Z.of_nat p + len sep)) with (p + length sep)%nat
    by (unfold len; lia).
  rewrite <- (firstn_skipn p s) at 1. f_equal.
  apply HasPrefix_split in HP. rewrite HP at 1. f_equal.
  now rewrite skipn_skipn, Nat.add_comm.
Qed.

Lemma SplitN2_found a sep b c0 :
  ~ In c0 a -> (exists t, sep = c0 :: t) ->
  strings.SplitN2 (a ++ sep ++ b) sep = [a; b].
Proof.
  intros Ha (t & Es). unfold strings.SplitN2, strings.Index.
  rewrite Index_from_found.
  - destruct (0 + len a <? 0) eqn:E; [apply Z.ltb_lt in E; unfold len in E; lia|].
    unfold len. replace (Z.to_nat (0 + Z.of_nat (length a))) with (length a) by lia.
    replace (Z.to_nat (0 + Z.of_nat (length a) + Z.of_nat (length sep)))
      with (length a + length sep)%nat by lia.
    rewrite firstn_app, firstn_all, Nat.sub_diag. cbn [firstn]. rewrite app_nil_r.
    rewrite skipn_app, (skipn_all2 a) by lia.
    replace (length a + length sep - length a)%nat with (length sep) by lia.
    rewrite skipn_app, skipn_all, Nat.sub_diag. cbn [app]. now rewrite skipn_O.
  - apply HasPrefix_app.
  - intros p Hp.
    destruct (strings.HasPrefix (skipn p (a ++ sep ++ b)) sep) eqn:E; [|reflexivity].
    exfalso. rewrite Es in E at 2. apply HasPrefix_head in E. destruct E as (t' & E).
    apply Ha. rewrite skipn_app in E.
    destruct (skipn p a) as [|x y] eqn:Sk.
    + apply (f_equal (@length _)) in Sk. rewrite length_skipn in Sk.
      cbn [length] in Sk. lia.
    + cbn [app] in E. inversion E; subst x.
      apply (incl_skipn p). rewrite Sk. now left.
Qed.

Lemma ReadLogEntries_step_line entries e :
  ~ In SP (Time e) -> ~ In ":"%char (Event e) ->
  ReadLogEntries_step entries
    (Time e ++ lit " - " ++ Event e ++ lit ": " ++ Message e)
  = entries ++ [e].
Proof.
  intros H1 H2. unfold ReadLogEntries_step.
  rewrite (SplitN2_found (Time e) (lit " - ") _ SP H1) by (now eexists).
  rewrite (SplitN2_found (Event e) (lit ": ") _ ":"%char H2) by (now eexists).
  now destruct e.
Qed.

(** A line that gives an entry is the line of that entry. *)
Lemma ReadLogEntries_step_cases entries line :
  ReadLogEntries_step entries line = entries \/
  exists e, ReadLogEntries_step entries line = entries ++ [e] /\
            logLine e = line ++ [LF].
Proof.
  unfold ReadLogEntries_step.
  destruct (SplitN2_cases line (lit " - ")) as [->|(a & b & -> & E1)]; [now left|].
  destruct (SplitN2_cases b (lit ": ")) as [->|(c & d & -> & E2)]; [now left|].
  right. eexists. split; [reflexivity|]. unfold logLine. cbn [Time Event Message].
  rewrite E1, E2. now rewrite <- !app_assoc.
Qed.

Lemma logLine_entryText e : logLine e = entryText e ++ [LF].
Proof. unfold logLine, entryText. now rewrite <- !app_assoc. Qed.

Lemma logText_writeLines es : logText es = writeLines (map entryText es).
Proof.
  unfold logText. rewrite writeLines_concat, map_map. f_equal.
  apply map_ext. intros e. apply logLine_entryText.
Qed.

Lemma ReadLogEntries_step_app entries line :
  ReadLogEntries_step entries line = entries ++ ReadLogEntries_step [] line.
Proof.
  unfold ReadLogEntries_step.
  destruct (strings.SplitN2 line (lit " - ")) as [|a [|b [|? ?]]];
    rewrite ?app_nil_r; try reflexivity.
  destruct (strings.SplitN2 b (lit ": ")) as [|c [|d [|? ?]]];
    rewrite ?app_nil_r; reflexivity.
Qed.

Lemma ReadLogEntries_loop lines : forall entries,
  fold_left ReadLogEntries_step lines entries
  = entries ++ concat (map (ReadLogEntries_step []) lines).
Proof.
  induction lines as [|l lines IH]; intros entries; cbn [fold_left map concat].
  - now rewrite app_nil_r.
  - rewrite IH, (ReadLogEntries_step_app entries l). now rewrite <- app_assoc.
Qed.

(** The lines of a log that give an entry are the lines of the
    entries read. *)
Lemma parsed_lines lines :
  exists kept,
    sublist kept lines /\
    map entryText (concat (map (ReadLogEntries_step []) lines)) = kept /\
    concat (map (ReadLogEntries_step []) kept)
    = concat (map (ReadLogEntries_step []) lines).
Proof.
  induction lines as [|l lines (kept & Hs & Hk & Hp)].
  - exists []. repeat split; constructor.
  - cbn [map concat].
    destruct (ReadLogEntries_step_cases [] l) as [E|(e & E & EL)].
    + rewrite E. cbn [app]. exists kept. split; [now apply sublist_cons|].
      split; assumption.
    + rewrite E. cbn [app]. rewrite logLine_entryText in EL.
      apply app_inj_tail in EL. destruct EL as [EL _].
      exists (l :: kept). split; [now apply sublist_skip|].
      split; [cbn [map]; congruence|].
      cbn [map concat]. rewrite E. cbn [app]. now rewrite Hp.
Qed.

Lemma Forall_sublist {A} (P : A -> Prop) (k l : list A) :
  sublist k l -> Forall P l -> Forall P k.
Proof.
  intros Hs Hl. apply List.Forall_forall. intros x Hx.
  rewrite List.Forall_forall in Hl. apply Hl.
  apply list_elem_of_In. eapply elem_of_sublist; [|exact Hs]. now apply list_elem_of_In.
Qed.

Lemma plain_entry_stable e : plain_entry e -> stable_entry e.
Proof.
  intros (H1 & H2 & H3 & H4 & H5 & H6 & H7).
  split; [|split; [|split]].
  - unfold entryText, LF_free. rewrite !in_app_iff.
    intros [H|[H|[H|[H|H]]]]; try contradiction;
      cbn in H; repeat destruct H as [H|H]; try discriminate H; try contradiction.
  - unfold bufio.fits. apply Z.ltb_lt. rewrite logLine_entryText in H7.
    unfold len in *. rewrite length_app in H7. cbn [length] in H7. lia.
  - destruct (dropCR_cases (entryText e)) as [E|E]; [exact E|]. exfalso.
    unfold entryText in E. remember (Message e) as msg eqn:M.
    destruct msg as [|m ms _] using rev_ind.
    + rewrite app_nil_r in E. rewrite !app_assoc in E.
      change (lit ": ") with ([":"%char] ++ [SP]) in E. rewrite !app_assoc in E.
      apply app_inj_tail in E. destruct E as [_ E]. discriminate E.
    + rewrite !app_assoc in E. apply app_inj_tail in E.
      destruct E as [_ E]. apply H6. apply in_or_app. right.
      left. exact E.
  - apply (ReadLogEntries_step_line [] e H1 H2).
Qed.

Lemma whole_lines_app R l :
  Forall LF_free R -> LF_free l ->
  bufio.rawLines (writeLines R ++ l ++ [LF]) = R ++ [l].
Proof.
  intros HR Hl.
  replace (writeLines R ++ l ++ [LF]) with (writeLines (R ++ [l])).
  - apply rawLines_writeLines. apply Forall_app. split; [exact HR|]. now constructor.
  - rewrite writeLines_app. reflexivity.
Qed.

Lemma scan_app R1 R2 :
  forallb bufio.fits R1 = true -> bufio.scan (R1 ++ R2) = bufio.scan R1 ++ bufio.scan R2.
Proof.
  induction R1 as [|l R1 IH]; intros H; [reflexivity|].
  cbn [forallb] in H. apply andb_true_iff in H. destruct H as [Hl H1].
  cbn [app bufio.scan]. rewrite Hl. cbn [app]. now rewrite IH.
Qed.

(** Appending the line of an entry to a log of whole lines. *)
Lemma ReadLogEntries_appended logFile entries e :
  logFile = writeLines (bufio.rawLines logFile) ->
  ReadLogEntries logFile = Some entries -> stable_entry e ->
  ReadLogEntries (logFile ++ logLine e) = Some (entries ++ [e]).
Proof.
  intros Hw H He. destruct He as (H1 & H2 & H3 & H4).
  assert (HR : bufio.rawLines (logFile ++ entryText e ++ [LF])
               = bufio.rawLines logFile ++ [entryText e]).
  { rewrite Hw at 1. apply whole_lines_app; [apply rawLines_LF_free|exact H1]. }
  unfold ReadLogEntries, bufio.Scanner_Err, bufio.Scanner_Text in *.
  rewrite logLine_entryText, HR.
  destruct (forallb bufio.fits (bufio.rawLines logFile)) eqn:Hfit;
    [|discriminate H].
  cbn [negb] in H. injection H as E.
  rewrite forallb_app, Hfit. cbn [forallb]. rewrite H2. cbn [andb negb].
  rewrite scan_app by exact Hfit. cbn [bufio.scan]. rewrite H2, H3.
  rewrite fold_left_app, E. cbn [fold_left].
  now rewrite ReadLogEntries_step_app, H4.
Qed.

Lemma logText_whole_lines entries :
  Forall LF_free (map entryText entries) ->
  logText entries = writeLines (bufio.rawLines (logText entries)).
Proof. intros H. rewrite logText_writeLines. now rewrite rawLines_writeLines. Qed.

Lemma parsed_entries_LF_free logFile entries :
  ReadLogEntries logFile = Some entries -> Forall LF_free (map entryText entries).
Proof.
  unfold ReadLogEntries. destruct (bufio.Scanner_Err logFile); [discriminate|].
  intros H. inversion H as [E]. rewrite ReadLogEntries_loop. cbn [app].
  destruct (parsed_lines (bufio.Scanner_Text logFile)) as (kept & Hs & Hk & _).
  rewrite Hk. eapply Forall_sublist; [exact Hs|apply Scanner_Text_LF_free].
Qed.

(** The entries read from a log without carriage returns are read
    back from their lines. *)
Lemma parsed_entries_stable logFile entries :
  ~ In CR logFile -> ReadLogEntries logFile = Some entries ->
  Forall stable_entry entries.
Proof.
  intros HCR. unfold ReadLogEntries.
  destruct (bufio.Scanner_Err logFile); [discriminate|].
  intros H. inversion H as [E]. clear H E. rewrite ReadLogEntries_loop. cbn [app].
  pose proof (Scanner_Text_LF_free logFile) as HLF.
  pose proof (Scanner_Text_fits logFile) as Hfit.
  pose proof (Scanner_Text_CR_free _ HCR) as Hcr.
  induction (bufio.Scanner_Text logFile) as [|l lines IH]; [constructor|].
  inversion HLF; inversion Hfit; inversion Hcr; subst.
  cbn [map concat]. apply Forall_app. split; [|now apply IH].
  destruct (ReadLogEntries_step_cases [] l) as [E|(e & E & EL)];
    rewrite E; [constructor|].
  cbn [app]. constructor; [|constructor].
  rewrite logLine_entryText in EL. apply app_inj_tail in EL. destruct EL as [EL _].
  unfold stable_entry. rewrite EL. repeat split; try assumption.
  now apply CR_free_dropCR.
Qed.

Lemma ReadLogEntries_logText entries :
  Forall stable_entry entries -> ReadLogEntries (logText entries) = Some entries.
Proof.
  intros H. unfold ReadLogEntries. rewrite logText_writeLines.
  assert (HLF : Forall LF_free (map entryText entries)).
  { apply Forall_map. eapply List.Forall_impl; [|exact H]. now intros e (? & _). }
  assert (Hfit : Forall (fun l => bufio.fits l = true) (map entryText entries)).
  { apply Forall_map. eapply List.Forall_impl; [|exact H]. now intros e (_ & ? & _). }
  assert (Hcr : Forall (fun l => bufio.dropCR l = l) (map entryText entries)).
  { apply Forall_map. eapply List.Forall_impl; [|exact H]. now intros e (_ & _ & ? & _). }
  assert (Herr : bufio.Scanner_Err (writeLines (map entryText entries)) = false).
  { unfold bufio.Scanner_Err. rewrite rawLines_writeLines by exact HLF.
    apply negb_false_iff, forallb_forall, List.Forall_forall. exact Hfit. }
  rewrite Herr, Scanner_Text_writeLines by assumption.
  rewrite ReadLogEntries_loop. cbn [app]. f_equal.
  clear -H. induction H as [|e es (_ & _ & _ & He) _ IH]; [reflexivity|].
  cbn [map concat]. now rewrite He, IH.
Qed.

Lemma Forall_skipn {A} (P : A -> Prop) n (l : list A) :
  Forall P l -> Forall P (skipn n l).
Proof.
  intros H. apply List.Forall_forall. intros x Hx. apply incl_skipn in Hx.
  rewrite List.Forall_forall in H. now apply H.
Qed.

Lemma truncateLogFile_eq logFile :
  truncateLogFile logFile
  = option_map (fun entries => logText (skipn 1 entries)) (ReadLogEntries logFile).
Proof.
  unfold truncateLogFile. destruct (ReadLogEntries logFile) as [entries|]; [|reflexivity].
  cbn [option_map]. f_equal.
  rewrite (fold_left_app_concat logLine). cbn [app]. unfold logText.
  destruct entries; reflexivity.
Qed.

(** [truncateLogFile] leaves the entries of the log but the oldest. *)
Lemma truncateLogFile_drops_oldest logFile entries :
  ~ In CR logFile -> ReadLogEntries logFile = Some entries ->
  exists logFile',
    truncateLogFile logFile = Some logFile' /\
    ReadLogEntries logFile' = Some (skipn 1 entries).
Proof.
  intros HCR H. rewrite truncateLogFile_eq, H. cbn [option_map].
  eexists. split; [reflexivity|]. apply ReadLogEntries_logText.
  apply Forall_skipn. now apply (parsed_entries_stable logFile).
Qed.

Lemma WriteLogEntry_read_back maxSize logFile entries e :
  ~ In CR logFile ->
  logFile = writeLines (bufio.rawLines logFile) ->
  ReadLogEntries logFile = Some entries ->
  plain_entry e ->
  exists logFile',
    WriteLogEntry_with maxSize e logFile = Some logFile' /\
    ReadLogEntries logFile'
    = Some ((if len logFile >? maxSize then skipn 1 entries else entries) ++ [e]).
Proof.
  intros HCR Hw H He. apply plain_entry_stable in He.
  unfold WriteLogEntry_with.
  destruct (len logFile >? maxSize).
  - rewrite truncateLogFile_eq, H. cbn [option_map].
    eexists. split; [reflexivity|].
    apply ReadLogEntries_appended; [| |exact He].
    + apply logText_whole_lines. rewrite <- skipn_map. apply Forall_skipn.
      now apply (parsed_entries_LF_free logFile).
    + apply ReadLogEntries_logText, Forall_skipn.
      now apply (parsed_entries_stable logFile).
  - eexists. split; [reflexivity|]. now apply ReadLogEntries_appended.
Qed.

Lemma WriteLogEntry_error maxSize logFile e :
  WriteLogEntry_with maxSize e logFile = None <->
  maxSize < len logFile /\ bufio.Scanner_Err logFile = true.
Proof.
  unfold WriteLogEntry_with. rewrite truncateLogFile_eq. unfold ReadLogEntries.
  destruct (len logFile >? maxSize) eqn:E.
  - destruct (bufio.Scanner_Err logFile); cbn [option_map]; split;
      try discriminate; try (intros [_ ?]; discriminate); try reflexivity.
    intros _. split; [lia|reflexivity].
  - split; [discriminate|]. intros [H _]. lia.
Qed.

Section ControlChars.
Context {T : GoTables}.

Lemma RemoveControlChars_loop s : forall b,
  printable s ->
  fold_left
    (fun b r => if (r >=? 32) && (r <=? 126) then b ++ [byte_of r] else b)
    (map byteval s) b
  = b ++ s.
Proof.
  induction s as [|c s IH]; intros b H; cbn [map fold_left].
  - now rewrite app_nil_r.
  - inversion H as [|? ? Hc Hs]; subst.
    destruct ((byteval c >=? 32) && (byteval c <=? 126)) eqn:E.
    + rewrite IH by exact Hs. unfold byte_of, byteval.
      rewrite N2Z.id, ascii_N_embedding. now rewrite <- app_assoc.
    + apply andb_false_iff in E. destruct E as [E|E].
      * destruct (Z.geb_spec (byteval c) 32); [discriminate E|lia].
      * apply Z.leb_gt in E. lia.
Qed.

Lemma printable_is_ascii s : printable s -> is_ascii s.
Proof. apply List.Forall_impl. intros c H. cbv beta in *. lia. Qed.

Lemma RemoveControlChars_printable_fixed s :
  printable s -> RemoveControlChars s = s.
Proof.
  intros H. unfold RemoveControlChars.
  rewrite runes_ascii by (now apply printable_is_ascii).
  now rewrite RemoveControlChars_loop.
Qed.

End ControlChars.

Lemma EnforceLengthRange_idem input lo hi :
  EnforceLengthRange (EnforceLengthRange input lo hi) lo hi
  = EnforceLengthRange input lo hi.
Proof.
  rewrite !EnforceLengthRange_filter.
  set (K := List.filter (in_length_range lo hi) (strings.Split input LF)).
  assert (HK : Forall LF_free K).
  { apply List.Forall_forall. intros l Hl. apply filter_In in Hl as [Hl _].
    pose proof (Split_pieces_LF_free input) as HP.
    rewrite List.Forall_forall in HP. now apply HP. }
  assert (HP : forall l, In l K -> in_length_range lo hi l = true).
  { intros l Hl. now apply filter_In in Hl as [_ Hl]. }
  destruct K as [|k K].
  - cbn [strings.Join strings.Split List.filter].
    destruct (in_length_range lo hi []); reflexivity.
  - rewrite Split_Join by (try discriminate; exact HK). f_equal.
    clear HK. induction (k :: K) as [|x L IH]; [reflexivity|].
    cbn [List.filter]. rewrite (HP x) by now left.
    f_equal. apply IH. intros l Hl. apply HP. now right.
Qed.

Lemma GenerateNGrams_count_1_5 text :
  (4 <= length (strings.Fields text))%nat ->
  length (GenerateNGrams text 1 5)
  = (5 * length (strings.Fields text) - 10)%nat.
Proof.
  intros H. rewrite GenerateNGrams_length.
  change (5 + 1 - 1)%nat with 5%nat. cbn [seq map]. unfold list_sum. cbn [fold_right]. lia.
Qed.

(** ** The predicates, byte by byte *)

(** X1: [ContainsOnlyASCII] returns true exactly when every byte of
    the string is below 128, whether the bytes are valid UTF-8 or not. *)
Theorem X1_ContainsOnlyASCII_bytes (s : list ascii) :
  ContainsOnlyASCII s = forallb (fun c => byteval c <? 128) s
  /\ (ContainsOnlyASCII s = true <-> is_ascii s).
Proof. split; [apply ContainsOnlyASCII_bytes|apply ContainsOnlyASCII_is_ascii]. Qed.

Section FilterTests.
Context {T : GoTables}.

(** X2: a string that passes [LikelyContainsWords] holds a letter, so
    the first test of [filterLines] never rejects a line that its
    third test would keep: [filterLines] keeps the lines that are
    ASCII and pass [LikelyContainsWords]. *)
Theorem X2_LikelyContainsWords_has_letter :
  (forall s, LikelyContainsWords s = true -> IsAllDigitsOrSpecialChars s = false)
  /\ (forall data,
        filterLines data
        = writeLines
            (List.filter (fun l => ContainsOnlyASCII l && LikelyContainsWords l)
                         (bufio.Scanner_Text data))).
Proof.
  split; [apply LikelyContainsWords_has_letter|].
  intros data. rewrite filterLines_filter. f_equal.
  apply filter_ext_bool. apply wordlike_two_tests.
Qed.

(** X3: [LikelyContainsWords] looks for one window: a string that
    passes still passes with any bytes before it and after it. *)
Theorem X3_LikelyContainsWords_extend (p s q : list ascii) :
  LikelyContainsWords s = true -> LikelyContainsWords (p ++ s ++ q) = true.
Proof. apply LikelyContainsWords_extend. Qed.

End FilterTests.

Lemma X3_LikelyContainsWords_extend_witness :
  LikelyContainsWords (T:=asciiTables) (lit "horse") = true
  /\ LikelyContainsWords (T:=asciiTables) (lit "12" ++ lit "horse" ++ lit "34")
     = true.
Proof.
  split; [vm_compute; reflexivity|].
  apply (X3_LikelyContainsWords_extend (T:=asciiTables)). vm_compute. reflexivity.
Defined.

(** ** The digits at the ends of a line *)

(** X4: [removeTrailingDigits] writes each line that it scans without
    the ASCII digits at its end, and [removeLeadingDigits] without
    those at its start, whatever other bytes the line holds: what is
    cut is digits only, and what is left does not end (does not start)
    with a digit. *)
Theorem X4_digit_trimming_bytes :
  (forall data,
     removeTrailingDigits data
     = writeLines (map cut_trailing_digits (bufio.Scanner_Text data)))
  /\ (forall data,
        removeLeadingDigits data
        = writeLines (map cut_leading_digits (bufio.Scanner_Text data)))
  /\ (forall line,
        strings.TrimRightFunc line isDigit = cut_trailing_digits line /\
        ends_with_digit (cut_trailing_digits line) = false /\
        exists digits, line = cut_trailing_digits line ++ digits /\
                       Forall (fun d => digit_byte d = true) digits)
  /\ (forall line,
        strings.TrimLeftFunc line isDigit = cut_leading_digits line /\
        starts_with_digit (cut_leading_digits line) = false /\
        exists digits, line = digits ++ cut_leading_digits line /\
                       Forall (fun d => digit_byte d = true) digits).
Proof.
  split; [apply removeTrailingDigits_lines|].
  split; [apply removeLeadingDigits_lines|]. split; intros line.
  - split; [apply TrimRightFunc_isDigit|]. split; [apply cut_trailing_digits_end|].
    destruct (cut_trailing_digits_spec line) as (ds & E & F & _). now exists ds.
  - split; [apply TrimLeftFunc_isDigit|]. split; [apply cut_leading_digits_start|].
    destruct (cut_leading_digits_spec line) as (ds & E & F & _). now exists ds.
Qed.

(** X5: on data without carriage returns the two trimming steps are
    idempotent.  (A carriage return that the first pass leaves at the
    end of a line is dropped by the scanner of the second.) *)
Theorem X5_digit_trimming_idempotent (data : list ascii) :
  ~ In CR data ->
  removeTrailingDigits (removeTrailingDigits data) = removeTrailingDigits data
  /\ removeLeadingDigits (removeLeadingDigits data) = removeLeadingDigits data.
Proof.
  intros H. split; [now apply removeTrailingDigits_idem|now apply removeLeadingDigits_idem].
Qed.

Lemma X5_digit_trimming_idempotent_witness :
  ~ In CR (ln "abc123" ++ ln "42xyz")
  /\ removeTrailingDigits (removeTrailingDigits (ln "abc123" ++ ln "42xyz"))
     = removeTrailingDigits (ln "abc123" ++ ln "42xyz")
  /\ removeLeadingDigits (removeLeadingDigits (ln "abc123" ++ ln "42xyz"))
     = removeLeadingDigits (ln "abc123" ++ ln "42xyz").
Proof.
  assert (H : ~ In CR (ln "abc123" ++ ln "42xyz")).
  { vm_compute. intros H. repeat destruct H as [H|H]; try discriminate H. exact H. }
  exact (conj H (X5_digit_trimming_idempotent _ H)).
Defined.

Section TransformDigits.
Context {T : GoTables}.

(** X6: with a title caser that keeps printable ASCII printable, no
    line that the transform stage writes starts or ends with a digit. *)
Theorem X6_transform_lines_without_digits_at_ends (chunk : list ascii) :
  Title_keeps_printable T ->
  Forall (fun l => starts_with_digit l = false /\ ends_with_digit l = false)
         (bufio.rawLines (transformChunk chunk)).
Proof. apply transformChunk_no_digit_at_ends. Qed.

End TransformDigits.

Lemma X6_transform_lines_without_digits_at_ends_witness :
  Title_keeps_printable asciiTables
  /\ Forall (fun l => starts_with_digit l = false /\ ends_with_digit l = false)
       (bufio.rawLines
          (transformChunk (T:=asciiTables) (ln "2hunter2 99password"))).
Proof.
  split; [exact asciiTables_Title_keeps_printable|].
  apply (X6_transform_lines_without_digits_at_ends (T:=asciiTables)).
  exact asciiTables_Title_keeps_printable.
Defined.

(** ** The aggregate stage, window by window *)

(** X7: the output of [mergeSortedChunks] is the lines consumed, cut
    into consecutive windows, each window flushed: every window but
    the last fills the table beyond the threshold. *)
Theorem X7_mergeSortedChunks_windows
    (threshold : Z) (tempDir : dir) (out : list ascii) :
  mergeSortedChunks_with threshold tempDir = Some out ->
  exists windows,
    lines_consumed tempDir = concat windows /\
    out = concat (map (fun window => flushEntriesToFile (table_of window) [])
                      windows) /\
    Forall (overflows threshold) (removelast windows) /\
    windows <> [].
Proof. apply mergeSortedChunks_windows. Qed.

Lemma X7_mergeSortedChunks_windows_witness :
  exists out,
    mergeSortedChunks_with 1 [(chunkName 0, ln "a" ++ ln "b" ++ ln "a")] = Some out
    /\ exists windows,
         lines_consumed [(chunkName 0, ln "a" ++ ln "b" ++ ln "a")]
         = concat windows /\
         out = concat (map (fun window => flushEntriesToFile (table_of window) [])
                           windows) /\
         Forall (overflows 1) (removelast windows) /\
         windows <> [].
Proof.
  eexists. split; [vm_compute; reflexivity|].
  apply X7_mergeSortedChunks_windows. vm_compute. reflexivity.
Defined.

Lemma table_of_size window : (size (table_of window) <= length window)%nat.
Proof.
  induction window as [|l window IH] using rev_ind; [reflexivity|].
  rewrite <- table_of_snoc, increment_size, length_app. cbn [length].
  destruct (table_of window !! l); lia.
Qed.

(** X8: the table built from a window holds the lines of the window,
    each with the number of its occurrences in the window, and a flush
    lists these pairs. *)
Theorem X8_table_counts_occurrences
    (window : list (list ascii)) (key : list ascii) (count : Z) :
  (table_of window !! key = Some count <->
   In key window /\ count = occurrences key window)
  /\ (In (key, count) (sortedPairs (table_of window)) <->
      In key window /\ count = occurrences key window)
  /\ (size (table_of window) <= length window)%nat.
Proof.
  split; [apply table_of_lookup_Some|]. split; [|apply table_of_size].
  rewrite sortedPairs_lookup. apply table_of_lookup_Some.
Qed.

(** ** The sort stage and the whole run *)

(** X9: [SortByAproxFrequency] returns an error exactly when the
    target has a line of 65536 bytes or more. *)
Theorem X9_SortByAproxFrequency_error_iff_long_line (target : list ascii) :
  SortByAproxFrequency target = None <->
  Exists (fun l => 65536 <= len l) (bufio.rawLines target).
Proof. rewrite SortByAproxFrequency_error. apply Scanner_Err_long. Qed.

(** X10: when the target has no more distinct lines than the table
    may hold, the sort stage writes one flush: each distinct line once
    (as the scanner of the chunk files gives it), by descending number
    of occurrences. *)
Theorem X10_SortByAproxFrequency_single_flush (target : list ascii) :
  bufio.Scanner_Err target = false ->
  Z.of_nat (size (table_of (map bufio.dropCR (bufio.Scanner_Text target))))
    <= flushThreshold ->
  SortByAproxFrequency target
  = Some (flushEntriesToFile
            (table_of (map bufio.dropCR (bufio.Scanner_Text target))) []).
Proof. apply SortByAproxFrequency_one_window. Qed.

Lemma X10_SortByAproxFrequency_single_flush_witness :
  bufio.Scanner_Err (ln "b" ++ ln "a" ++ ln "b") = false
  /\ SortByAproxFrequency (ln "b" ++ ln "a" ++ ln "b")
     = Some (flushEntriesToFile
               (table_of (map bufio.dropCR
                            (bufio.Scanner_Text (ln "b" ++ ln "a" ++ ln "b")))) [])
  /\ SortByAproxFrequency (ln "b" ++ ln "a" ++ ln "b") = Some (ln "b" ++ ln "a").
Proof.
  split; [vm_compute; reflexivity|]. split; [|vm_compute; reflexivity].
  apply X10_SortByAproxFrequency_single_flush; [vm_compute; reflexivity|].
  apply Z.leb_le. vm_compute. reflexivity.
Defined.

(** X11: on a target of graphic ASCII lines the sort stage writes the
    lines that it reads: no other line, and each of them. *)
Theorem X11_SortByAproxFrequency_same_lines (target out : list ascii) :
  SortByAproxFrequency target = Some out ->
  Forall graphic (bufio.Scanner_Text target) ->
  forall l, In l (lines_written out) <-> In l (bufio.Scanner_Text target).
Proof. apply SortByAproxFrequency_same_lines. Qed.

Lemma X11_SortByAproxFrequency_same_lines_witness :
  SortByAproxFrequency (ln "b" ++ ln "a" ++ ln "b") = Some (ln "b" ++ ln "a")
  /\ forall l, In l (lines_written (ln "b" ++ ln "a")) <->
               In l (bufio.Scanner_Text (ln "b" ++ ln "a" ++ ln "b")).
Proof.
  split; [vm_compute; reflexivity|].
  apply X11_SortByAproxFrequency_same_lines; [vm_compute; reflexivity|].
  assert (E : bufio.Scanner_Text (ln "b" ++ ln "a" ++ ln "b")
              = [lit "b"; lit "a"; lit "b"]) by (vm_compute; reflexivity).
  rewrite E. repeat constructor; vm_compute; discriminate.
Defined.

Section WholeRun.
Context {T : GoTables}.

(** X12: on an empty target [CreateWizardWordlist] returns no error,
    and, with a title caser that keeps printable ASCII printable, the
    lines of its output are the lines that the transform stage wrote
    for the blocks of the source. *)
Theorem X12_CreateWizardWordlist_fresh_target (source : list ascii) :
  (exists out, CreateWizardWordlist source [] = Some out)
  /\ (Title_keeps_printable T ->
      forall out, CreateWizardWordlist source [] = Some out ->
      forall l, In l (lines_written out) <-> In l (transformed_lines source)).
Proof.
  split; [apply CreateWizardWordlist_fresh_succeeds|].
  intros HT out H. now apply CreateWizardWordlist_fresh_lines.
Qed.

End WholeRun.

(** ** N-grams *)

(** X13: on an ASCII line the words of [GenerateNGrams] are not empty
    and hold no white space, and each n-gram is a run of consecutive
    words joined by one space, less the bytes [.], [,] and [;]: the
    calls of [TrimSpace] and [TrimLeft] change nothing.  With the
    range 1 to 1 the n-grams are the words. *)
Theorem X13_GenerateNGrams_ascii (text : list ascii) (a b : nat) :
  is_ascii text ->
  Forall ascii_word (strings.Fields text)
  /\ GenerateNGrams text a b
     = concat (map (fun i =>
                      map (fun j =>
                             without_punctuation
                               (strings.Join (slice (strings.Fields text) j (j + i))
                                             [SP]))
                          (seq 0 (length (strings.Fields text) + 1 - i)))
                   (seq a (b + 1 - a)))
  /\ GenerateNGrams text 1 1 = map without_punctuation (strings.Fields text).
Proof.
  intros H. split; [now apply Fields_ascii|].
  split; [now apply GenerateNGrams_ascii|now apply GenerateNGrams_words].
Qed.

Lemma X13_GenerateNGrams_ascii_witness :
  is_ascii (lit "correct horse, battery")
  /\ GenerateNGrams (lit "correct horse, battery") 1 1
     = [lit "correct"; lit "horse"; lit "battery"].
Proof.
  assert (H : is_ascii (lit "correct horse, battery")).
  { repeat constructor; vm_compute; reflexivity. }
  split; [exact H|].
  destruct (X13_GenerateNGrams_ascii _ 1 1 H) as (_ & _ & ->).
  vm_compute. reflexivity.
Defined.

(** X14: the number of n-grams of a line of [w] words: for each size
    [i] of the range, [w + 1 - i] of them, none when [i] is above
    [w + 1]; with the range 1 to 5 of the pipeline and four words or
    more, [5 * w - 10]. *)
Theorem X14_GenerateNGrams_count (text : list ascii) :
  (forall a b,
     length (GenerateNGrams text a b)
     = list_sum (map (fun i => length (strings.Fields text) + 1 - i)%nat
                     (seq a (b + 1 - a))))
  /\ ((4 <= length (strings.Fields text))%nat ->
      length (GenerateNGrams text 1 5)
      = (5 * length (strings.Fields text) - 10)%nat).
Proof.
  split; [intros a b; apply GenerateNGrams_length|apply GenerateNGrams_count_1_5].
Qed.

(** ** Groups in hexadecimal *)

(** X15: [ConvertHexToPlaintext] returns the text with each group
    [$HEX[...]] replaced by the bytes that the group spells, and an
    error when a group is not a hexadecimal text; the search of each
    match with [strings.Index] finds the match itself, so that no
    slice is out of range; a text without [$] is returned as it is. *)
Theorem X15_ConvertHexToPlaintext_replaces_groups (hash : list ascii) :
  ConvertHexToPlaintext hash
  = match hex_replaced (length hash) hash with
    | Some plaintext => Ok plaintext
    | None => Err
    end
  /\ ConvertHexToPlaintext hash <> Panic
  /\ (~ In "$"%char hash -> ConvertHexToPlaintext hash = Ok hash).
Proof.
  split; [apply ConvertHexToPlaintext_replaced|].
  split; [apply ConvertHexToPlaintext_no_panic|apply ConvertHexToPlaintext_plain].
Qed.

(** X16: decoding undoes encoding: a group that holds the hexadecimal
    text of some bytes is replaced by these bytes, between a text
    before and a text after that hold no [$]. *)
Theorem X16_ConvertHexToPlaintext_round_trip (p src q : list ascii) :
  ~ In "$"%char p -> ~ In "$"%char q ->
  ConvertHexToPlaintext (p ++ hexOpen ++ hex.EncodeToString src ++ lit "]" ++ q)
  = Ok (p ++ src ++ q).
Proof. apply ConvertHexToPlaintext_round_trip. Qed.

Lemma X16_ConvertHexToPlaintext_round_trip_witness :
  ConvertHexToPlaintext
    (lit "pass" ++ hexOpen ++ hex.EncodeToString (lit "word!") ++ lit "]" ++ lit "1")
  = Ok (lit "pass" ++ lit "word!" ++ lit "1")
  /\ lit "pass" ++ hexOpen ++ hex.EncodeToString (lit "word!") ++ lit "]" ++ lit "1"
     = lit "pass$HEX[776f726421]1".
Proof.
  split; [|vm_compute; reflexivity].
  apply X16_ConvertHexToPlaintext_round_trip;
    vm_compute; intros H; repeat destruct H as [H|H]; try discriminate H; exact H.
Defined.

(** X17: [ConvertHexToPlaintext] returns an error exactly when the
    group of one of the matches is not a hexadecimal text; a group of
    odd length is not. *)
Theorem X17_ConvertHexToPlaintext_error (hash : list ascii) :
  (ConvertHexToPlaintext hash = Err <->
   exists m, In m (FindAllStringSubmatch (length hash) hash) /\
             hex.DecodeString (snd m) = None)
  /\ (forall group, Nat.Odd (length group) -> hex.DecodeString group = None).
Proof.
  split; [apply ConvertHexToPlaintext_Err|].
  intros group. induction group as [group IH] using (induction_ltof1 _ (@length _)).
  unfold ltof in IH. intros Hodd. destruct group as [|p [|q t]].
  - destruct Hodd as [k Hk]. cbn [length] in Hk. lia.
  - reflexivity.
  - rewrite DecodeString_pair, IH.
    + now destruct (hex.fromHexChar p), (hex.fromHexChar q).
    + cbn [length]. lia.
    + destruct Hodd as [k Hk]. cbn [length] in Hk. exists (k - 1)%nat. lia.
Qed.

(** ** The first lines of a file *)

(** X19: [GetFirstNLines] panics, in [make([]string, 0, n)], exactly
    when [n] is negative or above 2^44 (16 bytes for each string, 2^48
    bytes at most, on a 64-bit platform).  For [n] from 1 to 2^44,
    memory sufficing, it returns the first [n] of the lines that hold
    the substring, all of them when they are fewer; it returns the
    error of the scanner only when they are fewer than [n]. *)
Theorem X19_GetFirstNLines_first_n
    (Map_unicode_ToLower : list ascii -> list ascii)
    (file : list ascii) (n : Z) (substring : list (list ascii)) :
  (GetFirstNLines Map_unicode_ToLower file n substring = Panic
   <-> n < 0 \/ 2 ^ 44 < n)
  /\ (1 <= n <= 2 ^ 44 ->
      GetFirstNLines Map_unicode_ToLower file n substring
      = let substrLower :=
          match substring with
          | s :: _ => ToLower_any Map_unicode_ToLower s
          | [] => []
          end in
        let selected :=
          List.filter (line_selected Map_unicode_ToLower substrLower)
                      (bufio.Scanner_Text file) in
        if n <=? Z.of_nat (length selected)
        then Ok (firstn (Z.to_nat n) selected)
        else if bufio.Scanner_Err file then Err
        else Ok selected).
Proof.
  assert (E : forall k, sizeof_string * k <= maxAlloc <-> k <= 2 ^ 44)
    by (intros k; unfold sizeof_string, maxAlloc; lia).
  split.
  - rewrite GetFirstNLines_panics. specialize (E n). lia.
  - intros [H1 H2]. apply GetFirstNLines_first_n; [exact H1|now apply E].
Qed.

Lemma X19_GetFirstNLines_first_n_witness :
  1 <= 2 <= 2 ^ 44
  /\ GetFirstNLines (fun s => s)
       (ln "Alpha" ++ ln "beta" ++ ln "ALPHABET" ++ ln "alpha3") 2 [lit "ALPHA"]
     = Ok [lit "Alpha"; lit "ALPHABET"]
  /\ GetFirstNLines (fun s => s) (ln "Alpha") (2 ^ 62) [] = Panic.
Proof.
  split; [lia|]. split.
  - rewrite (proj2 (X19_GetFirstNLines_first_n (fun s => s)
                      (ln "Alpha" ++ ln "beta" ++ ln "ALPHABET" ++ ln "alpha3")
                      2 [lit "ALPHA"])) by lia.
    vm_compute. reflexivity.
  - apply (proj1 (X19_GetFirstNLines_first_n (fun s => s) (ln "Alpha")
                    (2 ^ 62) [])). right. lia.
Defined.

(** X20: with [n = 0] the loop still takes the first line of the file
    before it tests the length: the call returns that line when it
    holds the substring. *)
Theorem X20_GetFirstNLines_zero
    (Map_unicode_ToLower : list ascii -> list ascii)
    (file : list ascii) (substring : list (list ascii)) :
  GetFirstNLines Map_unicode_ToLower file 0 substring
  = let substrLower :=
      match substring with
      | s :: _ => ToLower_any Map_unicode_ToLower s
      | [] => []
      end in
    match bufio.Scanner_Text file with
    | [] => if bufio.Scanner_Err file then Err else Ok []
    | line :: _ =>
        Ok (if line_selected Map_unicode_ToLower substrLower line
            then [line] else [])
    end.
Proof. apply GetFirstNLines_zero. Qed.

(** ** The log *)

(** X21: a log written from entries whose time holds no space and
    whose event holds no colon is read back as these entries. *)
Theorem X21_ReadLogEntries_round_trip (entries : list LogEntry) :
  Forall plain_entry entries ->
  ReadLogEntries (logText entries) = Some entries.
Proof.
  intros H. apply ReadLogEntries_logText.
  eapply List.Forall_impl; [|exact H]. apply plain_entry_stable.
Qed.

Lemma plain_sample_entry time event message :
  forallb (fun c => negb (Ascii.eqb c SP) && negb (Ascii.eqb c LF)) (lit time)
  && forallb (fun c => negb (Ascii.eqb c ":") && negb (Ascii.eqb c LF)) (lit event)
  && forallb (fun c => negb (Ascii.eqb c CR) && negb (Ascii.eqb c LF)) (lit message)
  && (len (logLine (sample_entry time event message)) <=? bufio.MaxScanTokenSize)
  = true ->
  plain_entry (sample_entry time event message).
Proof.
  rewrite !andb_true_iff, !forallb_forall. intros [[[H1 H2] H3] H4].
  assert (G : forall (l : list ascii) a b,
            (forall c, In c l -> negb (Ascii.eqb c a) && negb (Ascii.eqb c b) = true) ->
            ~ In a l /\ ~ In b l).
  { intros l a b H. split; intros Hin; specialize (H _ Hin);
      rewrite andb_true_iff, !negb_true_iff in H; destruct H as [Ha Hb];
      [rewrite Ascii.eqb_refl in Ha|rewrite Ascii.eqb_refl in Hb]; discriminate. }
  apply G in H1, H2, H3. apply Z.leb_le in H4.
  unfold plain_entry, LF_free. cbn [Time Event Message sample_entry]. tauto.
Qed.

Lemma X21_ReadLogEntries_round_trip_witness :
  ReadLogEntries
    (logText [sample_entry "2024-05-01T10:00:00Z" "File uploaded successfully"
                           "Duration: 1.5s";
              sample_entry "2024-05-01T10:05:00Z" "Error opening file" "EOF"])
  = Some [sample_entry "2024-05-01T10:00:00Z" "File uploaded successfully"
                       "Duration: 1.5s";
          sample_entry "2024-05-01T10:05:00Z" "Error opening file" "EOF"].
Proof.
  apply X21_ReadLogEntries_round_trip.
  repeat constructor; apply plain_sample_entry; vm_compute; reflexivity.
Defined.

(** X22: let the log be of whole lines, hold no carriage return and
    be read by [ReadLogEntries] as [entries] (it then holds no line
    too long for the scanner), and let the new entry be plain: no
    space in its time, no colon in its event, no newline in either or
    in its message, no carriage return in its message, and a line that
    fits the scanner.  Then [WriteLogEntry] succeeds, and the log then
    reads as [entries], less the oldest when the log was above the
    size limit, and the new entry.  Above the limit the file is
    written anew from the entries kept: lines that gave no entry are
    lost with the oldest entry. *)
Theorem X22_WriteLogEntry_read_back
    (maxSize : Z) (logFile : list ascii) (entries : list LogEntry)
    (entry : LogEntry) :
  ~ In CR logFile ->
  logFile = writeLines (bufio.rawLines logFile) ->
  ReadLogEntries logFile = Some entries ->
  plain_entry entry ->
  exists logFile',
    WriteLogEntry_with maxSize entry logFile = Some logFile' /\
    ReadLogEntries logFile'
    = Some ((if len logFile >? maxSize then skipn 1 entries else entries)
            ++ [entry])
  /\ ((len logFile >? maxSize) = true ->
      logFile' = logText (skipn 1 entries ++ [entry])).
Proof.
  intros HCR Hw H He.
  destruct (WriteLogEntry_read_back maxSize _ _ _ HCR Hw H He) as (f & E1 & E2).
  exists f. split; [exact E1|]. split; [exact E2|].
  intros Hlarge. unfold WriteLogEntry_with in E1. rewrite Hlarge in E1.
  rewrite truncateLogFile_eq, H in E1. cbn [option_map] in E1.
  inversion E1. unfold logText. rewrite map_app, concat_app. cbn [map concat].
  now rewrite app_nil_r.
Qed.

Lemma X22_WriteLogEntry_read_back_witness :
  exists logFile',
    WriteLogEntry_with 10 (sample_entry "2024-05-01T10:05:00Z" "Second" "two")
      (logText [sample_entry "2024-05-01T10:00:00Z" "First" "one"] ++ ln "junk")
    = Some logFile' /\
    ReadLogEntries logFile'
    = Some [sample_entry "2024-05-01T10:05:00Z" "Second" "two"].
Proof.
  destruct (X22_WriteLogEntry_read_back 10
              (logText [sample_entry "2024-05-01T10:00:00Z" "First" "one"]
               ++ ln "junk")
              [sample_entry "2024-05-01T10:00:00Z" "First" "one"]
              (sample_entry "2024-05-01T10:05:00Z" "Second" "two"))
    as (f & E1 & E2 & _).
  - vm_compute. intros H. repeat destruct H as [H|H]; try discriminate H. exact H.
  - vm_compute. reflexivity.
  - vm_compute. reflexivity.
  - apply plain_sample_entry. vm_compute. reflexivity.
  - exists f. split; [exact E1|]. exact E2.
Defined.

(** X23: [WriteLogEntry] returns an error exactly when the log is
    above the size limit and holds a line too long for the scanner of
    [ReadLogEntries]. *)
Theorem X23_WriteLogEntry_error
    (maxSize : Z) (logFile : list ascii) (entry : LogEntry) :
  WriteLogEntry_with maxSize entry logFile = None <->
  maxSize < len logFile /\
  Exists (fun l => 65536 <= len l) (bufio.rawLines logFile).
Proof. rewrite WriteLogEntry_error, Scanner_Err_long. reflexivity. Qed.

(** ** Small steps of the transform stage *)

Section TransformSteps.
Context {T : GoTables}.

(** X24: [RemoveControlChars] gives printable ASCII and leaves
    printable ASCII as it is: it is idempotent. *)
Theorem X24_RemoveControlChars_idempotent (s : list ascii) :
  printable (RemoveControlChars s)
  /\ (printable s -> RemoveControlChars s = s)
  /\ RemoveControlChars (RemoveControlChars s) = RemoveControlChars s.
Proof.
  split; [apply RemoveControlChars_printable|].
  split; [apply RemoveControlChars_printable_fixed|].
  apply RemoveControlChars_printable_fixed, RemoveControlChars_printable.
Qed.

End TransformSteps.

(** X25: [EnforceLengthRange] is idempotent, for any bounds. *)
Theorem X25_EnforceLengthRange_idempotent
    (input : list ascii) (minLength maxLength : Z) :
  EnforceLengthRange (EnforceLengthRange input minLength maxLength)
                     minLength maxLength
  = EnforceLengthRange input minLength maxLength.
Proof. apply EnforceLengthRange_idem. Qed.

(** ** What the denylist does reject *)

(** X26: [IsQualityCandidateCheck] rejects an ASCII string that holds
    one of the listed names, a string of digits, and an ASCII string of
    at most five bytes without a newline. *)
Theorem X26_denylist_rejections :
  (forall s p q d,
     is_ascii s -> In d domain_names -> s = p ++ lit d ++ q ->
     IsQualityCandidateCheck s = false)
  /\ (forall s,
        s <> [] -> Forall (fun c => 48 <= byteval c <= 57) s ->
        IsQualityCandidateCheck s = false)
  /\ (forall s,
        is_ascii s -> len s <= 5 -> ~ In LF s ->
        IsQualityCandidateCheck s = false).
Proof.
  split; [exact denylist_domain|]. split; [exact denylist_digits|exact denylist_short].
Qed.

Lemma trimSpace_left_spaces s :
  is_ascii s ->
  exists sp r, s = sp ++ r /\ strings.trimSpace_left s = inl r /\
    Forall (fun c => strings.asciiSpace (byteval c) = true) sp /\
    (r = [] \/ exists c t, r = c :: t /\ strings.asciiSpace (byteval c) = false).
Proof.
  induction 1 as [|c s Hc Hs IH].
  - exists [], []. cbn. auto.
  - cbn [strings.trimSpace_left].
    destruct (utf8.RuneSelf <=? byteval c) eqn:E; [unfold utf8.RuneSelf in E; lia|].
    destruct (strings.asciiSpace (byteval c)) eqn:A.
    + destruct IH as (sp & r & -> & E2 & F & H). exists (c :: sp), r.
      split; [reflexivity|]. split; [exact E2|]. split; [now constructor|exact H].
    + exists [], (c :: s). split; [reflexivity|]. split; [reflexivity|].
      split; [constructor|]. right. now exists c, s.
Qed.

(** [TrimSpace] keeps the bytes of an ASCII string that are not white
    space. *)
Lemma TrimSpace_keeps s b :
  is_ascii s -> In b s -> strings.asciiSpace (byteval b) = false ->
  In b (strings.TrimSpace s).
Proof.
  intros H Hb Hns. unfold strings.TrimSpace.
  destruct (trimSpace_left_spaces s H) as (sp & r & -> & -> & Fsp & _).
  assert (Har : is_ascii (rev r)).
  { apply Forall_rev. apply Forall_app in H. tauto. }
  destruct (trimSpace_left_spaces (rev r) Har) as (sp' & r' & E & -> & Fsp' & _).
  assert (Hr : In b r).
  { apply in_app_or in Hb. destruct Hb as [Hb|Hb]; [|exact Hb].
    rewrite List.Forall_forall in Fsp. specialize (Fsp b Hb). cbv beta in Fsp.
    congruence. }
  apply in_rev in Hr. rewrite E in Hr. apply in_app_or in Hr.
  destruct Hr as [Hr|Hr].
  - rewrite List.Forall_forall in Fsp'. specialize (Fsp' b Hr). cbv beta in Fsp'.
    congruence.
  - now apply in_rev in Hr.
Qed.

Section UploadLoopProperties.
Context {T : GoTables}.

Lemma LikelyContainsWords_vowel s :
  LikelyContainsWords s = true ->
  exists c, In c s /\ isVowel (byteval c) = true.
Proof.
  rewrite LikelyContainsWords_eq, andb_true_iff, existsb_exists.
  intros [_ (i & _ & W)].
  unfold window_qualifies in W. apply andb_true_iff in W. destruct W as [W _].
  apply existsb_exists in W. destruct W as (v & Hv & Vv).
  destruct (isVowel_letter v Vv) as [Hlow _].
  destruct (low_rune_is_byte _ _ v Hv Hlow) as (c & Hc & <-).
  exists c. split; [now apply slice_incl in Hc|exact Vv].
Qed.

Lemma lower_vowel c :
  isVowel (byteval c) = true ->
  strings.asciiSpace (byteval (strings.lower_byte c)) = false.
Proof.
  unfold isVowel. cbn [existsb]. rewrite !orb_true_iff, !Z.eqb_eq.
  intros H. unfold strings.lower_byte, utf8.in_range.
  pose proof (byteval_range c) as R.
  destruct ((65 <=? byteval c) && (byteval c <=? 90));
    [rewrite byteval_byte_of by lia|];
    repeat destruct H as [H|H]; try discriminate H; rewrite <- H; reflexivity.
Qed.

Lemma stored_line_nonempty x :
  acceptable x = true -> strings.TrimSpace (strings.ToLower x) <> [].
Proof.
  intros A. unfold acceptable in A. rewrite !andb_true_iff in A.
  destruct A as [[[_ A] L] _]. apply ContainsOnlyASCII_is_ascii in A.
  destruct (LikelyContainsWords_vowel x L) as (c & Hc & Vc).
  assert (Hin : In (strings.lower_byte c) (strings.TrimSpace (strings.ToLower x))).
  { apply TrimSpace_keeps; [now apply ToLower_ascii| |now apply lower_vowel].
    unfold strings.ToLower. now apply in_map. }
  intros E. rewrite E in Hin. destruct Hin.
Qed.

Lemma transform_lines_plain lines : forall acc,
  Forall (fun l => ~ In "$"%char l) lines ->
  fold_left transform_line lines (Ok acc)
  = Ok (acc ++ map (fun line => strings.TrimSpace (strings.ToLower line))
                   (List.filter acceptable lines)).
Proof.
  induction lines as [|l lines IH]; intros acc H; cbn [fold_left List.filter map].
  - now rewrite app_nil_r.
  - inversion H as [|? ? Hl Hls]; subst.
    rewrite transform_line_plain by exact Hl.
    destruct (acceptable l); rewrite IH by exact Hls; [|reflexivity].
    cbn [map]. now rewrite <- app_assoc.
Qed.

Lemma updatedContent_plain content :
  ~ In "$"%char content ->
  updatedContent content = Ok (strings.Join (stored_lines content) [LF]).
Proof.
  intros H. unfold updatedContent, stored_lines.
  rewrite transform_lines_plain; [reflexivity|].
  eapply List.Forall_impl; [|apply Split_incl].
  intros l Hl Hin. apply H. now apply Hl.
Qed.

Lemma upload_loop_end fuel bufsize targetFile :
  upload_loop fuel bufsize [] targetFile = Ok targetFile.
Proof.
  destruct fuel; [reflexivity|]. cbn [upload_loop]. unfold Read.
  now rewrite firstn_nil.
Qed.

(** One read: a file that is not empty and fits the buffer. *)
Lemma upload_loop_one_read file targetFile :
  file <> [] -> len file <= uploadBufferSize -> ~ In "$"%char file ->
  upload_loop (S (length file)) (Z.to_nat uploadBufferSize) file targetFile
  = Ok (targetFile ++ strings.Join (stored_lines file) [LF]).
Proof.
  intros Hne Hlen Hd.
  assert (Hn : (length file <= Z.to_nat uploadBufferSize)%nat) by (unfold len in Hlen; lia).
  generalize dependent (Z.to_nat uploadBufferSize). intros n Hn.
  cbn [upload_loop]. unfold Read.
  rewrite firstn_all2, skipn_all2 by lia.
  destruct file as [|c file]; [contradiction|].
  rewrite updatedContent_plain by exact Hd.
  apply upload_loop_end.
Qed.

Lemma stored_lines_LF_free content : Forall LF_free (stored_lines content).
Proof.
  unfold stored_lines. apply Forall_map. apply List.Forall_forall. intros l Hl.
  apply filter_In in Hl as [Hl _]. cbv beta.
  pose proof (Split_pieces_LF_free content) as HP.
  rewrite List.Forall_forall in HP. specialize (HP l Hl).
  intros Hin. apply TrimSpace_incl in Hin. unfold strings.ToLower in Hin.
  apply in_map_iff in Hin. destruct Hin as (c & E & Hc).
  assert (c = LF).
  { unfold strings.lower_byte in E.
    destruct (utf8.in_range 65 90 (byteval c)) eqn:R; [|exact E].
    exfalso. unfold utf8.in_range in R. apply andb_true_iff in R.
    destruct R as [R1 R2]. apply Z.leb_le in R1, R2.
    apply (f_equal byteval) in E. rewrite byteval_byte_of in E by lia.
    change (byteval LF) with 10 in E. lia. }
  subst c. now apply HP.
Qed.

Lemma stored_lines_nonempty content : Forall (fun l => l <> []) (stored_lines content).
Proof.
  unfold stored_lines. apply Forall_map. apply List.Forall_forall. intros l Hl.
  apply filter_In in Hl as [_ Hl]. now apply stored_line_nonempty.
Qed.

End UploadLoopProperties.

Lemma Join_app_merge (S1 S2 : list (list ascii)) :
  S1 <> [] -> S2 <> [] ->
  strings.Join S1 [LF] ++ strings.Join S2 [LF]
  = strings.Join (removelast S1 ++ [List.last S1 [] ++ hd [] S2] ++ tl S2) [LF].
Proof.
  intros H1 H2. destruct S2 as [|y S2]; [contradiction|]. cbn [hd tl]. clear H2.
  induction S1 as [|x S1 IH]; [contradiction|]. clear H1.
  destruct S1 as [|x' S1].
  - cbn [removelast List.last app]. destruct S2 as [|z S2].
    + reflexivity.
    + change (strings.Join [x] [LF]) with x. cbn [app].
      rewrite !Join_cons2. now rewrite <- app_assoc.
  - change (removelast (x :: x' :: S1)) with (x :: removelast (x' :: S1)).
    change (List.last (x :: x' :: S1) []) with (List.last (x' :: S1) []).
    rewrite Join_cons2. rewrite <- 2 app_assoc. rewrite IH by discriminate.
    cbn [app].
    destruct (removelast (x' :: S1) ++ (List.last (x' :: S1) [] ++ y) :: S2) eqn:E.
    + destruct (removelast (x' :: S1)); discriminate E.
    + now rewrite Join_cons2.
Qed.

Section ImportJoinsLines.
Context {T : GoTables}.

Lemma upload_then_import upload imported :
  upload <> [] -> len upload <= uploadBufferSize -> ~ In "$"%char upload ->
  imported <> [] -> len imported <= uploadBufferSize -> ~ In "$"%char imported ->
  stored_lines upload <> [] -> stored_lines imported <> [] ->
  exists wordlist wordlist',
    UploadHandler [] upload = Ok wordlist /\
    appendFileToWordlist imported wordlist = Ok wordlist' /\
    wordlist = strings.Join (stored_lines upload) [LF] /\
    wordlist' = wordlist ++ strings.Join (stored_lines imported) [LF] /\
    bufio.rawLines wordlist'
    = removelast (stored_lines upload)
      ++ [List.last (stored_lines upload) [] ++ hd [] (stored_lines imported)]
      ++ tl (stored_lines imported).
Proof.
  intros U1 U2 U3 I1 I2 I3 S1 S2.
  exists (strings.Join (stored_lines upload) [LF]),
         (strings.Join (stored_lines upload) [LF]
          ++ strings.Join (stored_lines imported) [LF]).
  split; [|split; [|split; [|split]]].
  - unfold UploadHandler. change (len [] >? 0) with false. cbv iota.
    now rewrite upload_loop_one_read by assumption.
  - unfold appendFileToWordlist. now rewrite upload_loop_one_read by assumption.
  - reflexivity.
  - reflexivity.
  - rewrite Join_app_merge by assumption.
    apply rawLines_last_nonempty.
    + destruct (removelast (stored_lines upload)); discriminate.
    + pose proof (stored_lines_LF_free upload) as L1.
      pose proof (stored_lines_LF_free imported) as L2.
      apply Forall_app. split.
      * apply List.Forall_forall. intros l Hl.
        rewrite List.Forall_forall in L1. apply L1.
        clear -Hl. induction (stored_lines upload) as [|a [|b l'] IH];
          [destruct Hl|destruct Hl|].
        change (removelast (a :: b :: l')) with (a :: removelast (b :: l')) in Hl.
        destruct Hl as [->|Hl]; [now left|right; now apply IH].
      * apply Forall_app. split.
        -- constructor; [|constructor]. intros Hin. apply in_app_or in Hin.
           destruct Hin as [Hin|Hin].
           ++ rewrite List.Forall_forall in L1. apply (L1 (List.last (stored_lines upload) [])); [|exact Hin].
              clear -S1. induction (stored_lines upload) as [|a [|b l'] IH];
                [contradiction|now left|]. right. apply IH. discriminate.
           ++ rewrite List.Forall_forall in L2. apply (L2 (hd [] (stored_lines imported))); [|exact Hin].
              destruct (stored_lines imported); [contradiction|now left].
        -- apply List.Forall_forall. intros l Hl.
           rewrite List.Forall_forall in L2. apply L2.
           destruct (stored_lines imported); [destruct Hl|now right].
    + pose proof (stored_lines_nonempty upload) as N1.
      pose proof (stored_lines_nonempty imported) as N2.
      apply Forall_app. split.
      * apply List.Forall_forall. intros l Hl.
        rewrite List.Forall_forall in N1. apply N1.
        clear -Hl. induction (stored_lines upload) as [|a [|b l'] IH];
          [destruct Hl|destruct Hl|].
        change (removelast (a :: b :: l')) with (a :: removelast (b :: l')) in Hl.
        destruct Hl as [->|Hl]; [now left|right; now apply IH].
      * apply Forall_app. split.
        -- constructor; [|constructor]. intros E. apply app_eq_nil in E.
           destruct E as [_ E].
           rewrite List.Forall_forall in N2. apply (N2 (hd [] (stored_lines imported))); [|exact E].
           destruct (stored_lines imported); [contradiction|now left].
        -- apply List.Forall_forall. intros l Hl.
           rewrite List.Forall_forall in N2. apply N2.
           destruct (stored_lines imported); [destruct Hl|now right].
Qed.

End ImportJoinsLines.

(** ** The lines of an upload *)

(** X18: for one read, the line loop of [UploadHandler] and of
    [appendFileToWordlist] never fails; it writes the entries of
    [transformedLines] joined by newlines, and every entry is ASCII,
    holds no upper-case letter and neither starts nor ends with white
    space.  For a read without [$] the entries are the lines of the
    read that pass the four predicates, lower-cased and trimmed; they
    hold no newline, so they are the lines of what is written.  An
    entry that comes from a [$HEX] group can hold a newline, and the
    lines written are then not trimmed: the group that decodes to
    "apples ", a newline and " horses" is written as these two
    lines. *)
Theorem X18_upload_stored_lines :
  (forall (T : GoTables) (content : list ascii),
     exists stored,
       fold_left transform_line (strings.Split content LF) (Ok []) = Ok stored /\
       updatedContent content = Ok (strings.Join stored [LF]) /\
       Forall stored_line stored)
  /\ (forall (T : GoTables) (content : list ascii),
        ~ In "$"%char content ->
        updatedContent content = Ok (strings.Join (stored_lines content) [LF])
        /\ Forall stored_line (stored_lines content)
        /\ Forall LF_free (stored_lines content)
        /\ (stored_lines content <> [] ->
            strings.Split (strings.Join (stored_lines content) [LF]) LF
            = stored_lines content))
  /\ (forall (T : GoTables) transformedLines line,
        ~ In "$"%char line ->
        transform_line (Ok transformedLines) line
        = Ok (if acceptable line
              then transformedLines
                   ++ [strings.TrimSpace (strings.ToLower line)]
              else transformedLines))
  /\ updatedContent (T:=asciiTables)
       (lit "$HEX[6170706c6573200a20686f72736573]")
     = Ok (lit "apples " ++ [LF] ++ lit " horses").
Proof.
  assert (H1 : forall (T : GoTables) (content : list ascii),
     exists stored,
       fold_left transform_line (strings.Split content LF) (Ok []) = Ok stored /\
       updatedContent content = Ok (strings.Join stored [LF]) /\
       Forall stored_line stored).
  { intros T content.
    destruct (transform_lines_ok (strings.Split content LF) [] (List.Forall_nil _))
      as (stored & E & H).
    exists stored. split; [exact E|]. split; [|exact H].
    unfold updatedContent. now rewrite E. }
  split; [exact H1|]. split; [|split].
  - intros T content Hd.
    pose proof (updatedContent_plain content Hd) as Hu.
    split; [exact Hu|]. split; [|split].
    + destruct (H1 T content) as (stored & E & _ & Hs).
      rewrite transform_lines_plain in E.
      * cbn [app] in E. injection E as <-. exact Hs.
      * pose proof (Split_incl content LF) as HI.
        eapply List.Forall_impl; [|exact HI].
        intros l Hl Hin. apply Hd, Hl, Hin.
    + apply stored_lines_LF_free.
    + intros Hne. apply Split_Join; [exact Hne|apply stored_lines_LF_free].
  - intros T acc line. apply transform_line_plain.
  - vm_compute. reflexivity.
Qed.

(** ** An upload and an import, one after the other *)

Section ImportAfterUpload.
Context {T : GoTables}.

(** X27: [UploadHandler] writes no newline after the last line that it
    stores and [appendFileToWordlist] none before the first: after an
    upload to an empty wordlist and an import (each of one read, of a
    file without [$], each storing a line) the last line of the upload
    and the first line of the import are one line of the wordlist. *)
Theorem X27_import_joins_last_and_first_line (upload imported : list ascii) :
  upload <> [] -> len upload <= uploadBufferSize -> ~ In "$"%char upload ->
  imported <> [] -> len imported <= uploadBufferSize -> ~ In "$"%char imported ->
  stored_lines upload <> [] -> stored_lines imported <> [] ->
  exists wordlist wordlist',
    UploadHandler [] upload = Ok wordlist /\
    appendFileToWordlist imported wordlist = Ok wordlist' /\
    wordlist = strings.Join (stored_lines upload) [LF] /\
    wordlist' = wordlist ++ strings.Join (stored_lines imported) [LF] /\
    bufio.rawLines wordlist'
    = removelast (stored_lines upload)
      ++ [List.last (stored_lines upload) [] ++ hd [] (stored_lines imported)]
      ++ tl (stored_lines imported).
Proof. apply upload_then_import. Qed.

End ImportAfterUpload.

Lemma X27_import_joins_last_and_first_line_witness :
  exists wordlist wordlist',
    UploadHandler (T:=asciiTables) [] (ln "Password1" ++ ln "hunter22")
    = Ok wordlist /\
    appendFileToWordlist (T:=asciiTables) (ln "Dragonfly") wordlist
    = Ok wordlist' /\
    bufio.rawLines wordlist' = [lit "password1"; lit "hunter22dragonfly"].
Proof.
  destruct (X27_import_joins_last_and_first_line (T:=asciiTables)
              (ln "Password1" ++ ln "hunter22") (ln "Dragonfly"))
    as (w & w' & E1 & E2 & _ & _ & E3).
  - discriminate.
  - apply Z.leb_le. vm_compute. reflexivity.
  - vm_compute. intros H. repeat destruct H as [H|H]; try discriminate H. exact H.
  - discriminate.
  - apply Z.leb_le. vm_compute. reflexivity.
  - vm_compute. intros H. repeat destruct H as [H|H]; try discriminate H. exact H.
  - vm_compute. discriminate.
  - vm_compute. discriminate.
  - exists w, w'. split; [exact E1|]. split; [exact E2|].
    rewrite E3. vm_compute. reflexivity.
Defined.

(** ** The prepared lines *)

Section PreparedLines.
Context {T : GoTables}.

Lemma PrepareStringForTransformations_map data :
  PrepareStringForTransformations data = map prepare_line (bufio.Scanner_Text data).
Proof.
  unfold PrepareStringForTransformations.
  rewrite (fold_left_app_concat (fun line => [prepare_line line])). cbn [app].
  induction (bufio.Scanner_Text data) as [|l L IH]; [reflexivity|].
  cbn [map concat app]. now rewrite IH.
Qed.

(** X28: [PrepareStringForTransformations] returns one line for each
    line that it scans, and, with a title caser that keeps printable
    ASCII printable, each of them holds graphic ASCII only (bytes 33 to
    126): no space, no control character, no byte above 126. *)
Theorem X28_prepared_lines_graphic (data : list ascii) :
  Title_keeps_printable T ->
  length (PrepareStringForTransformations data)
  = length (bufio.Scanner_Text data)
  /\ Forall graphic (PrepareStringForTransformations data).
Proof.
  intros HT. split.
  - now rewrite PrepareStringForTransformations_map, length_map.
  - now apply PrepareStringForTransformations_graphic.
Qed.

End PreparedLines.

Lemma X28_prepared_lines_graphic_witness :
  Title_keeps_printable asciiTables
  /\ PrepareStringForTransformations (T:=asciiTables) (ln "Correct  Horse")
     = [lit "CorrectHorse"]
  /\ Forall graphic
       (PrepareStringForTransformations (T:=asciiTables) (ln "Correct  Horse")).
Proof.
  split; [exact asciiTables_Title_keeps_printable|].
  split; [vm_compute; reflexivity|].
  exact (proj2 (X28_prepared_lines_graphic (T:=asciiTables) (ln "Correct  Horse")
                  asciiTables_Title_keeps_printable)).
Defined.
